(** * Adaptive image encoding and decomposition: tiles, crops, encoder

    A shallow embedding of the image pipeline of figma-smart-image-mcp:

    - [dist/image/tiles.js]: [ImageTiler.generateTiles] and the
      region-aware [ImageEncoder.prototype.encodeToFit] installed there;
    - [image/encode.js]: the base [ImageEncoder.encodeToFit] and [tryEncode];
    - [image/crops.js]: [ImageCropper.generateCrops],
      [generateCropRegions] and [sanitizeName];
    - [server.js]: the path [handleProcessFigmaLink] gives the overview.

    Conventions of the embedding.

    - Pixel counts, byte counts and quality levels are JavaScript numbers
      holding integers (the server validates [tile_px], [overlap_px],
      [max_bytes] with [z.number().int()]); they are [Z] here.  On integers
      [Math.round] is the identity and is not written.
    - Fractions ([scaleFactor], [height * 0.2], ...) are exact rationals [Q];
      [Math.round] on them is [js_round], rounding half up as JavaScript does.
    - [async] code runs sequentially; it is written in the monad [M]: a
      computation reads and updates the file system, may throw, and emits
      events.  A thrown error keeps the file system it was thrown in.
    - [sharp], [fs] and [path] are libraries outside the repository; what the
      code needs of them is the interface [Platform]. *)

From Stdlib Require Import ZArith QArith Qround Qminmax Bool List Lia.
From Stdlib Require Import Ascii String DecimalString.
From Stdlib Require Import Lqa.
Import ListNotations.

Local Open Scope Z_scope.

(* ===================================================================== *)
(** ** JavaScript numerics *)
(* ===================================================================== *)

(** [Math.round(q)]: the nearest integer, ties towards +infinity. *)
Definition js_round (q : Q) : Z := Qfloor (q + (1 # 2))%Q.

(** [Math.ceil(a / b)] for integers [a] and [b], [b <> 0]. *)
Definition ceil_div (a b : Z) : Z := - ((- a) / b).

(** [v || 0] on an optional numeric field. *)
Definition or0 (v : option Z) : Z :=
  match v with
  | Some n => n
  | None => 0
  end.

(** [x < y] and [x >= y] on fractions. *)
Definition Qltb (x y : Q) : bool := negb (Qle_bool y x).
Definition Qgeb (x y : Q) : bool := Qle_bool y x.

(** Template literal [${n}] for an integer. *)
Definition show_Z (n : Z) : string := NilZero.string_of_int (Z.to_int n).
Definition show_nat (n : nat) : string := NilZero.string_of_uint (Nat.to_uint n).

(** [for (let i = 0; i < n; i++)]: the values [i] takes. *)
Definition upto (n : Z) : list Z := map Z.of_nat (seq 0 (Z.to_nat n)).

(* ===================================================================== *)
(** ** Data *)
(* ===================================================================== *)

Inductive Format : Type := webp | jpeg.

(** [format === "webp" ? "webp" : "jpg"] *)
Definition extensionOf (format : Format) : string :=
  match format with
  | webp => "webp"
  | jpeg => "jpg"
  end.

(** The [region] argument of [encodeToFit] and of [sharp.extract]. *)
Record Region : Type := mkRegion {
  r_left : Z;
  r_top : Z;
  r_width : Z;
  r_height : Z
}.

(** A [sharp] pipeline: the input path and the operations queued on it. *)
Record Pipeline : Type := mkPipeline {
  p_input : string;
  p_extract : option Region;
  p_resize : option (Z * Z);
  p_output : option (Format * Z)
}.

Definition sharp (inputPath : string) : Pipeline :=
  {| p_input := inputPath; p_extract := None; p_resize := None; p_output := None |}.

Definition extract (r : Region) (p : Pipeline) : Pipeline :=
  {| p_input := p_input p; p_extract := Some r;
     p_resize := p_resize p; p_output := p_output p |}.

Definition resize (w h : Z) (p : Pipeline) : Pipeline :=
  {| p_input := p_input p; p_extract := p_extract p;
     p_resize := Some (w, h); p_output := p_output p |}.

(** [.webp({ quality, effort: 4 })] or [.jpeg({ quality, mozjpeg: true })] *)
Definition toFormat (format : Format) (quality : Z) (p : Pipeline) : Pipeline :=
  {| p_input := p_input p; p_extract := p_extract p;
     p_resize := p_resize p; p_output := Some (format, quality) |}.

(** What [metadata()] resolves to: [width] and [height] may be undefined. *)
Record Metadata : Type := mkMetadata {
  m_width : option Z;
  m_height : option Z
}.

(** [EncodedImage] of encode.d.ts. *)
Record EncodedImage : Type := mkEncodedImage {
  e_path : string;
  e_bytes : Z;
  e_width : Z;
  e_height : Z;
  e_format : Format;
  e_quality : Z;
  e_scaleFactor : Q
}.

(** [EncodeOptions] of encode.d.ts. *)
Record EncodeOptions : Type := mkEncodeOptions {
  maxBytes : Z;
  maxLongEdge : Z;
  preferFormat : Format
}.

(** [Tile] and [TilingOptions] of tiles.d.ts. *)
Record Tile : Type := mkTile {
  t_path : string;
  t_x : Z;
  t_y : Z;
  t_w : Z;
  t_h : Z;
  t_bytes : Z;
  t_width : Z;
  t_height : Z
}.

Record TilingOptions : Type := mkTilingOptions {
  tilePx : Z;
  overlapPx : Z;
  to_maxBytes : Z;
  to_maxLongEdge : Z;
  to_preferFormat : Format
}.

(** [Crop] and [CropOptions] of crops.d.ts, and the entries of the list
    built by [generateCropRegions]. *)
Record Crop : Type := mkCrop {
  c_path : string;
  c_name : string;
  c_x : Z;
  c_y : Z;
  c_w : Z;
  c_h : Z;
  c_bytes : Z;
  c_width : Z;
  c_height : Z
}.

Record CropOptions : Type := mkCropOptions {
  co_maxBytes : Z;
  co_maxLongEdge : Z;
  co_preferFormat : Format;
  minCropSize : Z
}.

Record CropRegion : Type := mkCropRegion {
  cr_name : string;
  cr_x : Z;
  cr_y : Z;
  cr_w : Z;
  cr_h : Z
}.

(* ===================================================================== *)
(** ** The world: files, errors, events *)
(* ===================================================================== *)

(** An image file on disk: its size in bytes and its pixel dimensions. *)
Record File : Type := mkFile {
  f_size : Z;
  f_width : Z;
  f_height : Z
}.

Record FS : Type := mkFS {
  files : string -> option File;
  dirs : string -> bool
}.

(** A thrown [Error], by its message; [${error}] prints it. *)
Definition Error : Type := string.
Definition error_toString (e : Error) : string := "Error: " ++ e.

Inductive outcome (A : Type) : Type :=
| Ok (a : A)
| Throw (e : Error).
Arguments Ok {A} a.
Arguments Throw {A} e.

(** One pass through a [try] block of the quality/scale search. *)
Record Attempt : Type := mkAttempt {
  a_scale : Q;
  a_quality : Z;
  a_result : outcome EncodedImage
}.

(** What a run leaves behind besides files: the encode attempts made (kept
    for the statements about the search; the code has no such log) and the
    lines written with [console.warn]. *)
Inductive Event : Type :=
| EvAttempt (a : Attempt)
| EvWarn (msg : string).

(* ===================================================================== *)
(** ** The monad of sequential effects *)
(* ===================================================================== *)

Definition M (A : Type) : Type := FS -> outcome A * FS * list Event.

Definition ret {A} (a : A) : M A := fun fs => (Ok a, fs, []).

Definition bind {A B} (m : M A) (k : A -> M B) : M B :=
  fun fs =>
    match m fs with
    | (Ok a, fs1, t1) =>
        match k a fs1 with
        | (r, fs2, t2) => (r, fs2, t1 ++ t2)
        end
    | (Throw e, fs1, t1) => (Throw e, fs1, t1)
    end.

Definition throw {A} (e : Error) : M A := fun fs => (Throw e, fs, []).

(** [try { m } catch (error) { ... }] with the outcome handed to the
    continuation. *)
Definition try_ {A} (m : M A) : M (outcome A) :=
  fun fs =>
    match m fs with
    | (r, fs1, t1) => (Ok r, fs1, t1)
    end.

Definition emit (ev : Event) : M unit := fun fs => (Ok tt, fs, [ev]).

(** A call that reads the file system. *)
Definition reading {A} (f : FS -> outcome A) : M A := fun fs => (f fs, fs, []).

(** A call that may change the file system. *)
Definition acting {A} (f : FS -> outcome A * FS) : M A :=
  fun fs => match f fs with (r, fs1) => (r, fs1, []) end.

Declare Scope js_scope.
Delimit Scope js_scope with js.
Notation "x <- m ;; k" := (bind m (fun x => k))
  (at level 61, m at next level, right associativity) : js_scope.
Notation "m ;;; k" := (bind m (fun _ => k))
  (at level 61, right associativity) : js_scope.
Local Open Scope js_scope.

(** [for (const x of xs) { acc = body(x, acc) }] without [break]. *)
Fixpoint forEach {A S} (xs : list A) (body : A -> S -> M S) (acc : S) : M S :=
  match xs with
  | [] => ret acc
  | x :: xs' => acc' <- body x acc ;; forEach xs' body acc'
  end.

(* ===================================================================== *)
(** ** The libraries the code calls *)
(* ===================================================================== *)

Record Platform : Type := mkPlatform {
  (** [await pipeline.metadata()] *)
  sharp_metadata : Pipeline -> FS -> outcome Metadata;
  (** [await pipeline.toFile(path)] *)
  sharp_toFile : Pipeline -> string -> FS -> outcome unit * FS;
  (** [await mkdir(dir, { recursive: true })] *)
  fs_mkdir : string -> FS -> outcome unit * FS;
  (** [dirname(path)] and [join(dir, file)] of "path" *)
  path_dirname : string -> string;
  path_join : string -> string -> string
}.

(** [existsSync(path)] *)
Definition existsSync (path : string) (fs : FS) : bool :=
  match files fs path with
  | Some _ => true
  | None => dirs fs path
  end.

(** [statSync(path).size] *)
Definition statSync_size (path : string) : M Z :=
  reading (fun fs =>
    match files fs path with
    | Some f => Ok (f_size f)
    | None => Throw ("ENOENT: no such file or directory, stat '" ++ path ++ "'")%string
    end).

(** [s.endsWith(suffix)] *)
Fixpoint endsWith (s suffix : string) : bool :=
  if String.eqb s suffix then true
  else match s with
       | EmptyString => false
       | String _ s' => endsWith s' suffix
       end.

(* ===================================================================== *)
(** ** ImageEncoder: the quality/scale search *)
(* ===================================================================== *)

Definition qualityLevels : list Z :=
  [95; 90; 85; 80; 75; 70; 65; 60; 55; 50; 45; 40; 35; 30; 25; 20].

Definition scaleFactors : list Q :=
  [9 # 10; 8 # 10; 7 # 10; 6 # 10; 5 # 10; 4 # 10; 3 # 10; 25 # 100; 2 # 10]%Q.

(** [!bestResult || bestResult.bytes > maxBytes] *)
Definition stillTooBig (maxBytes : Z) (bestResult : option EncodedImage) : bool :=
  match bestResult with
  | None => true
  | Some r => maxBytes <? e_bytes r
  end.

(** [bestResult && bestResult.bytes <= maxBytes] *)
Definition withinBudget (maxBytes : Z) (bestResult : option EncodedImage) : bool :=
  match bestResult with
  | None => false
  | Some r => e_bytes r <=? maxBytes
  end.

(** The [try] block of one loop iteration, run to its outcome; the outcome
    is also put on record as an [Attempt]. *)
Definition tryAttempt (scaleFactor : Q) (quality : Z) (body : M EncodedImage)
  : M (outcome EncodedImage) :=
  r <- try_ body ;;
  emit (EvAttempt {| a_scale := scaleFactor; a_quality := quality; a_result := r |}) ;;;
  ret r.

(** [for (const quality of qualityLevels) { try { ... } catch { break } }]:
    the result of every attempt replaces [bestResult]; the loop ends at the
    first attempt within [maxBytes] and at the first attempt that throws. *)
Fixpoint qualityLoop (maxBytes : Z) (body : Z -> M EncodedImage) (scaleFactor : Q)
    (levels : list Z) (bestResult : option EncodedImage) : M (option EncodedImage) :=
  match levels with
  | [] => ret bestResult
  | quality :: levels' =>
      r <- tryAttempt scaleFactor quality (body quality) ;;
      match r with
      | Ok result =>
          if e_bytes result <=? maxBytes
          then ret (Some result)
          else qualityLoop maxBytes body scaleFactor levels' (Some result)
      | Throw _ => ret bestResult
      end
  end.

(** [for (const newScaleFactor of scaleFactors) { scaleFactor = Math.min(...);
    for (const quality of qualityLevels) {...}; if (...) break; }] *)
Fixpoint scaleLoop (maxBytes : Z) (body : Q -> Z -> M EncodedImage)
    (candidates : list Q) (scaleFactor : Q) (bestResult : option EncodedImage)
  : M (option EncodedImage) :=
  match candidates with
  | [] => ret bestResult
  | newScaleFactor :: candidates' =>
      let scaleFactor := Qmin scaleFactor newScaleFactor in
      bestResult <- qualityLoop maxBytes (body scaleFactor) scaleFactor
                      qualityLevels bestResult ;;
      if withinBudget maxBytes bestResult
      then ret bestResult
      else scaleLoop maxBytes body candidates' scaleFactor bestResult
  end.

(** The two phases and the final [if (!bestResult) throw ...; return
    bestResult], shared by both versions of [encodeToFit]. *)
Definition searchToFit (maxBytes : Z)
    (qualityBody scaleBody : Q -> Z -> M EncodedImage) (scaleFactor : Q)
  : M EncodedImage :=
  bestResult <- qualityLoop maxBytes (qualityBody scaleFactor) scaleFactor
                  qualityLevels None ;;
  bestResult <- (if stillTooBig maxBytes bestResult
                 then scaleLoop maxBytes scaleBody scaleFactors scaleFactor bestResult
                 else ret bestResult) ;;
  match bestResult with
  | None =>
      throw ("Failed to encode image to meet size constraint of "
             ++ show_Z maxBytes ++ " bytes")%string
  | Some result => ret result
  end.

(** [longEdge > maxLongEdge ? maxLongEdge / longEdge : 1].  The division
    is taken only when [longEdge > maxLongEdge]; it is exact here, and
    differs from the JavaScript value only when [longEdge = 0] under a
    negative [maxLongEdge] (where JavaScript gives -Infinity). *)
Definition initialScale (maxLongEdge originalWidth originalHeight : Z) : Q :=
  let longEdge := Z.max originalWidth originalHeight in
  if maxLongEdge <? longEdge
  then (inject_Z maxLongEdge / inject_Z longEdge)%Q
  else 1%Q.

(** [outputPath.endsWith(`.${extension}`) ? outputPath : `${outputPath}.${extension}`] *)
Definition finalOutputPathOf (outputPath : string) (format : Format) : string :=
  let extension := extensionOf format in
  if endsWith outputPath ("." ++ extension)
  then outputPath
  else (outputPath ++ "." ++ extension)%string.

Section Encoder.

Variable P : Platform.

(** [if (!existsSync(dir)) { await mkdir(dir, { recursive: true }) }] *)
Definition ensureDir (dir : string) : M unit :=
  fun fs =>
    if existsSync dir fs then ret tt fs else acting (fs_mkdir P dir) fs.

Definition metadata (p : Pipeline) : M Metadata := reading (sharp_metadata P p).
Definition toFile (p : Pipeline) (path : string) : M unit :=
  acting (sharp_toFile P p path).

(** [sharp(inputPath)], with [.extract(region)] when a region is given. *)
Definition source (inputPath : string) (region : option Region) : Pipeline :=
  match region with
  | Some r => extract r (sharp inputPath)
  | None => sharp inputPath
  end.

(** From [const info = await encodePipeline.clone().metadata()] to the
    [result] object: both [try] blocks of tiles.js end this way. *)
Definition writeAndMeasure (encodePipeline : Pipeline) (finalOutputPath : string)
    (format : Format) (quality : Z) (scaleFactor : Q) : M EncodedImage :=
  info <- metadata encodePipeline ;;
  let width := or0 (m_width info) in
  let height := or0 (m_height info) in
  toFile encodePipeline finalOutputPath ;;;
  bytes <- statSync_size finalOutputPath ;;
  ret {| e_path := finalOutputPath; e_bytes := bytes;
         e_width := width; e_height := height;
         e_format := format; e_quality := quality;
         e_scaleFactor := scaleFactor |}.

(** tiles.js, lines 121-156: the [try] block of the quality phase. *)
Definition qualityPhaseBody (inputPath finalOutputPath : string)
    (region : option Region) (originalWidth originalHeight : Z)
    (format : Format) (scaleFactor : Q) (quality : Z) : M EncodedImage :=
  let encodePipeline := source inputPath region in
  let encodePipeline :=
    if Qltb scaleFactor 1
    then
      let newWidth := js_round (inject_Z originalWidth * scaleFactor) in
      let newHeight := js_round (inject_Z originalHeight * scaleFactor) in
      resize newWidth newHeight encodePipeline
    else encodePipeline in
  let encodePipeline := toFormat format quality encodePipeline in
  writeAndMeasure encodePipeline finalOutputPath format quality scaleFactor.

(** tiles.js, lines 173-206: the [try] block of the scale phase. *)
Definition scalePhaseBody (inputPath finalOutputPath : string)
    (region : option Region) (originalWidth originalHeight : Z)
    (format : Format) (scaleFactor : Q) (quality : Z) : M EncodedImage :=
  let encodePipeline := source inputPath region in
  let newWidth := js_round (inject_Z originalWidth * scaleFactor) in
  let newHeight := js_round (inject_Z originalHeight * scaleFactor) in
  let encodePipeline := resize newWidth newHeight encodePipeline in
  let encodePipeline := toFormat format quality encodePipeline in
  writeAndMeasure encodePipeline finalOutputPath format quality scaleFactor.

(** tiles.js, lines 87-226: [ImageEncoder.prototype.encodeToFit], the
    version with region support that replaces the base method. *)
Definition encodeToFit (inputPath outputPath : string) (options : EncodeOptions)
    (region : option Region) : M EncodedImage :=
  ensureDir (path_dirname P outputPath) ;;;
  let pipeline := source inputPath region in
  metadata_ <- metadata pipeline ;;
  let originalWidth := or0 (m_width metadata_) in
  let originalHeight := or0 (m_height metadata_) in
  let scaleFactor := initialScale (maxLongEdge options) originalWidth originalHeight in
  let format := preferFormat options in
  let finalOutputPath := finalOutputPathOf outputPath format in
  searchToFit (maxBytes options)
    (qualityPhaseBody inputPath finalOutputPath region originalWidth originalHeight format)
    (scalePhaseBody inputPath finalOutputPath region originalWidth originalHeight format)
    scaleFactor.

(** encode.js, [tryEncode]. *)
Definition tryEncode (inputPath outputPath : string) (scaleFactor : Q)
    (quality : Z) (format : Format) (maxBytes : Z) : M EncodedImage :=
  let pipeline := sharp inputPath in
  pipeline <- (if Qltb scaleFactor 1
               then
                 metadata_ <- metadata (sharp inputPath) ;;
                 let newWidth := js_round (inject_Z (or0 (m_width metadata_)) * scaleFactor) in
                 let newHeight := js_round (inject_Z (or0 (m_height metadata_)) * scaleFactor) in
                 ret (resize newWidth newHeight pipeline)
               else ret pipeline) ;;
  let pipeline := toFormat format quality pipeline in
  info <- metadata pipeline ;;
  let width := or0 (m_width info) in
  let height := or0 (m_height info) in
  toFile pipeline outputPath ;;;
  bytes <- statSync_size outputPath ;;
  ret {| e_path := outputPath; e_bytes := bytes;
         e_width := width; e_height := height;
         e_format := format; e_quality := quality;
         e_scaleFactor := scaleFactor |}.

(** encode.js, [ImageEncoder.encodeToFit] as the class declares it. *)
Definition base_encodeToFit (inputPath outputPath : string)
    (options : EncodeOptions) : M EncodedImage :=
  ensureDir (path_dirname P outputPath) ;;;
  metadata_ <- metadata (sharp inputPath) ;;
  let originalWidth := or0 (m_width metadata_) in
  let originalHeight := or0 (m_height metadata_) in
  let scaleFactor := initialScale (maxLongEdge options) originalWidth originalHeight in
  let format := preferFormat options in
  let finalOutputPath := finalOutputPathOf outputPath format in
  let attempt := fun scaleFactor quality =>
    tryEncode inputPath finalOutputPath scaleFactor quality format (maxBytes options) in
  searchToFit (maxBytes options) attempt attempt scaleFactor.

End Encoder.

(* ===================================================================== *)
(** ** ImageTiler *)
(* ===================================================================== *)

(** tiles.js, lines 33-36: the grid.  For [stride = 0] the JavaScript
    quotient is infinite or NaN; the embedding covers [stride <> 0]. *)
Definition strideOf (tilePx overlapPx : Z) : Z := tilePx - overlapPx.

Definition colsOf (imageWidth tilePx overlapPx : Z) : Z :=
  ceil_div (imageWidth - overlapPx) (strideOf tilePx overlapPx).

Definition rowsOf (imageHeight tilePx overlapPx : Z) : Z :=
  ceil_div (imageHeight - overlapPx) (strideOf tilePx overlapPx).

(** tiles.js, lines 42-57: position and size of the tile at [(row, col)].
    The size is computed from the stride origin, before the origin of an
    edge tile is moved. *)
Definition tileRegion (imageWidth imageHeight tilePx overlapPx row col : Z) : Region :=
  let stride := strideOf tilePx overlapPx in
  let cols := colsOf imageWidth tilePx overlapPx in
  let rows := rowsOf imageHeight tilePx overlapPx in
  let x := col * stride in
  let y := row * stride in
  let actualTileWidth :=
    if col =? cols - 1 then imageWidth - x else Z.min tilePx (imageWidth - x) in
  let actualTileHeight :=
    if row =? rows - 1 then imageHeight - y else Z.min tilePx (imageHeight - y) in
  let x := if (col =? cols - 1) && (1 <? cols)
           then Z.max 0 (imageWidth - tilePx) else x in
  let y := if (row =? rows - 1) && (1 <? rows)
           then Z.max 0 (imageHeight - tilePx) else y in
  {| r_left := x; r_top := y; r_width := actualTileWidth; r_height := actualTileHeight |}.

(** [`tile_${row}_${col}.${ext}`] *)
Definition tileFileName (row col : Z) (format : Format) : string :=
  "tile_" ++ show_Z row ++ "_" ++ show_Z col ++ "." ++ extensionOf format.

(** tiles.js, lines 20-30, and crops.js, lines 59-69: make sure the output
    directory exists and read the dimensions of the image. *)
Definition readDimensions (P : Platform) (inputPath outputDir : string) : M (Z * Z) :=
  ensureDir P outputDir ;;;
  metadata_ <- metadata P (sharp inputPath) ;;
  let imageWidth := or0 (m_width metadata_) in
  let imageHeight := or0 (m_height metadata_) in
  if (imageWidth =? 0) || (imageHeight =? 0)
  then throw "Invalid image dimensions"%string
  else ret (imageWidth, imageHeight).

Section Tiler.

Variable P : Platform.

(** [this.encoder.encodeToFit], the encoder given to the constructor. *)
Variable encoder_encodeToFit :
  string -> string -> EncodeOptions -> option Region -> M EncodedImage.

(** tiles.js, lines 58-69: the call of the encoder for the tile at
    [(row, col)]. *)
Definition encodeTile (inputPath outputDir : string) (options : TilingOptions)
    (imageWidth imageHeight row col : Z) : M EncodedImage :=
  let region := tileRegion imageWidth imageHeight (tilePx options) (overlapPx options)
                  row col in
  let tilePath := path_join P outputDir (tileFileName row col (to_preferFormat options)) in
  encoder_encodeToFit inputPath tilePath
    {| maxBytes := to_maxBytes options;
       maxLongEdge := Z.min (to_maxLongEdge options) (tilePx options);
       preferFormat := to_preferFormat options |}
    (Some region).

(** tiles.js, lines 41-80: the body of the inner loop. *)
Definition tileStep (inputPath outputDir : string) (options : TilingOptions)
    (imageWidth imageHeight row col : Z) (tiles : list Tile) : M (list Tile) :=
  let region := tileRegion imageWidth imageHeight (tilePx options) (overlapPx options)
                  row col in
  encoded <- encodeTile inputPath outputDir options imageWidth imageHeight row col ;;
  ret (tiles ++ [ {| t_path := e_path encoded;
                     t_x := r_left region; t_y := r_top region;
                     t_w := r_width region; t_h := r_height region;
                     t_bytes := e_bytes encoded;
                     t_width := e_width encoded; t_height := e_height encoded |} ]).

(** tiles.js, lines 18-84: [ImageTiler.generateTiles]. *)
Definition generateTiles (inputPath outputDir : string) (options : TilingOptions)
  : M (list Tile) :=
  dims <- readDimensions P inputPath outputDir ;;
  let (imageWidth, imageHeight) := dims in
  let cols := colsOf imageWidth (tilePx options) (overlapPx options) in
  let rows := rowsOf imageHeight (tilePx options) (overlapPx options) in
  forEach (upto rows) (fun row tiles =>
    forEach (upto cols) (fun col tiles =>
      tileStep inputPath outputDir options imageWidth imageHeight row col tiles)
      tiles) [].

End Tiler.

(* ===================================================================== *)
(** ** ImageCropper *)
(* ===================================================================== *)

Definition is_lower_or_digit (c : ascii) : bool :=
  let n := nat_of_ascii c in
  ((97 <=? n) && (n <=? 122) || (48 <=? n) && (n <=? 57))%nat.

Definition toLowerCase_ascii (c : ascii) : ascii :=
  let n := nat_of_ascii c in
  if ((65 <=? n) && (n <=? 90))%nat then ascii_of_nat (n + 32) else c.

Fixpoint toLowerCase (s : string) : string :=
  match s with
  | EmptyString => EmptyString
  | String c s' => String (toLowerCase_ascii c) (toLowerCase s')
  end.

(** [.replace(/[^a-z0-9]+/g, "_")]: [inRun] tells that the character before
    was already replaced. *)
Fixpoint replaceRuns (inRun : bool) (s : string) : string :=
  match s with
  | EmptyString => EmptyString
  | String c s' =>
      if is_lower_or_digit c then String c (replaceRuns false s')
      else if inRun then replaceRuns true s'
      else String "_" (replaceRuns true s')
  end.

(** crops.js, [sanitizeName]. *)
Definition sanitizeName (name : string) : string :=
  replaceRuns false (toLowerCase name).

(** [`crop_${cropIndex}_${this.sanitizeName(region.name)}.${ext}`] *)
Definition cropFileName (cropIndex : nat) (name : string) (format : Format) : string :=
  "crop_" ++ show_nat cropIndex ++ "_" ++ sanitizeName name ++ "." ++ extensionOf format.

(** The double quote character, for messages. *)
Definition dquote : string := String (ascii_of_nat 34) EmptyString.

(** [`Failed to generate crop "${region.name}": ${error}`] *)
Definition cropWarning (name : string) (error : Error) : string :=
  "Failed to generate crop " ++ dquote ++ name ++ dquote ++ ": " ++ error_toString error.

(** [regions.push(r)] when [cond] holds. *)
Definition pushIf (cond : bool) (r : CropRegion) (regions : list CropRegion)
  : list CropRegion :=
  if cond then regions ++ [r] else regions.

(** crops.js, [generateCropRegions].  ([isPortrait] and [isSquare] are
    computed by the source and never read.) *)
Definition generateCropRegions (width height minSize : Z) : list CropRegion :=
  let regions := [] in
  if (width <? minSize) || (height <? minSize) then regions
  else
    let isLandscape := height <? width in
    let half := (inject_Z minSize * (5 # 10))%Q in
    (* 1. Top navigation/header area *)
    let headerHeight := Z.min (js_round (inject_Z height * (2 # 10))) minSize in
    let regions :=
      pushIf (Qgeb (inject_Z headerHeight) half)
        {| cr_name := "header"; cr_x := 0; cr_y := 0; cr_w := width; cr_h := headerHeight |}
        regions in
    (* 2. Top-left area *)
    let topLeftSize := Z.min minSize (js_round (inject_Z width * (4 # 10))) in
    let regions :=
      pushIf (Qgeb (inject_Z topLeftSize) half)
        {| cr_name := "top_left"; cr_x := 0; cr_y := 0;
           cr_w := topLeftSize; cr_h := topLeftSize |}
        regions in
    (* 3. Top-right area *)
    let topRightSize := Z.min minSize (js_round (inject_Z width * (4 # 10))) in
    let regions :=
      pushIf (Qgeb (inject_Z topRightSize) half)
        {| cr_name := "top_right"; cr_x := width - topRightSize; cr_y := 0;
           cr_w := topRightSize; cr_h := topRightSize |}
        regions in
    (* 4. Center area *)
    let centerSize :=
      Z.min minSize (js_round (inject_Z (Z.min width height) * (6 # 10))) in
    let centerX := js_round (inject_Z (width - centerSize) / 2) in
    let centerY := js_round (inject_Z (height - centerSize) / 2) in
    let regions :=
      pushIf (Qgeb (inject_Z centerSize) half)
        {| cr_name := "center"; cr_x := centerX; cr_y := centerY;
           cr_w := centerSize; cr_h := centerSize |}
        regions in
    (* 5. Bottom area *)
    let footerHeight := Z.min (js_round (inject_Z height * (25 # 100))) minSize in
    let footerY := height - footerHeight in
    let regions :=
      pushIf (Qgeb (inject_Z footerHeight) half)
        {| cr_name := "footer"; cr_x := 0; cr_y := footerY;
           cr_w := width; cr_h := footerHeight |}
        regions in
    (* 6. Bottom-right area *)
    let bottomRightSize := Z.min minSize (js_round (inject_Z width * (3 # 10))) in
    let regions :=
      pushIf (Qgeb (inject_Z bottomRightSize) half && isLandscape)
        {| cr_name := "bottom_right";
           cr_x := width - bottomRightSize; cr_y := height - bottomRightSize;
           cr_w := bottomRightSize; cr_h := bottomRightSize |}
        regions in
    (* 7. Left edge *)
    let regions :=
      pushIf (isLandscape && Qgeb (inject_Z width) (inject_Z minSize * (15 # 10)))
        (let sideWidth := Z.min minSize (js_round (inject_Z width * (3 # 10))) in
         {| cr_name := "left_edge"; cr_x := 0; cr_y := 0;
            cr_w := sideWidth; cr_h := height |})
        regions in
    (* 8. Right edge *)
    let regions :=
      pushIf (isLandscape && Qgeb (inject_Z width) (inject_Z minSize * (15 # 10)))
        (let sideWidth := Z.min minSize (js_round (inject_Z width * (3 # 10))) in
         {| cr_name := "right_edge"; cr_x := width - sideWidth; cr_y := 0;
            cr_w := sideWidth; cr_h := height |})
        regions in
    regions.

Section Cropper.

Variable P : Platform.

(** [this.encoder.encodeToFit], the encoder given to the constructor. *)
Variable encoder_encodeToFit :
  string -> string -> EncodeOptions -> option Region -> M EncodedImage.

(** crops.js, lines 76-87: the call of the encoder for a region, with the
    value [cropIndex] has at that moment. *)
Definition encodeCrop (inputPath outputDir : string) (options : CropOptions)
    (region : CropRegion) (cropIndex : nat) : M EncodedImage :=
  let cropPath :=
    path_join P outputDir
      (cropFileName cropIndex (cr_name region) (co_preferFormat options)) in
  encoder_encodeToFit inputPath cropPath
    {| maxBytes := co_maxBytes options;
       maxLongEdge := co_maxLongEdge options;
       preferFormat := co_preferFormat options |}
    (Some {| r_left := cr_x region; r_top := cr_y region;
             r_width := cr_w region; r_height := cr_h region |}).

(** crops.js, lines 75-105: one iteration of the loop over the regions;
    the state is [crops] and [cropIndex]. *)
Definition cropStep (inputPath outputDir : string) (options : CropOptions)
    (region : CropRegion) (st : list Crop * nat) : M (list Crop * nat) :=
  let (crops, cropIndex) := st in
  r <- try_ (encodeCrop inputPath outputDir options region cropIndex) ;;
  match r with
  | Ok encoded =>
      ret (crops ++ [ {| c_path := e_path encoded; c_name := cr_name region;
                         c_x := cr_x region; c_y := cr_y region;
                         c_w := cr_w region; c_h := cr_h region;
                         c_bytes := e_bytes encoded;
                         c_width := e_width encoded;
                         c_height := e_height encoded |} ],
           S cropIndex)
  | Throw error =>
      emit (EvWarn (cropWarning (cr_name region) error)) ;;;
      ret (crops, cropIndex)
  end.

(** crops.js, lines 57-107: [ImageCropper.generateCrops]. *)
Definition generateCrops (inputPath outputDir : string) (options : CropOptions)
  : M (list Crop) :=
  dims <- readDimensions P inputPath outputDir ;;
  let (imageWidth, imageHeight) := dims in
  let cropRegions := generateCropRegions imageWidth imageHeight (minCropSize options) in
  st <- forEach cropRegions (cropStep inputPath outputDir options) ([], 0%nat) ;;
  ret (fst st).

End Cropper.

(* ===================================================================== *)
(** ** The server: where the overview goes *)
(* ===================================================================== *)

(** server.js hands the tiler, the cropper and the encoder the same source
    image; the overview is the only output whose path it derives from the
    path of the source (line 340). *)

(** The value of [prefer_format], one of the strings of [z.enum(["webp", "jpeg"])]. *)
Definition formatName (prefer_format : Format) : string :=
  match prefer_format with
  | webp => "webp"
  | jpeg => "jpeg"
  end.

(** [s] without the suffix it ends with, if it ends with it. *)
Fixpoint stripSuffix (suffix s : string) : option string :=
  if String.eqb s suffix then Some EmptyString
  else match s with
       | EmptyString => None
       | String c s' => option_map (String c) (stripSuffix suffix s')
       end.

(** [s.replace(/\.(png|jpg|jpeg|webp)$/, replacement)] for a replacement
    without [$]: the pattern is anchored at the end of [s], so it matches at
    most once, where [s] ends with a dot and one of the four words. *)
Definition replaceImageExtension (s replacement : string) : string :=
  match stripSuffix ".png" s with
  | Some stem => stem ++ replacement
  | None =>
  match stripSuffix ".jpg" s with
  | Some stem => stem ++ replacement
  | None =>
  match stripSuffix ".jpeg" s with
  | Some stem => stem ++ replacement
  | None =>
  match stripSuffix ".webp" s with
  | Some stem => stem ++ replacement
  | None => s
  end end end end.

(** server.js, line 340: the [overviewPath] handed to [encodeToFit]. *)
Definition overviewPathOf (sourceForProcessing : string) (prefer_format : Format) : string :=
  replaceImageExtension sourceForProcessing ("_overview." ++ formatName prefer_format).

(** The file the overview is written to: [overviewPath] as [encodeToFit]
    completes it. *)
Definition overviewFileOf (sourceForProcessing : string) (prefer_format : Format) : string :=
  finalOutputPathOf (overviewPathOf sourceForProcessing prefer_format) prefer_format.

(* ===================================================================== *)
(** ** A concrete platform, for running the code *)
(* ===================================================================== *)

(** [sharp] as its documentation describes it: [metadata()] reads the header
    of the input image and takes no account of the operations queued on the
    pipeline; [toFile] extracts, then resizes, then encodes.  The size of the
    encoding is given by [encodedSize width height quality]; pipelines for
    which [rejects] holds make [toFile] throw. *)
Module Demo.

Definition writeFile (path : string) (f : File) (fs : FS) : FS :=
  {| files := fun p => if String.eqb p path then Some f else files fs p;
     dirs := dirs fs |}.

Definition metadata (p : Pipeline) (fs : FS) : outcome Metadata :=
  match files fs (p_input p) with
  | Some f => Ok {| m_width := Some (f_width f); m_height := Some (f_height f) |}
  | None => Throw "Input file is missing"%string
  end.

(** Pixel dimensions of what the pipeline writes. *)
Definition outputSize (p : Pipeline) (input : File) : Z * Z :=
  match p_resize p with
  | Some wh => wh
  | None =>
      match p_extract p with
      | Some r => (r_width r, r_height r)
      | None => (f_width input, f_height input)
      end
  end.

Definition qualityOf (p : Pipeline) : Z :=
  match p_output p with
  | Some (_, q) => q
  | None => 80
  end.

Definition toFile (encodedSize : Z -> Z -> Z -> Z) (rejects : Pipeline -> bool)
    (p : Pipeline) (path : string) (fs : FS) : outcome unit * FS :=
  match files fs (p_input p) with
  | None => (Throw "Input file is missing"%string, fs)
  | Some input =>
      let (w, h) := outputSize p input in
      if rejects p then (Throw "Unsupported image"%string, fs)
      else if (w <=? 0) || (h <=? 0)
      then (Throw "Expected positive integer for width or height"%string, fs)
      else (Ok tt,
            writeFile path
              {| f_size := encodedSize w h (qualityOf p); f_width := w; f_height := h |}
              fs)
  end.

Definition mkdir (dir : string) (fs : FS) : outcome unit * FS :=
  (Ok tt,
   {| files := files fs;
      dirs := fun d => if String.eqb d dir then true else dirs fs d |}).

(** The part of [s] before its last slash, if it has one. *)
Fixpoint beforeLastSlash (s : string) : option string :=
  match s with
  | EmptyString => None
  | String c s' =>
      match beforeLastSlash s' with
      | Some d => Some (String c d)
      | None => if Ascii.eqb c "/" then Some EmptyString else None
      end
  end.

Definition dirname (path : string) : string :=
  match beforeLastSlash path with
  | Some d => d
  | None => "."
  end.

Definition join (dir file : string) : string := dir ++ "/" ++ file.

Definition platform (encodedSize : Z -> Z -> Z -> Z) (rejects : Pipeline -> bool)
  : Platform :=
  {| sharp_metadata := metadata;
     sharp_toFile := toFile encodedSize rejects;
     fs_mkdir := mkdir;
     path_dirname := dirname;
     path_join := join |}.

(** A disk holding one image, [source.png], of the given dimensions. *)
Definition disk (width height : Z) : FS :=
  {| files := fun p =>
       if String.eqb p "source.png"
       then Some {| f_size := width * height * 4; f_width := width; f_height := height |}
       else None;
     dirs := fun _ => false |}.

(** An encoder whose output shrinks with the quality and the pixel count. *)
Definition bytesPerQuality (w h quality : Z) : Z := w * h * quality / 400.

(** An encoder whose output is larger at quality 20 than at quality 25. *)
Definition bumpyBytes (w h quality : Z) : Z :=
  if quality =? 20 then 1000 else 900.

Definition acceptsAll (p : Pipeline) : bool := false.

(** Pipelines that extract a region less than [h] pixels high fail. *)
Definition rejectsLowerThan (h : Z) (p : Pipeline) : bool :=
  match p_extract p with
  | Some r => r_height r <? h
  | None => false
  end.

(** Every pipeline fails. *)
Definition rejectsAll (p : Pipeline) : bool := true.

End Demo.

(* ===================================================================== *)
(** ** Reading a run *)
(* ===================================================================== *)

Definition outcomeOf {A} (run : outcome A * FS * list Event) : outcome A := fst (fst run).
Definition fsOf {A} (run : outcome A * FS * list Event) : FS := snd (fst run).
Definition traceOf {A} (run : outcome A * FS * list Event) : list Event := snd run.

Definition isThrow {A} (r : outcome A) : bool :=
  match r with
  | Ok _ => false
  | Throw _ => true
  end.

(** The encode attempts of a trace, in the order they were made. *)
Fixpoint attemptsOf (t : list Event) : list Attempt :=
  match t with
  | [] => []
  | EvAttempt a :: t' => a :: attemptsOf t'
  | EvWarn _ :: t' => attemptsOf t'
  end.

(** The warnings of a trace. *)
Fixpoint warningsOf (t : list Event) : list string :=
  match t with
  | [] => []
  | EvAttempt _ :: t' => warningsOf t'
  | EvWarn msg :: t' => msg :: warningsOf t'
  end.

(** The result of the last attempt that did not throw, [init] if none. *)
Fixpoint lastSuccessFrom (init : option EncodedImage) (attempts : list Attempt)
  : option EncodedImage :=
  match attempts with
  | [] => init
  | a :: rest =>
      match a_result a with
      | Ok img => lastSuccessFrom (Some img) rest
      | Throw _ => lastSuccessFrom init rest
      end
  end.

Definition lastSuccess (attempts : list Attempt) : option EncodedImage :=
  lastSuccessFrom None attempts.

(** An attempt that produced a file within the byte budget. *)
Definition fits (maxBytes : Z) (a : Attempt) : bool :=
  match a_result a with
  | Ok img => e_bytes img <=? maxBytes
  | Throw _ => false
  end.

(** The rectangle recorded in a tile. *)
Definition tileRect (t : Tile) : Region :=
  {| r_left := t_x t; r_top := t_y t; r_width := t_w t; r_height := t_h t |}.

(** The grid in row-major order. *)
Definition gridCells (rows cols : Z) : list (Z * Z) :=
  flat_map (fun row => map (fun col => (row, col)) (upto cols)) (upto rows).

(** Every attempt within the budget is the last attempt. *)
Fixpoint stopsAtFit (maxBytes : Z) (attempts : list Attempt) : Prop :=
  match attempts with
  | [] => True
  | a :: rest => (fits maxBytes a = true -> rest = []) /\ stopsAtFit maxBytes rest
  end.

(** The scales of the attempts never rise, starting at most at [s0]. *)
Fixpoint descending (s0 : Q) (attempts : list Attempt) : Prop :=
  match attempts with
  | [] => True
  | a :: rest => (a_scale a <= s0)%Q /\ descending (a_scale a) rest
  end.

(** A computation that emits no event. *)
Definition silent {A} (m : M A) : Prop := forall fs, traceOf (m fs) = [].

(* ===================================================================== *)
(** ** The vocabulary of the statements *)
(* ===================================================================== *)

(** What a run of a loop of the search amounts to: its trace is the list
    [l] of attempts, and it hands on the last success. *)
Definition yields (maxBytes : Z) (run : outcome (option EncodedImage) * FS * list Event)
    (best : option EncodedImage) (l : list Attempt) : Prop :=
  traceOf run = map EvAttempt l /\
  outcomeOf run = Ok (lastSuccessFrom best l) /\
  stopsAtFit maxBytes l.

(** The message of the error thrown when no attempt succeeded. *)
Definition failedToEncode (maxBytes : Z) : Error :=
  ("Failed to encode image to meet size constraint of "
   ++ show_Z maxBytes ++ " bytes")%string.

(** Where the numbers of an artifact come from: [width] and [height] are
    what [metadata()] answered for the pipeline [p] before [p] was written
    to the path; [bytes] is the size of the file found at the path once
    [toFile] returned. *)
Definition measuredArtifact (P : Platform) (img : EncodedImage) : Prop :=
  exists p fs1 fs2 info f,
    sharp_metadata P p fs1 = Ok info /\
    e_width img = or0 (m_width info) /\
    e_height img = or0 (m_height info) /\
    sharp_toFile P p (e_path img) fs1 = (Ok tt, fs2) /\
    files fs2 (e_path img) = Some f /\
    e_bytes img = f_size f.

(** What an attempt that succeeds reports. *)
Definition reports (P : Platform) (path : string) (format : Format) (s : Q)
    (img : EncodedImage) : Prop :=
  e_scaleFactor img = s /\ e_path img = path /\ e_format img = format /\
  measuredArtifact P img.

(** What every successful attempt of [encodeToFit] has in common. *)
Definition producedBy (P : Platform) (outputPath : string) (options : EncodeOptions)
    (a : Attempt) : Prop :=
  forall img, a_result a = Ok img ->
    reports P (finalOutputPathOf outputPath (preferFormat options)) (preferFormat options)
      (a_scale a) img.

(** A run of [encodeToFit] with the attempts [l]: they are all its trace
    holds; the call returns the last artifact produced and throws when there
    is none; an attempt within the budget ends the search. *)
Definition summarised (maxBytes : Z) (run : outcome EncodedImage * FS * list Event)
    (l : list Attempt) : Prop :=
  traceOf run = map EvAttempt l /\
  match lastSuccess l with
  | Some img => outcomeOf run = Ok img
  | None => isThrow (outcomeOf run) = true
  end /\
  stopsAtFit maxBytes l.

(** The scales of the attempts [l], when the image measures [W] by [H]:
    the first is the initial scale and none is above the one before. *)
Definition scaledFrom (maxLongEdge W H : Z) (l : list Attempt) : Prop :=
  let s0 := initialScale maxLongEdge W H in
  descending s0 l /\ exists a rest, l = a :: rest /\ a_scale a = s0.

(** The dimensions [encodeToFit] reads before it starts the search. *)
Definition measured (P : Platform) (inputPath outputPath : string)
    (region : option Region) (fs : FS) : outcome Metadata :=
  match ensureDir P (path_dirname P outputPath) fs with
  | (Ok _, fs0, _) => sharp_metadata P (source inputPath region) fs0
  | (Throw e, _, _) => Throw e
  end.

(** The call throws exactly when every attempt threw; if an attempt
    produced a file, an artifact is returned. *)
Definition raisesIffAllThrew (run : outcome EncodedImage * FS * list Event) : Prop :=
  let attempts := attemptsOf (traceOf run) in
  (isThrow (outcomeOf run) = true <->
   Forall (fun a => isThrow (a_result a) = true) attempts) /\
  (forall a img, In a attempts -> a_result a = Ok img ->
     exists best, outcomeOf run = Ok best /\ lastSuccess attempts = Some best).

(** The scale over one call. *)
Definition scaleNeverRises (maxLongEdge : Z) (measured : outcome Metadata)
    (run : outcome EncodedImage * FS * list Event) : Prop :=
  let attempts := attemptsOf (traceOf run) in
  (* a later attempt never uses a larger scale than an earlier one *)
  (forall i j a b, (i <= j)%nat ->
     nth_error attempts i = Some a -> nth_error attempts j = Some b ->
     (a_scale b <= a_scale a)%Q) /\
  (* the first attempt uses the initial scale, the others at most that *)
  (forall a, In a attempts ->
     exists md, measured = Ok md /\
       let s0 := initialScale maxLongEdge (or0 (m_width md)) (or0 (m_height md)) in
       (a_scale a <= s0)%Q /\ (hd_error attempts = Some a -> a_scale a = s0)) /\
  (* an artifact carries the scale of the attempt that produced it *)
  (forall a img, In a attempts -> a_result a = Ok img -> e_scaleFactor img = a_scale a) /\
  (* so does the artifact returned *)
  (forall best, outcomeOf run = Ok best ->
     exists md a, measured = Ok md /\ In a attempts /\ a_result a = Ok best /\
       e_scaleFactor best = a_scale a /\
       (e_scaleFactor best
        <= initialScale maxLongEdge (or0 (m_width md)) (or0 (m_height md)))%Q).

(** The claim of C2 as the specification words it: the artifact returned is
    no larger than the artifact of any attempt of the call. *)
Definition returnsSmallest (run : outcome EncodedImage * FS * list Event) : Prop :=
  forall best, outcomeOf run = Ok best ->
    forall a img, In a (attemptsOf (traceOf run)) -> a_result a = Ok img ->
      e_bytes best <= e_bytes img.

(** [returnsSmallest], decided. *)
Definition returnsSmallestb (run : outcome EncodedImage * FS * list Event) : bool :=
  match outcomeOf run with
  | Ok best =>
      forallb (fun a => match a_result a with
                        | Ok img => e_bytes best <=? e_bytes img
                        | Throw _ => true
                        end) (attemptsOf (traceOf run))
  | Throw _ => true
  end.

Definition inBounds (W H : Z) (r : Region) : Prop :=
  0 <= r_left r /\ r_left r + r_width r <= W /\
  0 <= r_top r /\ r_top r + r_height r <= H.

(** The regions of the grid, row by row. *)
Definition gridRegions (W H tilePx overlapPx : Z) : list Region :=
  flat_map (fun row =>
    flat_map (fun col => [tileRegion W H tilePx overlapPx row col])
      (upto (colsOf W tilePx overlapPx)))
    (upto (rowsOf H tilePx overlapPx)).

(** How a row of the heuristic table is gated. *)
Inductive Gate : Type :=
| BySize                (* rows 1-5 *)
| BySizeIfLandscape     (* bottom_right *)
| IfLandscapeAndWide    (* left_edge, right_edge *)
.

(** A row of the table: the region, its size in the constraining dimension
    and its gate. *)
Record Candidate : Type := mkCandidate {
  cand_region : CropRegion;
  cand_size : Z;
  cand_gate : Gate
}.

(** The heuristic table for an image of [width] by [height], in the order
    of the code and of the specification; sizes are rounded as the code
    rounds them. *)
Definition cropTable (width height minSize : Z) : list Candidate :=
  let headerHeight := Z.min (js_round (inject_Z height * (2 # 10))) minSize in
  let cornerSize := Z.min minSize (js_round (inject_Z width * (4 # 10))) in
  let centerSize := Z.min minSize (js_round (inject_Z (Z.min width height) * (6 # 10))) in
  let footerHeight := Z.min (js_round (inject_Z height * (25 # 100))) minSize in
  let sideSize := Z.min minSize (js_round (inject_Z width * (3 # 10))) in
  [ {| cand_region := {| cr_name := "header"; cr_x := 0; cr_y := 0;
                         cr_w := width; cr_h := headerHeight |};
       cand_size := headerHeight; cand_gate := BySize |};
    {| cand_region := {| cr_name := "top_left"; cr_x := 0; cr_y := 0;
                         cr_w := cornerSize; cr_h := cornerSize |};
       cand_size := cornerSize; cand_gate := BySize |};
    {| cand_region := {| cr_name := "top_right"; cr_x := width - cornerSize; cr_y := 0;
                         cr_w := cornerSize; cr_h := cornerSize |};
       cand_size := cornerSize; cand_gate := BySize |};
    {| cand_region := {| cr_name := "center";
                         cr_x := js_round (inject_Z (width - centerSize) / 2);
                         cr_y := js_round (inject_Z (height - centerSize) / 2);
                         cr_w := centerSize; cr_h := centerSize |};
       cand_size := centerSize; cand_gate := BySize |};
    {| cand_region := {| cr_name := "footer"; cr_x := 0; cr_y := height - footerHeight;
                         cr_w := width; cr_h := footerHeight |};
       cand_size := footerHeight; cand_gate := BySize |};
    {| cand_region := {| cr_name := "bottom_right";
                         cr_x := width - sideSize; cr_y := height - sideSize;
                         cr_w := sideSize; cr_h := sideSize |};
       cand_size := sideSize; cand_gate := BySizeIfLandscape |};
    {| cand_region := {| cr_name := "left_edge"; cr_x := 0; cr_y := 0;
                         cr_w := sideSize; cr_h := height |};
       cand_size := sideSize; cand_gate := IfLandscapeAndWide |};
    {| cand_region := {| cr_name := "right_edge"; cr_x := width - sideSize; cr_y := 0;
                         cr_w := sideSize; cr_h := height |};
       cand_size := sideSize; cand_gate := IfLandscapeAndWide |} ].

(** [size >= minSize * 0.5], [width > height], [width >= minSize * 1.5] *)
Definition bigEnough (minSize size : Z) : bool :=
  Qgeb (inject_Z size) (inject_Z minSize * (5 # 10)).
Definition landscape (width height : Z) : bool := height <? width.
Definition wide (width minSize : Z) : bool :=
  Qgeb (inject_Z width) (inject_Z minSize * (15 # 10)).

(** The inclusion rules as the specification states them: every region
    needs a size of at least half [minSize]; bottom_right needs a landscape
    image besides, the two edges a landscape and wide one. *)
Definition includedAsStated (width height minSize : Z) (c : Candidate) : bool :=
  bigEnough minSize (cand_size c) &&
  match cand_gate c with
  | BySize => true
  | BySizeIfLandscape => landscape width height
  | IfLandscapeAndWide => landscape width height && wide width minSize
  end.

(** The inclusion rules of the code: the two edges are gated by the shape of
    the image alone. *)
Definition included (width height minSize : Z) (c : Candidate) : bool :=
  match cand_gate c with
  | BySize => bigEnough minSize (cand_size c)
  | BySizeIfLandscape => bigEnough minSize (cand_size c) && landscape width height
  | IfLandscapeAndWide => landscape width height && wide width minSize
  end.

(** The path a crop gets when it is the [k]-th to be encoded. *)
Definition cropPathAt (P : Platform) (outputDir : string) (format : Format)
    (k : nat) (name : string) : string :=
  finalOutputPathOf (path_join P outputDir (cropFileName k name format)) format.

(** The crops collected so far are numbered by their position. *)
Definition numbered (P : Platform) (outputDir : string) (format : Format)
    (crops : list Crop) : Prop :=
  forall k crop, nth_error crops k = Some crop ->
    c_path crop = cropPathAt P outputDir format k (c_name crop).

(* ===================================================================== *)
(** ** Scenarios *)
(* ===================================================================== *)

Module Scenario.

(** The 3840 x 2160 image of the README, and the default options. *)
Definition disk : FS := Demo.disk 3840 2160.

Definition steady : Platform := Demo.platform Demo.bytesPerQuality Demo.acceptsAll.
Definition bumpy : Platform := Demo.platform Demo.bumpyBytes Demo.acceptsAll.
Definition picky (h : Z) : Platform :=
  Demo.platform Demo.bytesPerQuality (Demo.rejectsLowerThan h).
Definition broken : Platform := Demo.platform Demo.bytesPerQuality Demo.rejectsAll.

Definition budget (maxBytes : Z) : EncodeOptions :=
  {| maxBytes := maxBytes; maxLongEdge := 4096; preferFormat := webp |}.

(** An overview no attempt of which comes under 100 bytes. *)
Definition overBudget : outcome EncodedImage * FS * list Event :=
  encodeToFit bumpy "source.png" "out/source_overview.webp" (budget 100) None disk.

(** An overview that fits at quality 70. *)
Definition fitsAt70 : outcome EncodedImage * FS * list Event :=
  encodeToFit steady "source.png" "out/source_overview.webp" (budget 1500000) None disk.

(** The same against a long edge of 1536, so that the search starts at the
    scale 1536/3840 = 0.4. *)
Definition overBudgetScaled : outcome EncodedImage * FS * list Event :=
  encodeToFit bumpy "source.png" "out/source_overview.webp"
    {| maxBytes := 100; maxLongEdge := 1536; preferFormat := webp |} None disk.

(** An overview on a platform where every encode throws. *)
Definition neverEncodes : outcome EncodedImage * FS * list Event :=
  encodeToFit broken "source.png" "out/source_overview.webp" (budget 4000000) None disk.

End Scenario.

Module TileScenario.

(** The defaults of the server: tiles of 1536 pixels overlapping by 96. *)
Definition defaults : TilingOptions :=
  {| tilePx := 1536; overlapPx := 96; to_maxBytes := 4000000;
     to_maxLongEdge := 4096; to_preferFormat := webp |}.

(** The tiles of the 3840 x 2160 image of the README. *)
Definition readme : outcome (list Tile) * FS * list Event :=
  generateTiles Scenario.steady (encodeToFit Scenario.steady)
    "source.png" "out/tiles" defaults Scenario.disk.

(** The tiles of a 64 x 64 image, narrower than the overlap. *)
Definition icon : outcome (list Tile) * FS * list Event :=
  generateTiles Scenario.steady (encodeToFit Scenario.steady)
    "source.png" "out/tiles" defaults (Demo.disk 64 64).

Definition rectsOf (run : outcome (list Tile) * FS * list Event) : list Region :=
  match outcomeOf run with
  | Ok tiles => map tileRect tiles
  | Throw _ => []
  end.

End TileScenario.

Module CropScenario.

(** The options the server passes to the cropper. *)
Definition defaults : CropOptions :=
  {| co_maxBytes := 4000000; co_maxLongEdge := 4096;
     co_preferFormat := webp; minCropSize := 768 |}.

(** A platform on which regions less than 1000 pixels high cannot be
    encoded: of the tiles those of the second row, of the crops all but
    the two edges. *)
Definition strict : Platform := Scenario.picky 1000.

Definition tiles : outcome (list Tile) * FS * list Event :=
  generateTiles strict (encodeToFit strict) "source.png" "out" TileScenario.defaults Scenario.disk.

Definition crops : outcome (list Crop) * FS * list Event :=
  generateCrops strict (encodeToFit strict) "source.png" "out" defaults Scenario.disk.

(** A platform on which header and footer cannot be encoded. *)
Definition lenient : Platform := Scenario.picky 600.

Definition sixCrops : outcome (list Crop) * FS * list Event :=
  generateCrops lenient (encodeToFit lenient) "source.png" "out/crops" defaults Scenario.disk.

Definition pathsOf (run : outcome (list Crop) * FS * list Event) : list string :=
  match outcomeOf run with
  | Ok crops => map c_path crops
  | Throw _ => []
  end.

End CropScenario.

Module ReportScenario.

(** The encode of the tile at row 1, column 0 of the README image. *)
Definition tile_1_0 : outcome EncodedImage * FS * list Event :=
  encodeToFit Scenario.steady "source.png" "out/tiles/tile_1_0.webp"
    {| maxBytes := 4000000; maxLongEdge := 1536; preferFormat := webp |}
    (Some {| r_left := 0; r_top := 624; r_width := 1536; r_height := 720 |})
    Scenario.disk.

End ReportScenario.

(* ===================================================================== *)
(** ** The vocabulary of the further properties *)
(* ===================================================================== *)

(** *** The search of [encodeToFit] *)

(** The parameters of an attempt. *)
Definition paramsOf (a : Attempt) : Q * Z := (a_scale a, a_quality a).

(** The values [scaleFactor] takes in the scale phase. *)
Fixpoint scaleLadder (scaleFactor : Q) (candidates : list Q) : list Q :=
  match candidates with
  | [] => []
  | newScaleFactor :: candidates' =>
      let scaleFactor := Qmin scaleFactor newScaleFactor in
      scaleFactor :: scaleLadder scaleFactor candidates'
  end.

(** All quality levels at one scale. *)
Definition rung (scaleFactor : Q) : list (Q * Z) := map (pair scaleFactor) qualityLevels.

(** Every pair of parameters the two phases can come to, in order. *)
Definition schedule (s0 : Q) : list (Q * Z) :=
  rung s0 ++ flat_map rung (scaleLadder s0 scaleFactors).

(** [l] is [m] with some elements left out. *)
Inductive Subseq {A : Type} : list A -> list A -> Prop :=
| Subseq_nil : Subseq [] []
| Subseq_keep x l m : Subseq l m -> Subseq (x :: l) (x :: m)
| Subseq_skip x l m : Subseq l m -> Subseq l (x :: m).

(** At the scale [s] an attempt of [l] ended the run down the quality
    levels: it threw, or it was made at the lowest level. *)
Definition exhausted (l : list Attempt) (s : Q) : Prop :=
  exists a, In a l /\ a_scale a = s /\
            (isThrow (a_result a) = true \/ a_quality a = last qualityLevels 0).

(** The record of a call of [encodeToFit] whose search starts at the scale
    [s0]: the list [l] of its attempts. *)
Definition logged (maxBytes : Z) (s0 : Q) (run : outcome EncodedImage * FS * list Event)
    (l : list Attempt) : Prop :=
  traceOf run = map EvAttempt l /\
  outcomeOf run = match lastSuccess l with
                  | Some img => Ok img
                  | None => Throw (failedToEncode maxBytes)
                  end /\
  stopsAtFit maxBytes l /\
  Subseq (map paramsOf l) (schedule s0) /\
  (exists a rest, l = a :: rest /\ paramsOf a = (s0, 95)) /\
  Forall (fun a => forall img, a_result a = Ok img -> e_quality img = a_quality a) l /\
  (stillTooBig maxBytes (lastSuccess l) = true ->
   Forall (exhausted l) (s0 :: scaleLadder s0 scaleFactors)).


(** A run gives up on the budget (it throws, or returns an artifact above
    [maxBytes]) only with every scale of the ladder exhausted. *)
Definition givesUpLast (maxBytes maxLongEdge : Z) (md : Metadata)
    (run : outcome EncodedImage * FS * list Event) : Prop :=
  let s0 := initialScale maxLongEdge (or0 (m_width md)) (or0 (m_height md)) in
  match outcomeOf run with
  | Ok best => e_bytes best <= maxBytes
  | Throw _ => False
  end \/
  Forall (exhausted (attemptsOf (traceOf run))) (s0 :: scaleLadder s0 scaleFactors).

(** The first attempt of a run is made at the initial scale and at quality
    95; when its file is within the budget it is the only attempt and the
    artifact returned. *)
Definition startsAtBest (maxBytes maxLongEdge : Z) (md : Metadata)
    (run : outcome EncodedImage * FS * list Event) : Prop :=
  let s0 := initialScale maxLongEdge (or0 (m_width md)) (or0 (m_height md)) in
  exists a rest,
    attemptsOf (traceOf run) = a :: rest /\
    a_scale a = s0 /\ a_quality a = 95 /\
    (fits maxBytes a = true -> rest = [] /\ outcomeOf run = a_result a).

(** What every artifact returned carries. *)
Definition wellFormedArtifact (outputPath : string) (options : EncodeOptions)
    (best : EncodedImage) : Prop :=
  e_path best = finalOutputPathOf outputPath (preferFormat options) /\
  endsWith (e_path best) ("." ++ extensionOf (preferFormat options)) = true /\
  e_format best = preferFormat options /\
  In (e_quality best) qualityLevels.

(** What the pipeline [p] is resized to, or the dimensions [W] by [H] read
    from the image when it is not resized, is within [maxLongEdge]. *)
Definition targetWithin (maxLongEdge W H : Z) (p : Pipeline) : Prop :=
  match p_resize p with
  | Some (w, h) => w <= maxLongEdge /\ h <= maxLongEdge
  | None => W <= maxLongEdge /\ H <= maxLongEdge
  end.

(** The artifact [best] was written by a pipeline on the input, for the
    region, in the format asked for and at the quality the artifact
    reports, with a target within [maxLongEdge]. *)
Definition writtenWithin (P : Platform) (inputPath : string) (region : option Region)
    (options : EncodeOptions) (W H : Z) (best : EncodedImage) : Prop :=
  exists p fs1 fs2,
    sharp_toFile P p (e_path best) fs1 = (Ok tt, fs2) /\
    p_input p = inputPath /\ p_extract p = region /\
    p_output p = Some (preferFormat options, e_quality best) /\
    targetWithin (maxLongEdge options) W H p.

(** *** Tiles *)

(** The path of the tile of a cell, as the encoder completes it. *)
Definition tilePathAt (P : Platform) (outputDir : string) (format : Format)
    (cell : Z * Z) : string :=
  finalOutputPathOf (path_join P outputDir (tileFileName (fst cell) (snd cell) format))
    format.

(** Two spans [[a, a + la)] and [[b, b + lb)] of an axis, the second
    starting later, share at least [n] pixels. *)
Definition overlapsBy (n a la b lb : Z) : Prop :=
  a < b /\ b + n <= a + la /\ b + n <= b + lb.

(** The width of the strip at the far end of an axis of length [len] that
    no tile reaches. *)
Definition uncovered (len tilePx overlapPx : Z) : Z :=
  let stride := strideOf tilePx overlapPx in
  let n := ceil_div (len - overlapPx) stride in
  let d := len - overlapPx - (n - 1) * stride in
  if n <=? 1 then 0 else Z.min d (stride - d).

(** The pixel [(x, y)] lies in the region [r]. *)
Definition contains (r : Region) (x y : Z) : Prop :=
  r_left r <= x < r_left r + r_width r /\ r_top r <= y < r_top r + r_height r.

(** *** Crops *)

(** The rectangle of a crop region, as [generateCrops] hands it to the
    encoder. *)
Definition cropRect (r : CropRegion) : Region :=
  {| r_left := cr_x r; r_top := cr_y r; r_width := cr_w r; r_height := cr_h r |}.

(** The region a crop was cut from, as the crop records it. *)
Definition regionOfCrop (c : Crop) : CropRegion :=
  {| cr_name := c_name c; cr_x := c_x c; cr_y := c_y c; cr_w := c_w c; cr_h := c_h c |}.

(** The characters [sanitizeName] lets through, and the underscore it
    puts in for the others. *)
Definition fileNameChar (c : ascii) : bool :=
  is_lower_or_digit c || Ascii.eqb c "_".

Fixpoint allChars (p : ascii -> bool) (s : string) : bool :=
  match s with
  | EmptyString => true
  | String c s' => p c && allChars p s'
  end.

(** No two underscores in a row. *)
Fixpoint noUnderscoreRun (s : string) : bool :=
  match s with
  | String c1 ((String c2 _) as s') =>
      negb (Ascii.eqb c1 "_" && Ascii.eqb c2 "_") && noUnderscoreRun s'
  | _ => true
  end.

(** *** The overview *)

(** What the name of the overview file adds to the stem of the source. *)
Definition overviewSuffix (prefer_format : Format) : string :=
  match prefer_format with
  | webp => "_overview.webp"
  | jpeg => "_overview.jpeg.jpg"
  end.

(** *** Further scenarios *)

Module EdgeScenario.

(** Tiling options with the overlap above the tile size; the input schema
    of the server accepts them. *)
Definition reversed : TilingOptions :=
  {| tilePx := 96; overlapPx := 1536; to_maxBytes := 4000000;
     to_maxLongEdge := 4096; to_preferFormat := webp |}.

Definition noTiles : outcome (list Tile) * FS * list Event :=
  generateTiles Scenario.steady (encodeToFit Scenario.steady)
    "source.png" "out/tiles" reversed Scenario.disk.

(** An image whose header gives a width of 0. *)
Definition flat : FS := Demo.disk 0 2160.

(** The header of the README image. *)
Definition header : Metadata := {| m_width := Some 3840; m_height := Some 2160 |}.

End EdgeScenario.

(* ===================================================================== *)
(** * Properties *)
(* ===================================================================== *)

(** ** The monad *)

Lemma run_eta {A} (run : outcome A * FS * list Event) :
  run = (outcomeOf run, fsOf run, traceOf run).
Proof. destruct run as [[r fs] t]; reflexivity. Qed.

Lemma bind_ok {A B} (m : M A) (k : A -> M B) fs a fs1 t1 :
  m fs = (Ok a, fs1, t1) ->
  bind m k fs = (outcomeOf (k a fs1), fsOf (k a fs1), t1 ++ traceOf (k a fs1)).
Proof.
  intros Hm. unfold bind. rewrite Hm.
  destruct (k a fs1) as [[r fs2] t2]; reflexivity.
Qed.

Lemma bind_throw {A B} (m : M A) (k : A -> M B) fs e fs1 t1 :
  m fs = (Throw e, fs1, t1) -> bind m k fs = (Throw e, fs1, t1).
Proof. intros Hm. unfold bind. rewrite Hm. reflexivity. Qed.

Lemma bind_inv_ok {A B} (m : M A) (k : A -> M B) fs b fs2 t :
  bind m k fs = (Ok b, fs2, t) ->
  exists a fs1 t1 t2,
    m fs = (Ok a, fs1, t1) /\ k a fs1 = (Ok b, fs2, t2) /\ t = t1 ++ t2.
Proof.
  unfold bind. destruct (m fs) as [[[a | e] fs1] t1]; [| discriminate].
  destruct (k a fs1) as [[r fs2'] t2] eqn:Hk. intros H. inversion H; subst.
  exists a, fs1, t1, t2. auto.
Qed.

Lemma silent_ret {A} (a : A) : silent (ret a).
Proof. intros fs. reflexivity. Qed.

Lemma silent_throw {A} (e : Error) : silent (@throw A e).
Proof. intros fs. reflexivity. Qed.

Lemma silent_reading {A} (f : FS -> outcome A) : silent (reading f).
Proof. intros fs. reflexivity. Qed.

Lemma silent_acting {A} (f : FS -> outcome A * FS) : silent (acting f).
Proof. intros fs. unfold acting. destruct (f fs); reflexivity. Qed.

Lemma silent_bind {A B} (m : M A) (k : A -> M B) :
  silent m -> (forall a, silent (k a)) -> silent (bind m k).
Proof.
  intros Hm Hk fs. specialize (Hm fs). unfold bind.
  destruct (m fs) as [[[a | e] fs1] t1]; cbn in Hm; subst.
  - specialize (Hk a fs1). destruct (k a fs1) as [[r fs2] t2]. cbn in *. assumption.
  - reflexivity.
Qed.

Lemma silent_ensureDir P dir : silent (ensureDir P dir).
Proof.
  intros fs. unfold ensureDir. destruct (existsSync dir fs).
  - reflexivity.
  - apply silent_acting.
Qed.

Lemma silent_if {A} (c : bool) (m1 m2 : M A) :
  silent m1 -> silent m2 -> silent (if c then m1 else m2).
Proof. destruct c; auto. Qed.

Create HintDb silent.

#[local] Hint Resolve silent_ret silent_throw silent_reading silent_acting
  silent_ensureDir : silent.

Ltac silence :=
  repeat first
    [ apply silent_bind; [| intros ?]
    | apply silent_if
    | solve [auto with silent]
    | progress unfold metadata, toFile, statSync_size ].

#[local] Hint Extern 1 (silent (statSync_size _)) => (unfold statSync_size; apply silent_reading) : silent.
#[local] Hint Extern 1 (silent (metadata _ _)) => (unfold metadata; apply silent_reading) : silent.
#[local] Hint Extern 1 (silent (toFile _ _ _)) => (unfold toFile; apply silent_acting) : silent.

Lemma silent_writeAndMeasure P p path format quality s :
  silent (writeAndMeasure P p path format quality s).
Proof. unfold writeAndMeasure. silence. Qed.

Lemma silent_qualityPhaseBody P i o region W H format s q :
  silent (qualityPhaseBody P i o region W H format s q).
Proof. unfold qualityPhaseBody. apply silent_writeAndMeasure. Qed.

Lemma silent_scalePhaseBody P i o region W H format s q :
  silent (scalePhaseBody P i o region W H format s q).
Proof. unfold scalePhaseBody. apply silent_writeAndMeasure. Qed.

Lemma silent_tryEncode P i o s q format maxBytes :
  silent (tryEncode P i o s q format maxBytes).
Proof. unfold tryEncode. silence. Qed.

Lemma silent_readDimensions P i o : silent (readDimensions P i o).
Proof. unfold readDimensions. silence. Qed.

(** ** Lists of attempts *)

Lemma attemptsOf_app t1 t2 : attemptsOf (t1 ++ t2) = attemptsOf t1 ++ attemptsOf t2.
Proof.
  induction t1 as [| [a | msg] t1 IH]; cbn; [reflexivity | f_equal; exact IH | exact IH].
Qed.

Lemma attemptsOf_map (l : list Attempt) : attemptsOf (map EvAttempt l) = l.
Proof. induction l as [| a l IH]; cbn; [reflexivity | f_equal; exact IH]. Qed.

Lemma lastSuccessFrom_app init l1 l2 :
  lastSuccessFrom init (l1 ++ l2) = lastSuccessFrom (lastSuccessFrom init l1) l2.
Proof.
  revert init. induction l1 as [| a l1 IH]; intros init; cbn; [reflexivity |].
  destruct (a_result a); apply IH.
Qed.

(** An attempt within the budget is the last one, so it is the one kept. *)
Lemma stopsAtFit_keeps maxBytes l :
  stopsAtFit maxBytes l ->
  forall init a, In a l -> fits maxBytes a = true ->
    exists img, a_result a = Ok img /\ lastSuccessFrom init l = Some img
                /\ e_bytes img <= maxBytes.
Proof.
  induction l as [| b l IH]; intros Hstop init a Hin Hfit; [destruct Hin |].
  destruct Hstop as [Hb Hrest]. destruct Hin as [-> | Hin].
  - specialize (Hb Hfit). subst l. unfold fits in Hfit. cbn.
    destruct (a_result a) as [img | e]; [| discriminate].
    exists img. repeat split. apply Z.leb_le; exact Hfit.
  - cbn. destruct (a_result b); eapply IH; eauto.
Qed.

Lemma stopsAtFit_app maxBytes l1 l2 :
  stopsAtFit maxBytes l1 -> stopsAtFit maxBytes l2 ->
  ((exists a, In a l1 /\ fits maxBytes a = true) -> l2 = []) ->
  stopsAtFit maxBytes (l1 ++ l2).
Proof.
  induction l1 as [| a l1 IH]; intros H1 H2 Hend; cbn; [exact H2 |].
  destruct H1 as [Ha H1]. split.
  - intros Hfit. rewrite (Ha Hfit). cbn. apply Hend. exists a. split; [left; reflexivity | exact Hfit].
  - apply IH; auto. intros [b [Hb Hfit]]. apply Hend. exists b. split; [right; exact Hb | exact Hfit].
Qed.

(** Every attempt but the last one left the budget unmet. *)
Lemma stopsAtFit_earlier maxBytes l :
  stopsAtFit maxBytes l ->
  forall pre a post img,
    l = pre ++ a :: post -> post <> [] -> a_result a = Ok img -> maxBytes < e_bytes img.
Proof.
  intros Hstop pre. revert l Hstop.
  induction pre as [| b pre IH]; intros l Hstop a post img -> Hpost Hres.
  - destruct Hstop as [Ha _]. unfold fits in Ha. rewrite Hres in Ha.
    destruct (e_bytes img <=? maxBytes) eqn:Hle.
    + exfalso. apply Hpost. apply Ha. reflexivity.
    + apply Z.leb_gt. exact Hle.
  - destruct Hstop as [_ Hrest]. eapply IH; eauto.
Qed.

Lemma lastSuccessFrom_none l :
  lastSuccessFrom None l = None <-> Forall (fun a => isThrow (a_result a) = true) l.
Proof.
  assert (Hsome : forall l img, lastSuccessFrom (Some img) l <> None).
  { clear l. induction l as [| a l IH]; intros img; cbn; [discriminate |].
    destruct (a_result a); apply IH. }
  induction l as [| a l IH]; cbn.
  - split; auto.
  - destruct (a_result a) as [img | e] eqn:Hres.
    + split; intros H.
      * exfalso. eapply Hsome; eauto.
      * inversion H as [| ? ? Ha _]; subst. rewrite Hres in Ha. discriminate.
    + rewrite IH. split; intros H.
      * constructor; [rewrite Hres; reflexivity | exact H].
      * inversion H; assumption.
Qed.

(** The attempt kept is one of the attempts made. *)
Lemma lastSuccessFrom_in init l img :
  lastSuccessFrom init l = Some img ->
  init = Some img \/ exists a, In a l /\ a_result a = Ok img.
Proof.
  revert init. induction l as [| a l IH]; intros init; cbn; [auto |].
  destruct (a_result a) as [img' | e] eqn:Hres; intros H; apply IH in H.
  - destruct H as [H | [b [Hb Hres']]].
    + right. exists a. split; [left; reflexivity |]. congruence.
    + right. exists b. auto.
  - destruct H as [H | [b [Hb Hres']]]; [left; exact H |].
    right. exists b. auto.
Qed.

Lemma descending_le s0 l :
  descending s0 l -> Forall (fun a => (a_scale a <= s0)%Q) l.
Proof.
  revert s0. induction l as [| a l IH]; intros s0 H; constructor.
  - apply H.
  - destruct H as [Ha Hl]. apply IH in Hl.
    eapply Forall_impl; [| exact Hl]. cbn. intros b Hb. eapply Qle_trans; eauto.
Qed.

Lemma descending_weaken s0 s1 l : (s0 <= s1)%Q -> descending s0 l -> descending s1 l.
Proof.
  destruct l as [| a l]; cbn; [auto |]. intros Hle [Ha Hl].
  split; [eapply Qle_trans; eauto | exact Hl].
Qed.

Lemma descending_app s s0 l1 l2 :
  Forall (fun a => a_scale a = s) l1 -> (s <= s0)%Q -> descending s l2 ->
  descending s0 (l1 ++ l2).
Proof.
  intros H1. revert s0. induction H1 as [| a l1 Ha _ IH]; intros s0 Hle H2; cbn.
  - eapply descending_weaken; eauto.
  - rewrite Ha. split; [exact Hle |]. apply IH; [apply Qle_refl | exact H2].
Qed.

(** In a descending list a later attempt has at most the scale of an
    earlier one. *)
Lemma descending_sorted s0 l :
  descending s0 l ->
  forall i j a b, (i <= j)%nat -> nth_error l i = Some a -> nth_error l j = Some b ->
    (a_scale b <= a_scale a)%Q.
Proof.
  revert s0. induction l as [| c l IH]; intros s0 Hd i j a b Hij Hi Hj.
  - destruct i; discriminate.
  - destruct Hd as [Hc Hl]. destruct i as [| i].
    + cbn in Hi. inversion Hi; subst c. destruct j as [| j].
      * cbn in Hj. inversion Hj; subst. apply Qle_refl.
      * cbn in Hj. apply nth_error_In in Hj.
        pose proof (descending_le _ _ Hl) as Hall.
        rewrite Forall_forall in Hall. apply Hall. exact Hj.
    + destruct j as [| j]; [exfalso; exfalso; lia |]. cbn in Hi, Hj.
      apply (IH _ Hl i j a b); [lia | exact Hi | exact Hj].
Qed.

(** ** The search loops *)

Section SearchFacts.

Variable maxBytes : Z.

Lemma tryAttempt_run s q (body : M EncodedImage) fs :
  silent body ->
  tryAttempt s q body fs =
    (Ok (outcomeOf (body fs)), fsOf (body fs),
     [EvAttempt {| a_scale := s; a_quality := q; a_result := outcomeOf (body fs) |}]).
Proof.
  intros Hs. specialize (Hs fs). unfold tryAttempt, bind, try_, emit, ret.
  destruct (body fs) as [[r fs1] t1]. cbn in Hs. subst t1. reflexivity.
Qed.

Lemma qualityLoop_spec (body : Z -> M EncodedImage) s :
  (forall q, silent (body q)) ->
  forall levels best fs,
  exists l,
    yields maxBytes (qualityLoop maxBytes body s levels best fs) best l /\
    Forall (fun a => a_scale a = s /\
                     exists q fs1, a_result a = outcomeOf (body q fs1)) l /\
    (levels <> [] -> l <> []).
Proof.
  intros Hs. induction levels as [| q levels IH]; intros best fs.
  - exists []. repeat split; auto.
  - cbn [qualityLoop].
    rewrite (bind_ok _ _ _ _ _ _ (tryAttempt_run s q (body q) fs (Hs q))).
    assert (Hbody : exists q' fs1, outcomeOf (body q fs) = outcomeOf (body q' fs1))
      by (exists q, fs; reflexivity).
    destruct (outcomeOf (body q fs)) as [img | e].
    + destruct (e_bytes img <=? maxBytes) eqn:Hfit.
      * exists [ {| a_scale := s; a_quality := q; a_result := Ok img |} ].
        unfold yields, fits. cbn. rewrite Hfit.
        repeat split; auto; discriminate.
      * destruct (IH (Some img) (fsOf (body q fs))) as [l [[Ht [Ho Hstop]] [Hall _]]].
        exists ({| a_scale := s; a_quality := q; a_result := Ok img |} :: l).
        unfold yields, fits. cbn. rewrite Ht, Ho, Hfit.
        repeat split; auto; discriminate.
    + exists [ {| a_scale := s; a_quality := q; a_result := Throw e |} ].
      unfold yields, fits. cbn.
      repeat split; auto; discriminate.
Qed.

Lemma withinBudget_fits l best :
  stopsAtFit maxBytes l ->
  (exists a, In a l /\ fits maxBytes a = true) ->
  withinBudget maxBytes (lastSuccessFrom best l) = true /\
  stillTooBig maxBytes (lastSuccessFrom best l) = false.
Proof.
  intros Hstop [a [Hin Hfit]].
  destruct (stopsAtFit_keeps _ _ Hstop best a Hin Hfit) as [img [_ [Hlast Hle]]].
  rewrite Hlast. cbn. split; [apply Z.leb_le | apply Z.ltb_ge]; exact Hle.
Qed.

Lemma scaleLoop_spec (body : Q -> Z -> M EncodedImage) :
  (forall s q, silent (body s q)) ->
  forall candidates s best fs,
  exists l,
    yields maxBytes (scaleLoop maxBytes body candidates s best fs) best l /\
    descending s l /\
    Forall (fun a => exists q fs1, a_result a = outcomeOf (body (a_scale a) q fs1)) l.
Proof.
  intros Hs. induction candidates as [| c candidates IH]; intros s best fs.
  - exists []. repeat split; auto.
  - cbn [scaleLoop].
    destruct (qualityLoop_spec (body (Qmin s c)) (Qmin s c) (Hs (Qmin s c))
                qualityLevels best fs) as [l1 [[Ht1 [Ho1 Hstop1]] [Hall1 _]]].
    destruct (qualityLoop maxBytes (body (Qmin s c)) (Qmin s c) qualityLevels best fs)
      as [[r1 fs1] t1] eqn:Hrun1.
    cbn in Ht1, Ho1. subst r1 t1.
    rewrite (bind_ok _ _ _ _ _ _ Hrun1).
    assert (Hscales : Forall (fun a => a_scale a = Qmin s c) l1).
    { eapply Forall_impl; [| exact Hall1]. cbn. intros a [H _]. exact H. }
    assert (Hbodies :
      Forall (fun a => exists q fs1, a_result a = outcomeOf (body (a_scale a) q fs1)) l1).
    { eapply Forall_impl; [| exact Hall1]. cbn. intros a [-> H]. exact H. }
    destruct (withinBudget maxBytes (lastSuccessFrom best l1)) eqn:Hwithin.
    + exists l1. unfold yields. cbn. rewrite app_nil_r.
      repeat split; auto.
      rewrite <- (app_nil_r l1).
      apply (descending_app (Qmin s c) s l1 []); cbn; auto. apply Q.le_min_l.
    + destruct (IH (Qmin s c) (lastSuccessFrom best l1) fs1)
        as [l2 [[Ht2 [Ho2 Hstop2]] [Hdesc2 Hall2]]].
      exists (l1 ++ l2). unfold yields. cbn.
      rewrite Ht2, Ho2, map_app, lastSuccessFrom_app.
      repeat split; auto.
      * apply stopsAtFit_app; auto. intros Hex.
        destruct (withinBudget_fits l1 best Hstop1 Hex) as [Hw _]. congruence.
      * apply (descending_app (Qmin s c) s l1 l2); auto. apply Q.le_min_l.
      * apply Forall_app. split; assumption.
Qed.

(** The whole search: the attempts made are [l]; the artifact returned is
    the last one produced; an attempt within the budget ends the search;
    the scale starts at [s0] and never rises. *)
Lemma searchToFit_spec (qualityBody scaleBody : Q -> Z -> M EncodedImage) s0 :
  (forall s q, silent (qualityBody s q)) ->
  (forall s q, silent (scaleBody s q)) ->
  forall fs,
  exists l,
    let run := searchToFit maxBytes qualityBody scaleBody s0 fs in
    traceOf run = map EvAttempt l /\
    outcomeOf run = match lastSuccess l with
                    | Some img => Ok img
                    | None => Throw (failedToEncode maxBytes)
                    end /\
    stopsAtFit maxBytes l /\
    descending s0 l /\
    (exists a rest, l = a :: rest /\ a_scale a = s0) /\
    Forall (fun a => exists q fs1,
              a_result a = outcomeOf (qualityBody (a_scale a) q fs1) \/
              a_result a = outcomeOf (scaleBody (a_scale a) q fs1)) l.
Proof.
  intros Hq Hs fs. unfold searchToFit.
  destruct (qualityLoop_spec (qualityBody s0) s0 (Hq s0) qualityLevels None fs)
    as [l1 [[Ht1 [Ho1 Hstop1]] [Hall1 Hne1]]].
  destruct (qualityLoop maxBytes (qualityBody s0) s0 qualityLevels None fs)
    as [[r1 fs1] t1] eqn:Hrun1.
  cbn in Ht1, Ho1. subst r1 t1.
  rewrite (bind_ok _ _ _ _ _ _ Hrun1).
  assert (Hscales : Forall (fun a => a_scale a = s0) l1).
  { eapply Forall_impl; [| exact Hall1]. cbn. intros a [H _]. exact H. }
  assert (Hbodies : Forall (fun a => exists q fs1,
              a_result a = outcomeOf (qualityBody (a_scale a) q fs1) \/
              a_result a = outcomeOf (scaleBody (a_scale a) q fs1)) l1).
  { eapply Forall_impl; [| exact Hall1]. cbn. intros a [-> [q [fs' H]]].
    exists q, fs'. left. exact H. }
  assert (Hhead : forall l2, exists a rest, l1 ++ l2 = a :: rest /\ a_scale a = s0).
  { intros l2. destruct l1 as [| a l1]; [exfalso; apply Hne1; [discriminate | reflexivity] |].
    exists a, (l1 ++ l2). split; [reflexivity |]. inversion Hscales; assumption. }
  destruct (stillTooBig maxBytes (lastSuccessFrom None l1)) eqn:Hbig.
  - destruct (scaleLoop_spec scaleBody Hs scaleFactors s0 (lastSuccessFrom None l1) fs1)
      as [l2 [[Ht2 [Ho2 Hstop2]] [Hdesc2 Hall2]]].
    destruct (scaleLoop maxBytes scaleBody scaleFactors s0 (lastSuccessFrom None l1) fs1)
      as [[r2 fs2] t2] eqn:Hrun2.
    cbn in Ht2, Ho2. subst r2 t2.
    rewrite (bind_ok _ _ _ _ _ _ Hrun2).
    exists (l1 ++ l2). cbn zeta. unfold lastSuccess. rewrite lastSuccessFrom_app.
    assert (Hstop : stopsAtFit maxBytes (l1 ++ l2)).
    { apply stopsAtFit_app; auto. intros Hex.
      destruct (withinBudget_fits l1 None Hstop1 Hex) as [_ Hw]. congruence. }
    assert (Hdesc : descending s0 (l1 ++ l2)).
    { apply (descending_app s0 s0 l1 l2); auto. apply Qle_refl. }
    assert (Hall : Forall (fun a => exists q fs1,
              a_result a = outcomeOf (qualityBody (a_scale a) q fs1) \/
              a_result a = outcomeOf (scaleBody (a_scale a) q fs1)) (l1 ++ l2)).
    { apply Forall_app; split; auto.
      eapply Forall_impl; [| exact Hall2]. cbn. intros a [q [fs' H]].
      exists q, fs'. right. exact H. }
    destruct (lastSuccessFrom (lastSuccessFrom None l1) l2) as [img |]; cbn;
      rewrite app_nil_r, map_app; repeat split; auto.
  - rewrite (bind_ok _ _ _ _ _ _ eq_refl). cbn [ret outcomeOf fsOf traceOf fst snd].
    exists l1. cbn zeta. unfold lastSuccess.
    assert (Hdesc : descending s0 l1).
    { rewrite <- (app_nil_r l1). apply (descending_app s0 s0 l1 []); cbn; auto.
      apply Qle_refl. }
    destruct (Hhead []) as [a [rest [H1 H2]]]. rewrite app_nil_r in H1.
    destruct (lastSuccessFrom None l1) as [img |]; [| discriminate]. cbn.
    rewrite !app_nil_r.
    repeat split; eauto.
Qed.

End SearchFacts.

(** ** One attempt *)

Lemma measure_ok P p path format quality s fs info fs2 img fs' t :
  sharp_metadata P p fs = Ok info ->
  sharp_toFile P p path fs = (Ok tt, fs2) ->
  bind (statSync_size path)
    (fun bytes =>
       ret {| e_path := path; e_bytes := bytes;
              e_width := or0 (m_width info); e_height := or0 (m_height info);
              e_format := format; e_quality := quality; e_scaleFactor := s |}) fs2
    = (Ok img, fs', t) ->
  reports P path format s img.
Proof.
  intros Hmeta Hwrite Hrun.
  apply bind_inv_ok in Hrun. destruct Hrun as [bytes [fs3 [t1 [t2 [Hstat [Hret _]]]]]].
  unfold statSync_size, reading in Hstat.
  destruct (files fs2 path) as [f |] eqn:Hfile; inversion Hstat; subst.
  unfold ret in Hret. inversion Hret; subst. unfold reports. cbn.
  repeat split. exists p, fs, fs', info, f. cbn. repeat split; assumption.
Qed.

Lemma toFile_inv_ok P p path fs u fs2 t :
  toFile P p path fs = (Ok u, fs2, t) -> sharp_toFile P p path fs = (Ok tt, fs2).
Proof.
  unfold toFile, acting. destruct (sharp_toFile P p path fs) as [[[] | e] fs1];
    intros H; inversion H; subst; reflexivity.
Qed.

Lemma metadata_inv_ok P p fs info fs1 t :
  metadata P p fs = (Ok info, fs1, t) -> sharp_metadata P p fs = Ok info /\ fs1 = fs.
Proof. unfold metadata, reading. intros H. inversion H; subst. auto. Qed.

Lemma writeAndMeasure_ok P p path format quality s fs img fs' t :
  writeAndMeasure P p path format quality s fs = (Ok img, fs', t) ->
  reports P path format s img.
Proof.
  unfold writeAndMeasure. intros H.
  apply bind_inv_ok in H. destruct H as [info [fs1 [t1 [t2 [Hmeta [H _]]]]]].
  apply metadata_inv_ok in Hmeta. destruct Hmeta as [Hmeta ->].
  apply bind_inv_ok in H. destruct H as [u [fs2 [t3 [t4 [Hwrite [H _]]]]]].
  apply toFile_inv_ok in Hwrite.
  eapply measure_ok; eauto.
Qed.

Lemma body_producedBy P o options (body : Q -> Z -> M EncodedImage) :
  (forall s q fs img fs' t, body s q fs = (Ok img, fs', t) ->
     reports P (finalOutputPathOf o (preferFormat options)) (preferFormat options) s img) ->
  forall a, (exists q fs1, a_result a = outcomeOf (body (a_scale a) q fs1)) ->
  producedBy P o options a.
Proof.
  intros Hbody a [q [fs1 Hres]] img Himg.
  destruct (body (a_scale a) q fs1) as [[r fs'] t] eqn:Hrun.
  cbn in Hres. rewrite Himg in Hres. subst r. eapply Hbody; eauto.
Qed.

Lemma qualityPhaseBody_ok P i path region W H format s q fs img fs' t :
  qualityPhaseBody P i path region W H format s q fs = (Ok img, fs', t) ->
  reports P path format s img.
Proof. unfold qualityPhaseBody. apply writeAndMeasure_ok. Qed.

Lemma scalePhaseBody_ok P i path region W H format s q fs img fs' t :
  scalePhaseBody P i path region W H format s q fs = (Ok img, fs', t) ->
  reports P path format s img.
Proof. unfold scalePhaseBody. apply writeAndMeasure_ok. Qed.

Lemma tryEncode_ok P i path s q format maxBytes fs img fs' t :
  tryEncode P i path s q format maxBytes fs = (Ok img, fs', t) ->
  reports P path format s img.
Proof.
  unfold tryEncode. intros H.
  apply bind_inv_ok in H. destruct H as [p [fs1 [t1 [t2 [Hp [H _]]]]]].
  assert (fs1 = fs) as ->.
  { destruct (Qltb s 1).
    - apply bind_inv_ok in Hp. destruct Hp as [md [fs2 [t3 [t4 [Hmd [Hret _]]]]]].
      apply metadata_inv_ok in Hmd. destruct Hmd as [_ ->].
      unfold ret in Hret. inversion Hret; subst. reflexivity.
    - unfold ret in Hp. inversion Hp; subst. reflexivity. }
  apply bind_inv_ok in H. destruct H as [info [fs2 [t3 [t4 [Hmeta [H _]]]]]].
  apply metadata_inv_ok in Hmeta. destruct Hmeta as [Hmeta ->].
  apply bind_inv_ok in H. destruct H as [u [fs3 [t5 [t6 [Hwrite [H _]]]]]].
  apply toFile_inv_ok in Hwrite.
  eapply measure_ok; eauto.
Qed.

(** ** A call of [encodeToFit], as a whole *)

Lemma searchToFit_summarised maxBytes qualityBody scaleBody s0 fs :
  (forall s q, silent (qualityBody s q)) ->
  (forall s q, silent (scaleBody s q)) ->
  exists l,
    summarised maxBytes (searchToFit maxBytes qualityBody scaleBody s0 fs) l /\
    descending s0 l /\
    (exists a rest, l = a :: rest /\ a_scale a = s0) /\
    Forall (fun a => exists q fs1,
              a_result a = outcomeOf (qualityBody (a_scale a) q fs1) \/
              a_result a = outcomeOf (scaleBody (a_scale a) q fs1)) l.
Proof.
  intros Hq Hs.
  destruct (searchToFit_spec maxBytes qualityBody scaleBody s0 Hq Hs fs)
    as [l [Ht [Ho [Hstop [Hdesc [Hhead Hall]]]]]].
  exists l. unfold summarised. repeat split; auto.
  destruct (lastSuccess l); rewrite Ho; reflexivity.
Qed.

Lemma encodeToFit_summary P i o options region fs :
  exists l,
    summarised (maxBytes options) (encodeToFit P i o options region fs) l /\
    Forall (producedBy P o options) l /\
    match measured P i o region fs with
    | Ok md => scaledFrom (maxLongEdge options) (or0 (m_width md)) (or0 (m_height md)) l
    | Throw _ => l = []
    end.
Proof.
  unfold encodeToFit, measured.
  pose proof (silent_ensureDir P (path_dirname P o) fs) as Hsil.
  destruct (ensureDir P (path_dirname P o) fs) as [[[[] | e] fs0] t0] eqn:Hdir;
    cbn in Hsil; subst t0.
  2: { rewrite (bind_throw _ _ _ _ _ _ Hdir). exists []. unfold summarised. cbn. auto. }
  rewrite (bind_ok _ _ _ _ _ _ Hdir). cbn [app]. rewrite <- run_eta.
  destruct (sharp_metadata P (source i region) fs0) as [md | e] eqn:Hmd.
  2: { rewrite (bind_throw _ _ fs0 e fs0 []) by (unfold metadata, reading; rewrite Hmd; reflexivity).
       exists []. unfold summarised. cbn. auto. }
  rewrite (bind_ok _ _ fs0 md fs0 []) by (unfold metadata, reading; rewrite Hmd; reflexivity).
  cbn [app]. rewrite <- run_eta.
  set (W := or0 (m_width md)). set (H := or0 (m_height md)).
  set (path := finalOutputPathOf o (preferFormat options)).
  destruct (searchToFit_summarised (maxBytes options)
              (qualityPhaseBody P i path region W H (preferFormat options))
              (scalePhaseBody P i path region W H (preferFormat options))
              (initialScale (maxLongEdge options) W H) fs0)
    as [l [Hsum [Hdesc [Hhead Hall]]]].
  { intros; apply silent_qualityPhaseBody. }
  { intros; apply silent_scalePhaseBody. }
  destruct (searchToFit _ _ _ _ fs0) as [[r fs'] t] eqn:Hrun.
  exists l. split; [exact Hsum |]. split; [| split; assumption].
  eapply Forall_impl; [| exact Hall]. cbn. intros a [q [fs1 [Hres | Hres]]].
  - apply (body_producedBy P o options
             (qualityPhaseBody P i path region W H (preferFormat options))).
    + intros. eapply qualityPhaseBody_ok; eauto.
    + exists q, fs1. exact Hres.
  - apply (body_producedBy P o options
             (scalePhaseBody P i path region W H (preferFormat options))).
    + intros. eapply scalePhaseBody_ok; eauto.
    + exists q, fs1. exact Hres.
Qed.

(** The same for the method as encode.js declares it (no region). *)
Lemma base_encodeToFit_summary P i o options fs :
  exists l,
    summarised (maxBytes options) (base_encodeToFit P i o options fs) l /\
    Forall (producedBy P o options) l /\
    match measured P i o None fs with
    | Ok md => scaledFrom (maxLongEdge options) (or0 (m_width md)) (or0 (m_height md)) l
    | Throw _ => l = []
    end.
Proof.
  unfold base_encodeToFit, measured.
  pose proof (silent_ensureDir P (path_dirname P o) fs) as Hsil.
  destruct (ensureDir P (path_dirname P o) fs) as [[[[] | e] fs0] t0] eqn:Hdir;
    cbn in Hsil; subst t0.
  2: { rewrite (bind_throw _ _ _ _ _ _ Hdir). exists []. unfold summarised. cbn. auto. }
  rewrite (bind_ok _ _ _ _ _ _ Hdir). cbn [app]. rewrite <- run_eta.
  cbn [source].
  destruct (sharp_metadata P (sharp i) fs0) as [md | e] eqn:Hmd.
  2: { rewrite (bind_throw _ _ fs0 e fs0 []) by (unfold metadata, reading; rewrite Hmd; reflexivity).
       exists []. unfold summarised. cbn. auto. }
  rewrite (bind_ok _ _ fs0 md fs0 []) by (unfold metadata, reading; rewrite Hmd; reflexivity).
  cbn [app]. rewrite <- run_eta.
  set (W := or0 (m_width md)). set (H := or0 (m_height md)).
  set (path := finalOutputPathOf o (preferFormat options)).
  set (attempt := fun s q => tryEncode P i path s q (preferFormat options) (maxBytes options)).
  destruct (searchToFit_summarised (maxBytes options) attempt attempt
              (initialScale (maxLongEdge options) W H) fs0)
    as [l [Hsum [Hdesc [Hhead Hall]]]].
  { intros; apply silent_tryEncode. }
  { intros; apply silent_tryEncode. }
  destruct (searchToFit _ _ _ _ fs0) as [[r fs'] t] eqn:Hrun.
  exists l. split; [exact Hsum |]. split; [| split; assumption].
  eapply Forall_impl; [| exact Hall]. cbn. intros a [q [fs1 Hres]].
  apply (body_producedBy P o options attempt).
  - intros. eapply tryEncode_ok; eauto.
  - exists q, fs1. tauto.
Qed.

(** ** Consequences for a call *)

Lemma summarised_attempts maxBytes run l :
  summarised maxBytes run l -> attemptsOf (traceOf run) = l.
Proof. intros [Ht _]. rewrite Ht. apply attemptsOf_map. Qed.

Lemma summarised_raises maxBytes run l :
  summarised maxBytes run l ->
  (isThrow (outcomeOf run) = true <-> Forall (fun a => isThrow (a_result a) = true) l).
Proof.
  intros [_ [Ho _]]. rewrite <- lastSuccessFrom_none. fold (lastSuccess l).
  destruct (lastSuccess l) as [img |].
  - rewrite Ho. cbn. split; discriminate.
  - tauto.
Qed.

Lemma summarised_returns maxBytes run l best :
  summarised maxBytes run l -> outcomeOf run = Ok best ->
  lastSuccess l = Some best /\ exists a, In a l /\ a_result a = Ok best.
Proof.
  intros [_ [Ho _]] Hbest.
  destruct (lastSuccess l) as [img |] eqn:Hlast.
  - assert (img = best) by congruence. subst img. split; [reflexivity |].
    apply lastSuccessFrom_in in Hlast. destruct Hlast as [H | H]; [discriminate | exact H].
  - rewrite Hbest in Ho. discriminate.
Qed.

Lemma summarised_success_returns maxBytes run l a img :
  summarised maxBytes run l -> In a l -> a_result a = Ok img ->
  exists best, outcomeOf run = Ok best /\ lastSuccess l = Some best.
Proof.
  intros Hsum Hin Hres. pose proof Hsum as [_ [Ho _]].
  destruct (lastSuccess l) as [best |] eqn:Hlast; [eauto |].
  apply lastSuccessFrom_none in Hlast. rewrite Forall_forall in Hlast.
  specialize (Hlast a Hin). rewrite Hres in Hlast. discriminate.
Qed.

(** When the artifact returned is within the budget, no attempt made a
    smaller file. *)
Lemma summarised_smallest maxBytes run l best :
  summarised maxBytes run l -> outcomeOf run = Ok best ->
  e_bytes best <= maxBytes ->
  forall a img, In a l -> a_result a = Ok img -> e_bytes best <= e_bytes img.
Proof.
  intros Hsum Hbest Hle a img Hin Hres.
  destruct (summarised_returns _ _ _ _ Hsum Hbest) as [Hlast _].
  destruct Hsum as [_ [_ Hstop]].
  destruct (in_split _ _ Hin) as [pre [post ->]].
  destruct post as [| b post].
  - unfold lastSuccess in Hlast. rewrite lastSuccessFrom_app in Hlast. cbn in Hlast.
    rewrite Hres in Hlast. inversion Hlast; subst. lia.
  - pose proof (stopsAtFit_earlier _ _ Hstop pre a (b :: post) img eq_refl) as Hgt.
    specialize (Hgt ltac:(discriminate) Hres). lia.
Qed.

Lemma initialScale_min maxLongEdge W H :
  0 < Z.max W H ->
  (initialScale maxLongEdge W H == Qmin 1 (inject_Z maxLongEdge / inject_Z (Z.max W H)))%Q.
Proof.
  intros Hpos. unfold initialScale.
  assert (HposQ : (0 < inject_Z (Z.max W H))%Q)
    by (change (inject_Z 0 < inject_Z (Z.max W H))%Q; rewrite <- Zlt_Qlt; exact Hpos).
  destruct (maxLongEdge <? Z.max W H) eqn:Hlt.
  - apply Z.ltb_lt in Hlt. symmetry. apply Q.min_r.
    apply Qle_shift_div_r; [exact HposQ |].
    rewrite Qmult_1_l. rewrite <- Zle_Qle. lia.
  - apply Z.ltb_ge in Hlt. symmetry. apply Q.min_l.
    apply Qle_shift_div_l; [exact HposQ |].
    rewrite Qmult_1_l. rewrite <- Zle_Qle. exact Hlt.
Qed.

(* ===================================================================== *)
(** * The encoder: what a call returns *)
(* ===================================================================== *)

Lemma summarised_raisesIffAllThrew maxBytes run l :
  summarised maxBytes run l -> raisesIffAllThrew run.
Proof.
  intros Hsum. unfold raisesIffAllThrew.
  rewrite (summarised_attempts _ _ _ Hsum). split.
  - eapply summarised_raises; eauto.
  - intros a img Hin Hres. eapply summarised_success_returns; eauto.
Qed.

(** C5.  [encodeToFit] raises an error if and only if every encode attempt
    of the quality/scale search threw.  Whenever an attempt produced a file
    the call returns an artifact, the one of the last attempt that produced
    one; the byte budget plays no part in this, so missing it never raises
    an error.  This holds for the method installed by tiles.js and for the
    one encode.js declares. *)
Theorem encodeToFit_raises_iff_every_attempt_threw :
  forall P inputPath outputPath options region fs,
    raisesIffAllThrew (encodeToFit P inputPath outputPath options region fs) /\
    raisesIffAllThrew (base_encodeToFit P inputPath outputPath options fs).
Proof.
  intros. split.
  - destruct (encodeToFit_summary P inputPath outputPath options region fs) as [l [Hsum _]].
    eapply summarised_raisesIffAllThrew; eauto.
  - destruct (base_encodeToFit_summary P inputPath outputPath options fs) as [l [Hsum _]].
    eapply summarised_raisesIffAllThrew; eauto.
Qed.

Lemma summarised_scaleNeverRises P o options md_or run l :
  summarised (maxBytes options) run l ->
  Forall (producedBy P o options) l ->
  match md_or with
  | Ok md => scaledFrom (maxLongEdge options) (or0 (m_width md)) (or0 (m_height md)) l
  | Throw _ => l = []
  end ->
  scaleNeverRises (maxLongEdge options) md_or run.
Proof.
  intros Hsum Hprod Hscaled. unfold scaleNeverRises.
  rewrite (summarised_attempts _ _ _ Hsum).
  rewrite Forall_forall in Hprod.
  assert (Hmd : forall a, In a l -> exists md, md_or = Ok md /\
            scaledFrom (maxLongEdge options) (or0 (m_width md)) (or0 (m_height md)) l).
  { intros a Hin. destruct md_or as [md | e]; [eauto | subst l; destruct Hin]. }
  assert (Hbound : forall a, In a l ->
     exists md, md_or = Ok md /\
       (a_scale a <= initialScale (maxLongEdge options)
                       (or0 (m_width md)) (or0 (m_height md)))%Q /\
       (hd_error l = Some a ->
        a_scale a = initialScale (maxLongEdge options)
                      (or0 (m_width md)) (or0 (m_height md)))).
  { intros a Hin. destruct (Hmd a Hin) as [md [-> [Hdesc [a0 [rest [-> Hs0]]]]]].
    exists md. split; [reflexivity |]. split.
    - pose proof (descending_le _ _ Hdesc) as Hall. rewrite Forall_forall in Hall.
      apply Hall. exact Hin.
    - cbn. intros Heq. inversion Heq; subst. exact Hs0. }
  repeat split.
  - destruct l as [| a0 l']; [intros [| ?] j a b _ Hi; discriminate |].
    destruct (Hmd a0 (or_introl eq_refl)) as [md [_ [Hdesc _]]].
    eapply descending_sorted; eauto.
  - intros a Hin. destruct (Hbound a Hin) as [md [H1 [H2 H3]]]. exists md. auto.
  - intros a img Hin Hres. apply (Hprod a Hin img Hres).
  - intros best Hbest.
    destruct (summarised_returns _ _ _ _ Hsum Hbest) as [_ [a [Hin Hres]]].
    destruct (Hbound a Hin) as [md [H1 [H2 _]]].
    destruct (Hprod a Hin best Hres) as [Hs _].
    exists md, a. rewrite Hs. auto.
Qed.

(** C6.  Within one call of [encodeToFit] the scale factor of successive
    attempts never rises: the first attempt uses the initial scale, which is
    [min(1, maxLongEdge / max(width, height))] for the dimensions the call
    measured, every later attempt uses at most the scale of the one before,
    and the artifact returned carries the scale of the attempt that produced
    it, which is therefore at most the initial scale.  This holds for the
    method installed by tiles.js and for the one encode.js declares. *)
Theorem encodeToFit_scale_never_rises :
  forall P inputPath outputPath options region fs,
    scaleNeverRises (maxLongEdge options) (measured P inputPath outputPath region fs)
      (encodeToFit P inputPath outputPath options region fs) /\
    scaleNeverRises (maxLongEdge options) (measured P inputPath outputPath None fs)
      (base_encodeToFit P inputPath outputPath options fs) /\
    (forall W H, 0 < Z.max W H ->
       (initialScale (maxLongEdge options) W H
        == Qmin 1 (inject_Z (maxLongEdge options) / inject_Z (Z.max W H)))%Q).
Proof.
  intros. repeat split.
  1-4: destruct (encodeToFit_summary P inputPath outputPath options region fs)
         as [l [Hsum [Hprod Hscaled]]];
       apply (summarised_scaleNeverRises P outputPath options _ _ l Hsum Hprod Hscaled).
  1-4: destruct (base_encodeToFit_summary P inputPath outputPath options fs)
         as [l [Hsum [Hprod Hscaled]]];
       apply (summarised_scaleNeverRises P outputPath options _ _ l Hsum Hprod Hscaled).
  intros W H Hpos. apply initialScale_min. exact Hpos.
Qed.

(** A run of the search that starts at the scale 0.4 and meets no budget:
    the candidates 0.9 to 0.4 of the ladder leave the scale at 0.4, the
    candidates 0.3, 0.25 and 0.2 lower it. *)
Example encodeToFit_scales_of_a_run :
  map (fun k => option_map a_scale
                  (nth_error (attemptsOf (traceOf Scenario.overBudgetScaled)) k))
      [0; 15; 16; 111; 112; 128; 144; 159]%nat
  = map Some [1536 # 3840; 1536 # 3840; 1536 # 3840; 1536 # 3840;
              3 # 10; 25 # 100; 2 # 10; 2 # 10]%Q.
Proof. vm_compute. reflexivity. Qed.

(** C2, as amended.  The artifact returned by [encodeToFit] is the one of
    the last attempt that produced a file: the result of every attempt
    replaces the one recorded before, whatever their sizes.  Every attempt
    but the last one left the budget unmet; so an artifact returned within
    [maxBytes] is the smallest of the call. *)
Theorem encodeToFit_returns_last_artifact :
  forall P inputPath outputPath options region fs best,
    let run := encodeToFit P inputPath outputPath options region fs in
    let attempts := attemptsOf (traceOf run) in
    outcomeOf run = Ok best ->
    lastSuccess attempts = Some best /\
    (forall pre a post img,
       attempts = pre ++ a :: post -> post <> [] -> a_result a = Ok img ->
       maxBytes options < e_bytes img) /\
    (e_bytes best <= maxBytes options ->
     forall a img, In a attempts -> a_result a = Ok img -> e_bytes best <= e_bytes img).
Proof.
  intros P inputPath outputPath options region fs best run attempts Hbest.
  destruct (encodeToFit_summary P inputPath outputPath options region fs) as [l [Hsum _]].
  fold run in Hsum. subst attempts. rewrite (summarised_attempts _ _ _ Hsum).
  split; [| split].
  - apply (summarised_returns _ _ _ _ Hsum Hbest).
  - destruct Hsum as [_ [_ Hstop]]. apply (stopsAtFit_earlier _ _ Hstop).
  - apply (summarised_smallest _ _ _ _ Hsum Hbest).
Qed.

Lemma returnsSmallest_decided run : returnsSmallest run -> returnsSmallestb run = true.
Proof.
  unfold returnsSmallest, returnsSmallestb. intros H.
  destruct (outcomeOf run) as [best |]; [| reflexivity].
  apply forallb_forall. intros a Hin.
  destruct (a_result a) as [img |] eqn:Hres; [| reflexivity].
  apply Z.leb_le. eapply H; eauto.
Qed.

(** C2, counterexample.  With an encoder whose output at quality 20 is
    larger than at quality 25 and a budget that no attempt meets, the call
    returns the 1000-byte artifact of its last attempt although earlier
    attempts produced 900 bytes. *)
Lemma encodeToFit_keeps_larger_last_artifact :
  forallb (fun a => negb (fits 100 a)) (attemptsOf (traceOf Scenario.overBudget)) = true /\
  ~ returnsSmallest Scenario.overBudget.
Proof.
  split; [vm_compute; reflexivity |].
  intros H. apply returnsSmallest_decided in H. vm_compute in H. discriminate.
Qed.

(** C2, as amended, on a call that meets its budget at the sixth attempt. *)
Lemma encodeToFit_returns_last_artifact_witness :
  exists best,
    outcomeOf Scenario.fitsAt70 = Ok best /\
    e_quality best = 70 /\
    lastSuccess (attemptsOf (traceOf Scenario.fitsAt70)) = Some best.
Proof.
  eexists. split; [vm_compute; reflexivity |]. split; [reflexivity |].
  apply (encodeToFit_returns_last_artifact Scenario.steady "source.png"
           "out/source_overview.webp" (Scenario.budget 1500000) None Scenario.disk).
  vm_compute. reflexivity.
Defined.

(** Both sides of C5 occur: a call that returns an artifact of 1000 bytes
    against a budget of 100, and a call that throws after ten attempts that
    all threw. *)
Example encodeToFit_over_budget_returns :
  exists best, outcomeOf Scenario.overBudget = Ok best /\ e_bytes best = 1000 /\
               List.length (attemptsOf (traceOf Scenario.overBudget)) = 160%nat.
Proof. eexists. vm_compute. repeat split. Qed.

Example encodeToFit_all_attempts_throw :
  isThrow (outcomeOf Scenario.neverEncodes) = true /\
  List.length (attemptsOf (traceOf Scenario.neverEncodes)) = 10%nat.
Proof. vm_compute. split; reflexivity. Qed.

(* ===================================================================== *)
(** * The tile grid *)
(* ===================================================================== *)

(** ** Arithmetic of the grid *)

Lemma ceil_div_bounds a b :
  0 < b -> (ceil_div a b - 1) * b < a <= ceil_div a b * b.
Proof.
  intros Hb. unfold ceil_div.
  pose proof (Z.div_mod (- a) b ltac:(lia)) as Hdm.
  pose proof (Z.mod_pos_bound (- a) b Hb) as Hmod.
  nia.
Qed.

Lemma ceil_div_positive a b : 0 < b -> (1 <= ceil_div a b <-> 0 < a).
Proof. intros Hb. pose proof (ceil_div_bounds a b Hb). split; intros; nia. Qed.

Lemma In_upto n i : In i (upto n) <-> 0 <= i < n.
Proof.
  unfold upto. rewrite in_map_iff. split.
  - intros [k [<- Hk]]. apply in_seq in Hk. lia.
  - intros Hi. exists (Z.to_nat i). split; [lia |]. apply in_seq. lia.
Qed.

Lemma length_upto n : List.length (upto n) = Z.to_nat n.
Proof. unfold upto. rewrite length_map, length_seq. reflexivity. Qed.

Lemma upto_nonpositive n : n <= 0 -> upto n = [].
Proof. intros Hn. unfold upto. replace (Z.to_nat n) with 0%nat by lia. reflexivity. Qed.

(** One axis of [tileRegion]: the origin and the extent of the tile at
    index [k] of [n], on an axis of length [len]. *)
Lemma axis_in_bounds len tilePx overlapPx k :
  0 < len -> overlapPx < tilePx ->
  let stride := strideOf tilePx overlapPx in
  let n := ceil_div (len - overlapPx) stride in
  0 <= k < n ->
  let origin := if (k =? n - 1) && (1 <? n) then Z.max 0 (len - tilePx) else k * stride in
  let extent := if k =? n - 1 then len - k * stride else Z.min tilePx (len - k * stride) in
  0 <= origin /\ origin + extent <= len.
Proof.
  intros Hlen Hov stride n Hk origin extent.
  assert (Hs : 0 < stride) by (unfold stride, strideOf; lia).
  pose proof (ceil_div_bounds (len - overlapPx) stride Hs) as Hn. fold n in Hn.
  assert (Hst : stride = tilePx - overlapPx) by reflexivity.
  subst origin extent.
  destruct (Z.eqb_spec k (n - 1)) as [-> | Hne]; cbn [andb].
  - destruct (Z.ltb_spec 1 n) as [Hgt | Hle].
    + split; [lia |]. nia.
    + assert (n = 1) by lia. subst n. replace (1 - 1) with 0 by lia. lia.
  - split; [nia |]. lia.
Qed.

Lemma tileRegion_in_bounds W H tilePx overlapPx row col :
  0 < W -> 0 < H -> overlapPx < tilePx ->
  0 <= row < rowsOf H tilePx overlapPx ->
  0 <= col < colsOf W tilePx overlapPx ->
  inBounds W H (tileRegion W H tilePx overlapPx row col).
Proof.
  intros HW HH Hov Hrow Hcol.
  pose proof (axis_in_bounds W tilePx overlapPx col HW Hov Hcol) as [Hx1 Hx2].
  pose proof (axis_in_bounds H tilePx overlapPx row HH Hov Hrow) as [Hy1 Hy2].
  unfold inBounds, tileRegion. cbn [r_left r_top r_width r_height].
  fold (colsOf W tilePx overlapPx) in Hx1, Hx2.
  fold (rowsOf H tilePx overlapPx) in Hy1, Hy2.
  auto.
Qed.

Lemma gridRegions_in W H tilePx overlapPx r :
  In r (gridRegions W H tilePx overlapPx) <->
  exists row col, 0 <= row < rowsOf H tilePx overlapPx /\
                  0 <= col < colsOf W tilePx overlapPx /\
                  r = tileRegion W H tilePx overlapPx row col.
Proof.
  unfold gridRegions. rewrite in_flat_map. split.
  - intros [row [Hrow Hin]]. apply in_flat_map in Hin. destruct Hin as [col [Hcol [<- | []]]].
    exists row, col. rewrite <- !In_upto. auto.
  - intros [row [col [Hrow [Hcol ->]]]]. exists row. split; [apply In_upto; exact Hrow |].
    apply in_flat_map. exists col. split; [apply In_upto; exact Hcol | left; reflexivity].
Qed.

Lemma length_flat_map_const {A B} (f : A -> list B) (l : list A) n :
  (forall a, List.length (f a) = n) -> List.length (flat_map f l) = (List.length l * n)%nat.
Proof.
  intros Hf. induction l as [| a l IH]; cbn; [reflexivity |].
  rewrite length_app, Hf, IH. lia.
Qed.

Lemma length_gridRegions W H tilePx overlapPx :
  List.length (gridRegions W H tilePx overlapPx) =
  (Z.to_nat (rowsOf H tilePx overlapPx) * Z.to_nat (colsOf W tilePx overlapPx))%nat.
Proof.
  unfold gridRegions.
  rewrite (length_flat_map_const _ _ (Z.to_nat (colsOf W tilePx overlapPx))).
  - rewrite length_upto. reflexivity.
  - intros row. rewrite (length_flat_map_const _ _ 1%nat) by reflexivity.
    rewrite length_upto. lia.
Qed.

(** ** The loops of [generateTiles] *)

Lemma forEach_collect {A S B} (view : S -> list B) (item : A -> list B)
    (body : A -> S -> M S) :
  (forall x acc fs acc' fs' t,
     body x acc fs = (Ok acc', fs', t) -> view acc' = view acc ++ item x) ->
  forall xs acc fs acc' fs' t,
    forEach xs body acc fs = (Ok acc', fs', t) ->
    view acc' = view acc ++ flat_map item xs.
Proof.
  intros Hbody. induction xs as [| x xs IH]; intros acc fs acc' fs' t Hrun.
  - cbn in Hrun. inversion Hrun; subst. cbn. rewrite app_nil_r. reflexivity.
  - cbn [forEach] in Hrun. apply bind_inv_ok in Hrun.
    destruct Hrun as [acc1 [fs1 [t1 [t2 [Hx [Hrest _]]]]]].
    apply IH in Hrest. apply Hbody in Hx. rewrite Hrest, Hx. cbn.
    rewrite <- app_assoc. reflexivity.
Qed.

Lemma tileStep_rect P enc i o options W H row col tiles fs tiles' fs' t :
  tileStep P enc i o options W H row col tiles fs = (Ok tiles', fs', t) ->
  map tileRect tiles' =
  map tileRect tiles ++ [tileRegion W H (tilePx options) (overlapPx options) row col].
Proof.
  unfold tileStep. intros Hrun. apply bind_inv_ok in Hrun.
  destruct Hrun as [encoded [fs1 [t1 [t2 [_ [Hret _]]]]]].
  unfold ret in Hret. inversion Hret; subst.
  rewrite map_app. reflexivity.
Qed.

(** The rectangles of the tiles returned are those of the grid, in row-major
    order, for the dimensions read from the image. *)
Lemma generateTiles_rects P enc i o options fs W H fs0 t0 tiles fs' t :
  readDimensions P i o fs = (Ok (W, H), fs0, t0) ->
  generateTiles P enc i o options fs = (Ok tiles, fs', t) ->
  map tileRect tiles = gridRegions W H (tilePx options) (overlapPx options).
Proof.
  intros Hdims Hrun. unfold generateTiles in Hrun.
  rewrite (bind_ok _ _ _ _ _ _ Hdims) in Hrun. cbn iota in Hrun.
  match type of Hrun with
  | (outcomeOf ?r, fsOf ?r, _ ++ traceOf ?r) = _ =>
      destruct r as [[r1 fs1] t1] eqn:Hloop
  end.
  cbn in Hrun. inversion Hrun; subst. clear Hrun.
  apply (forEach_collect (map tileRect)
           (fun row => flat_map (fun col =>
                         [tileRegion W H (tilePx options) (overlapPx options) row col])
                       (upto (colsOf W (tilePx options) (overlapPx options))))) in Hloop.
  - exact Hloop.
  - intros row acc fsa acc' fsb tb Hinner.
    apply (forEach_collect (map tileRect)
             (fun col => [tileRegion W H (tilePx options) (overlapPx options) row col]))
      in Hinner; [exact Hinner |].
    intros col acc1 fsc acc2 fsd td Hstep. eapply tileStep_rect; eauto.
Qed.

Lemma run_is {A} (run : outcome A * FS * list Event) (a : A) :
  outcomeOf run = Ok a -> run = (Ok a, fsOf run, traceOf run).
Proof. destruct run as [[r fs] t]. cbn. intros ->. reflexivity. Qed.

(** C4.  For a source image of positive width [W] and height [H] and
    [overlapPx < tilePx], every tile returned by [generateTiles] has a region
    inside the image: [0 <= x], [x + w <= W], [0 <= y], [y + h <= H]. *)
Theorem generateTiles_regions_in_bounds :
  forall P enc inputPath outputDir options fs W H fs0 t0 tiles fs' t,
    readDimensions P inputPath outputDir fs = (Ok (W, H), fs0, t0) ->
    0 < W -> 0 < H ->
    overlapPx options < tilePx options ->
    generateTiles P enc inputPath outputDir options fs = (Ok tiles, fs', t) ->
    Forall (fun tile =>
              0 <= t_x tile /\ t_x tile + t_w tile <= W /\
              0 <= t_y tile /\ t_y tile + t_h tile <= H) tiles.
Proof.
  intros P enc i o options fs W H fs0 t0 tiles fs' t Hdims HW HH Hov Hrun.
  pose proof (generateTiles_rects _ _ _ _ _ _ _ _ _ _ _ _ _ Hdims Hrun) as Hrects.
  apply Forall_forall. intros tile Hin.
  assert (Hr : In (tileRect tile) (gridRegions W H (tilePx options) (overlapPx options))).
  { rewrite <- Hrects. apply in_map. exact Hin. }
  apply gridRegions_in in Hr. destruct Hr as [row [col [Hrow [Hcol Heq]]]].
  pose proof (tileRegion_in_bounds W H _ _ row col HW HH Hov Hrow Hcol) as Hb.
  rewrite <- Heq in Hb. exact Hb.
Qed.

(** C4 on the six tiles of the README image. *)
Lemma generateTiles_regions_in_bounds_witness :
  exists tiles,
    outcomeOf TileScenario.readme = Ok tiles /\
    List.length tiles = 6%nat /\
    Forall (fun tile =>
              0 <= t_x tile /\ t_x tile + t_w tile <= 3840 /\
              0 <= t_y tile /\ t_y tile + t_h tile <= 2160) tiles.
Proof.
  eexists. split; [vm_compute; reflexivity |]. split; [reflexivity |].
  eapply (generateTiles_regions_in_bounds Scenario.steady (encodeToFit Scenario.steady)
            "source.png" "out/tiles" TileScenario.defaults Scenario.disk 3840 2160).
  - apply run_is. vm_compute. reflexivity.
  - lia.
  - lia.
  - vm_compute. reflexivity.
  - apply run_is. vm_compute. reflexivity.
Defined.

(** C3, counterexample.  With the default options a 64 x 64 image has a grid
    of 0 columns and 0 rows, and [generateTiles] returns no tile. *)
Lemma generateTiles_narrow_image_has_no_tile :
  outcomeOf TileScenario.icon = Ok [] /\
  ~ (1 <= ceil_div (64 - 96) (1536 - 96) /\ 1 <= ceil_div (64 - 96) (1536 - 96)).
Proof. split; [vm_compute; reflexivity | vm_compute; intros [H _]; apply H; reflexivity]. Qed.

Lemma forEach_returns {A S} (xs : list A) (body : A -> S -> M S) :
  (forall x acc fs, isThrow (outcomeOf (body x acc fs)) = false) ->
  forall acc fs, isThrow (outcomeOf (forEach xs body acc fs)) = false.
Proof.
  intros Hbody. induction xs as [| x xs IH]; intros acc fs; [reflexivity |].
  cbn [forEach]. specialize (Hbody x acc fs). unfold bind.
  destruct (body x acc fs) as [[[acc' | e] fs1] t1]; [| discriminate].
  specialize (IH acc' fs1).
  destruct (forEach xs body acc' fs1) as [[r fs2] t2]. exact IH.
Qed.

(** [generateTiles] returns tiles whenever the encoder returns for every
    tile. *)
Lemma generateTiles_returns P enc i o options fs W H fs0 t0 :
  readDimensions P i o fs = (Ok (W, H), fs0, t0) ->
  (forall i' o' options' region fs1,
     isThrow (outcomeOf (enc i' o' options' region fs1)) = false) ->
  isThrow (outcomeOf (generateTiles P enc i o options fs)) = false.
Proof.
  intros Hdims Henc. unfold generateTiles.
  rewrite (bind_ok _ _ _ _ _ _ Hdims). cbn [outcomeOf fst]. cbn iota.
  apply forEach_returns. intros row acc fs1.
  apply forEach_returns. intros col acc' fs2.
  unfold tileStep, encodeTile, bind.
  match goal with
  | |- context [enc ?a ?b ?c ?d fs2] =>
      specialize (Henc a b c d fs2); destruct (enc a b c d fs2) as [[[img | e] fs3] t3]
  end; [reflexivity | discriminate].
Qed.

(** C3, as amended.  For a source image of positive width [W] and height
    [H] and [overlapPx < tilePx], with [stride = tilePx - overlapPx],
    [cols = ceil((W - overlapPx) / stride)] and
    [rows = ceil((H - overlapPx) / stride)]: when [W] and [H] both exceed
    [overlapPx], [cols] and [rows] are at least 1 and [generateTiles]
    produces exactly [cols * rows] tiles; when [W] or [H] is at most
    [overlapPx] it produces no tile.  (It does return tiles whenever the
    encoder returns for each of them.) *)
Theorem generateTiles_count :
  forall P enc inputPath outputDir options fs W H fs0 t0,
    readDimensions P inputPath outputDir fs = (Ok (W, H), fs0, t0) ->
    0 < W -> 0 < H ->
    overlapPx options < tilePx options ->
    let stride := tilePx options - overlapPx options in
    let cols := ceil_div (W - overlapPx options) stride in
    let rows := ceil_div (H - overlapPx options) stride in
    (forall tiles fs' t,
       generateTiles P enc inputPath outputDir options fs = (Ok tiles, fs', t) ->
       (overlapPx options < W -> overlapPx options < H ->
          1 <= cols /\ 1 <= rows /\ Z.of_nat (List.length tiles) = cols * rows) /\
       (W <= overlapPx options \/ H <= overlapPx options -> tiles = [])) /\
    ((forall i o options' region fs1,
        isThrow (outcomeOf (enc i o options' region fs1)) = false) ->
     isThrow (outcomeOf (generateTiles P enc inputPath outputDir options fs)) = false).
Proof.
  intros P enc i o options fs W H fs0 t0 Hdims HW HH Hov stride cols rows.
  split; [| apply (generateTiles_returns P enc i o options fs W H fs0 t0 Hdims)].
  intros tiles fs' t Hrun.
  pose proof (generateTiles_rects _ _ _ _ _ _ _ _ _ _ _ _ _ Hdims Hrun) as Hrects.
  assert (Hlen : List.length tiles = (Z.to_nat rows * Z.to_nat cols)%nat).
  { rewrite <- (length_map tileRect), Hrects. apply length_gridRegions. }
  assert (Hs : 0 < stride) by (unfold stride; lia).
  pose proof (ceil_div_positive (W - overlapPx options) stride Hs) as Hc. fold cols in Hc.
  pose proof (ceil_div_positive (H - overlapPx options) stride Hs) as Hr. fold rows in Hr.
  split.
  - intros HWo HHo.
    assert (1 <= cols) by (apply Hc; lia). assert (1 <= rows) by (apply Hr; lia).
    repeat split; try assumption. rewrite Hlen. nia.
  - intros Hsmall. apply length_zero_iff_nil. rewrite Hlen.
    destruct Hsmall.
    + assert (~ 1 <= cols) by (rewrite Hc; lia). nia.
    + assert (~ 1 <= rows) by (rewrite Hr; lia). nia.
Qed.

(** C3, as amended, on the README image: 3 columns, 2 rows, 6 tiles. *)
Lemma generateTiles_count_witness :
  exists tiles,
    outcomeOf TileScenario.readme = Ok tiles /\
    ceil_div (3840 - 96) (1536 - 96) = 3 /\
    ceil_div (2160 - 96) (1536 - 96) = 2 /\
    Z.of_nat (List.length tiles) = 3 * 2.
Proof.
  eexists. split; [vm_compute; reflexivity |].
  split; [reflexivity |]. split; [reflexivity |].
  pose (dims := readDimensions Scenario.steady "source.png" "out/tiles" Scenario.disk).
  assert (Hdims : dims = (Ok (3840, 2160), fsOf dims, traceOf dims))
    by (apply run_is; vm_compute; reflexivity).
  destruct (generateTiles_count Scenario.steady (encodeToFit Scenario.steady)
              "source.png" "out/tiles" TileScenario.defaults Scenario.disk 3840 2160
              (fsOf dims) (traceOf dims) Hdims ltac:(lia) ltac:(lia)
              ltac:(vm_compute; reflexivity)) as [Hcount _].
  eapply Hcount.
  - apply run_is. vm_compute. reflexivity.
  - vm_compute. reflexivity.
  - vm_compute. reflexivity.
Defined.

(** ** The tiles of the last column and of the last row *)

(** What the code computes for the last column of a grid of several
    columns: the origin is moved to [max(0, W - tilePx)], the width stays
    the one clipped at the stride origin. *)
Lemma tileRegion_last_column W H tilePx overlapPx row :
  let cols := colsOf W tilePx overlapPx in
  1 < cols ->
  let r := tileRegion W H tilePx overlapPx row (cols - 1) in
  r_left r = Z.max 0 (W - tilePx) /\
  r_width r = W - (cols - 1) * (tilePx - overlapPx).
Proof.
  intros cols Hcols r. subst r. unfold tileRegion. cbn [r_left r_width]. fold cols.
  rewrite Z.eqb_refl. cbn [andb].
  destruct (Z.ltb_spec 1 cols); [| lia]. split; reflexivity.
Qed.

(** That width is [tilePx] only when the strides fit the image exactly. *)
Lemma tileRegion_last_column_full W H tilePx overlapPx row :
  overlapPx < tilePx ->
  let cols := colsOf W tilePx overlapPx in
  1 < cols ->
  (r_width (tileRegion W H tilePx overlapPx row (cols - 1)) = tilePx <->
   W - overlapPx = cols * (tilePx - overlapPx)).
Proof.
  intros Hov cols Hcols.
  destruct (tileRegion_last_column W H tilePx overlapPx row Hcols) as [_ Hw].
  fold cols in Hw. rewrite Hw. split; intros; nia.
Qed.

(** A grid of one column keeps the origin 0 and the whole width. *)
Lemma tileRegion_single_column W H tilePx overlapPx row :
  colsOf W tilePx overlapPx = 1 ->
  let r := tileRegion W H tilePx overlapPx row 0 in
  r_left r = 0 /\ r_width r = W.
Proof.
  intros Hcols r. subst r. unfold tileRegion. cbn [r_left r_width]. rewrite Hcols.
  cbn. split; lia.
Qed.

(** C1, on the code.  For the 3840 x 2160 image of the README and the
    default options (a grid of 3 columns and 2 rows) the tiles of the last
    column start at [x = 2304 = 3840 - 1536] and are 960 wide, not 1536:
    their right edge is at 3264 and the image columns from 3264 to 3840 lie
    in no tile.  Likewise the tiles of the last row start at [y = 624] and
    are 720 high. *)
Theorem generateTiles_edge_tiles_keep_clipped_size :
  colsOf 3840 1536 96 = 3 /\ rowsOf 2160 1536 96 = 2 /\
  TileScenario.rectsOf TileScenario.readme =
    [ {| r_left := 0; r_top := 0; r_width := 1536; r_height := 1536 |};
      {| r_left := 1440; r_top := 0; r_width := 1536; r_height := 1536 |};
      {| r_left := 2304; r_top := 0; r_width := 960; r_height := 1536 |};
      {| r_left := 0; r_top := 624; r_width := 1536; r_height := 720 |};
      {| r_left := 1440; r_top := 624; r_width := 1536; r_height := 720 |};
      {| r_left := 2304; r_top := 624; r_width := 960; r_height := 720 |} ].
Proof. repeat split; vm_compute; reflexivity. Qed.

(* ===================================================================== *)
(** * The crop regions *)
(* ===================================================================== *)

(** C7, counterexample.  For an image of 1152 x 800 and [minCropSize = 768]
    (the value the server passes) the code returns top_left, top_right,
    center, left_edge and right_edge: the two edges are 346 wide, less than
    half of 768, and the table filtered by the stated rules has neither. *)
Lemma generateCropRegions_keeps_narrow_edges :
  generateCropRegions 1152 800 768 <>
    map cand_region (filter (includedAsStated 1152 800 768) (cropTable 1152 800 768)) /\
  map cr_name (generateCropRegions 1152 800 768) =
    ["top_left"; "top_right"; "center"; "left_edge"; "right_edge"]%string /\
  map cr_w (generateCropRegions 1152 800 768) = [461; 461; 480; 346; 346] /\
  bigEnough 768 346 = false.
Proof.
  split; [vm_compute; discriminate |].
  repeat split; vm_compute; reflexivity.
Qed.

Lemma pushIf_app cond r regions :
  pushIf cond r regions = regions ++ (if cond then [r] else []).
Proof. unfold pushIf. destruct cond; [reflexivity | rewrite app_nil_r; reflexivity]. Qed.

(** C7, as amended.  For an image with [W >= minCropSize] and
    [H >= minCropSize] the regions computed are the rows of the heuristic
    table that pass the inclusion rules, in table order: header, top_left,
    top_right, center and footer are included exactly when their size in the
    constraining dimension is at least [minCropSize * 0.5]; bottom_right
    when, besides, the image is landscape; left_edge and right_edge exactly
    when the image is landscape and [W >= 1.5 * minCropSize], whatever their
    width. *)
Theorem generateCropRegions_is_filtered_table :
  forall W H minSize,
    minSize <= W -> minSize <= H ->
    generateCropRegions W H minSize =
    map cand_region (filter (included W H minSize) (cropTable W H minSize)).
Proof.
  intros W H minSize HW HH. unfold generateCropRegions.
  replace ((W <? minSize) || (H <? minSize)) with false
    by (symmetry; apply orb_false_iff; split; apply Z.ltb_ge; assumption).
  cbv zeta. rewrite !pushIf_app. cbn [app].
  unfold cropTable, included, bigEnough, landscape, wide. cbv zeta.
  cbn [filter cand_gate cand_size cand_region].
  repeat match goal with
         | |- context [Qgeb ?a ?b] => destruct (Qgeb a b)
         end;
  destruct (H <? W); reflexivity.
Qed.

(** C7, as amended, on a landscape image of 2000 x 1000 with
    [minCropSize = 400]: all eight rows pass. *)
Lemma generateCropRegions_is_filtered_table_witness :
  map cr_name (generateCropRegions 2000 1000 400) =
    ["header"; "top_left"; "top_right"; "center"; "footer"; "bottom_right";
     "left_edge"; "right_edge"]%string /\
  generateCropRegions 2000 1000 400 =
    map cand_region (filter (included 2000 1000 400) (cropTable 2000 1000 400)).
Proof.
  split; [vm_compute; reflexivity |].
  apply (generateCropRegions_is_filtered_table 2000 1000 400); lia.
Defined.

(* ===================================================================== *)
(** * Errors of the encoder in the two loops *)
(* ===================================================================== *)

(** ** Loops *)

Lemma bind_ext {A B} (m : M A) (k1 k2 : A -> M B) fs :
  (forall a fs', k1 a fs' = k2 a fs') -> bind m k1 fs = bind m k2 fs.
Proof.
  intros Hk. unfold bind. destruct (m fs) as [[[a | e] fs1] t1]; [| reflexivity].
  rewrite Hk. reflexivity.
Qed.

Lemma bind_assoc {A B C} (m : M A) (k : A -> M B) (k' : B -> M C) fs :
  bind (bind m k) k' fs = bind m (fun a => bind (k a) k') fs.
Proof.
  unfold bind. destruct (m fs) as [[[a | e] fs1] t1]; [| reflexivity].
  destruct (k a fs1) as [[[b | e] fs2] t2]; [| reflexivity].
  destruct (k' b fs2) as [[r fs3] t3]. rewrite app_assoc. reflexivity.
Qed.

Lemma bind_ret_l {A B} (a : A) (k : A -> M B) fs : bind (ret a) k fs = k a fs.
Proof. unfold bind, ret. destruct (k a fs) as [[r fs1] t1]. reflexivity. Qed.

Lemma forEach_app {A S} (xs ys : list A) (body : A -> S -> M S) acc fs :
  forEach (xs ++ ys) body acc fs = bind (forEach xs body acc) (forEach ys body) fs.
Proof.
  revert acc fs. induction xs as [| x xs IH]; intros acc fs; cbn [forEach app].
  - rewrite bind_ret_l. reflexivity.
  - rewrite bind_assoc. apply bind_ext. intros acc' fs'. apply IH.
Qed.

Lemma forEach_map {A B S} (f : A -> B) (xs : list A) (body : B -> S -> M S) acc fs :
  forEach (map f xs) body acc fs = forEach xs (fun x => body (f x)) acc fs.
Proof.
  revert acc fs. induction xs as [| x xs IH]; intros acc fs; cbn [forEach map];
    [reflexivity |].
  apply bind_ext. intros acc' fs'. apply IH.
Qed.

(** Two nested loops visit the cells of the grid in row-major order. *)
Lemma forEach_nested {S} (rs cs : list Z) (body : Z -> Z -> S -> M S) acc fs :
  forEach rs (fun r acc => forEach cs (body r) acc) acc fs =
  forEach (flat_map (fun r => map (fun c => (r, c)) cs) rs)
          (fun rc => body (fst rc) (snd rc)) acc fs.
Proof.
  revert acc fs. induction rs as [| r rs IH]; intros acc fs; cbn [forEach flat_map];
    [reflexivity |].
  rewrite forEach_app. unfold bind.
  rewrite forEach_map. cbn [fst snd].
  destruct (forEach cs (fun x => body r x) acc fs) as [[[acc' | e] fs'] t']; [| reflexivity].
  rewrite IH. reflexivity.
Qed.

(** A loop ends at the first iteration that throws. *)
Lemma forEach_throws_at {A S} (pre : list A) x (post : list A) (body : A -> S -> M S)
    acc fs acc1 fs1 t1 e fs2 t2 :
  forEach pre body acc fs = (Ok acc1, fs1, t1) ->
  body x acc1 fs1 = (Throw e, fs2, t2) ->
  forEach (pre ++ x :: post) body acc fs = (Throw e, fs2, t1 ++ t2).
Proof.
  intros Hpre Hx. rewrite forEach_app. rewrite (bind_ok _ _ _ _ _ _ Hpre).
  cbn [forEach]. rewrite (bind_throw _ _ _ _ _ _ Hx). reflexivity.
Qed.

(** ** The loop of [generateCrops] *)

Lemma cropStep_ok P enc i o options region crops cropIndex fs img fs1 t1 :
  encodeCrop P enc i o options region cropIndex fs = (Ok img, fs1, t1) ->
  cropStep P enc i o options region (crops, cropIndex) fs =
    (Ok (crops ++ [ {| c_path := e_path img; c_name := cr_name region;
                       c_x := cr_x region; c_y := cr_y region;
                       c_w := cr_w region; c_h := cr_h region;
                       c_bytes := e_bytes img;
                       c_width := e_width img; c_height := e_height img |} ],
         S cropIndex),
     fs1, t1).
Proof.
  intros Henc. unfold cropStep, bind, try_, ret. rewrite Henc.
  rewrite app_nil_r. reflexivity.
Qed.

(** An error of the encoder is caught: the crops and the index stay as they
    were and a warning is written. *)
Lemma cropStep_throw P enc i o options region crops cropIndex fs e fs1 t1 :
  encodeCrop P enc i o options region cropIndex fs = (Throw e, fs1, t1) ->
  cropStep P enc i o options region (crops, cropIndex) fs =
    (Ok (crops, cropIndex), fs1, t1 ++ [EvWarn (cropWarning (cr_name region) e)]).
Proof.
  intros Henc. unfold cropStep, bind, try_, ret, emit. rewrite Henc. reflexivity.
Qed.

(** The loop over the regions never throws. *)
Lemma cropLoop_returns P enc i o options regions st fs :
  exists st' fs' t,
    forEach regions (cropStep P enc i o options) st fs = (Ok st', fs', t).
Proof.
  revert st fs. induction regions as [| region regions IH]; intros [crops cropIndex] fs.
  - do 3 eexists. reflexivity.
  - cbn [forEach].
    destruct (encodeCrop P enc i o options region cropIndex fs) as [[[img | e] fs1] t1] eqn:Henc.
    + rewrite (bind_ok _ _ _ _ _ _ (cropStep_ok _ _ _ _ _ _ crops _ _ _ _ _ Henc)).
      destruct (IH (crops ++ [ {| c_path := e_path img; c_name := cr_name region;
                       c_x := cr_x region; c_y := cr_y region;
                       c_w := cr_w region; c_h := cr_h region;
                       c_bytes := e_bytes img;
                       c_width := e_width img; c_height := e_height img |} ],
                    S cropIndex) fs1) as [st' [fs' [t Hrest]]].
      rewrite Hrest. cbn. do 3 eexists. reflexivity.
    + rewrite (bind_ok _ _ _ _ _ _ (cropStep_throw _ _ _ _ _ _ crops _ _ _ _ _ Henc)).
      destruct (IH (crops, cropIndex) fs1) as [st' [fs' [t Hrest]]].
      rewrite Hrest. cbn. do 3 eexists. reflexivity.
Qed.

(** C8.  Once the dimensions of the image are read:
    - in [generateTiles], when the encoder throws [e] for a cell of the grid
      (the cells before it having been encoded), [generateTiles] throws the
      same [e], in the state the encoder left, and returns no tiles;
    - in [generateCrops], when the encoder throws [e] for a region, the
      crops collected so far and the index are kept as they are, a warning
      naming the region and the error is written, the loop goes on with the
      remaining regions, and [generateCrops] returns the crops of that
      continuation. *)
Theorem encoder_error_fails_tiles_but_drops_crop :
  forall P enc inputPath outputDir fs W H fs0 t0,
    readDimensions P inputPath outputDir fs = (Ok (W, H), fs0, t0) ->
    (forall options pre row col post tiles1 fs1 t1 e fs2 t2,
       gridCells (rowsOf H (tilePx options) (overlapPx options))
                 (colsOf W (tilePx options) (overlapPx options))
         = pre ++ (row, col) :: post ->
       forEach pre (fun rc => tileStep P enc inputPath outputDir options W H (fst rc) (snd rc))
         [] fs0 = (Ok tiles1, fs1, t1) ->
       encodeTile P enc inputPath outputDir options W H row col fs1 = (Throw e, fs2, t2) ->
       generateTiles P enc inputPath outputDir options fs = (Throw e, fs2, t0 ++ t1 ++ t2)) /\
    (forall options pre region post crops1 index1 fs1 t1 e fs2 t2,
       generateCropRegions W H (minCropSize options) = pre ++ region :: post ->
       forEach pre (cropStep P enc inputPath outputDir options) ([], 0%nat) fs0
         = (Ok (crops1, index1), fs1, t1) ->
       encodeCrop P enc inputPath outputDir options region index1 fs1 = (Throw e, fs2, t2) ->
       exists st fs3 t3,
         forEach post (cropStep P enc inputPath outputDir options) (crops1, index1) fs2
           = (Ok st, fs3, t3) /\
         generateCrops P enc inputPath outputDir options fs
           = (Ok (fst st), fs3,
              t0 ++ t1 ++ t2 ++ EvWarn (cropWarning (cr_name region) e) :: t3)).
Proof.
  intros P enc i o fs W H fs0 t0 Hdims. split.
  - intros options pre row col post tiles1 fs1 t1 e fs2 t2 Hcells Hpre Henc.
    unfold generateTiles. rewrite (bind_ok _ _ _ _ _ _ Hdims). cbn iota.
    rewrite forEach_nested. fold (gridCells (rowsOf H (tilePx options) (overlapPx options))
                                    (colsOf W (tilePx options) (overlapPx options))).
    rewrite Hcells.
    rewrite (forEach_throws_at pre (row, col) post _ [] fs0 tiles1 fs1 t1 e fs2 t2 Hpre).
    + reflexivity.
    + cbn [fst snd]. unfold tileStep. rewrite (bind_throw _ _ _ _ _ _ Henc). reflexivity.
  - intros options pre region post crops1 index1 fs1 t1 e fs2 t2 Hregions Hpre Henc.
    destruct (cropLoop_returns P enc i o options post (crops1, index1) fs2)
      as [st [fs3 [t3 Hpost]]].
    exists st, fs3, t3. split; [exact Hpost |].
    assert (Hloop :
      forEach (pre ++ region :: post) (cropStep P enc i o options) ([], 0%nat) fs0
        = (Ok st, fs3, t1 ++ (t2 ++ [EvWarn (cropWarning (cr_name region) e)]) ++ t3)).
    { rewrite forEach_app, (bind_ok _ _ _ _ _ _ Hpre). cbn [forEach].
      rewrite (bind_ok _ _ _ _ _ _ (cropStep_throw _ _ _ _ _ _ crops1 _ _ _ _ _ Henc)).
      rewrite Hpost. reflexivity. }
    unfold generateCrops. rewrite (bind_ok _ _ _ _ _ _ Hdims). cbn iota.
    rewrite Hregions, (bind_ok _ _ _ _ _ _ Hloop).
    cbn. rewrite app_nil_r, <- !app_assoc. reflexivity.
Qed.

Lemma run_as {A} (run : outcome A * FS * list Event) (r : outcome A) :
  outcomeOf run = r -> run = (r, fsOf run, traceOf run).
Proof. destruct run as [[r' fs] t]. cbn. intros ->. reflexivity. Qed.

(** C8 on a platform that cannot encode regions less than 1000 pixels high:
    the tile at row 1, column 0 fails and with it [generateTiles]; the crop
    "header" fails first, is warned about, and [generateCrops] returns the
    two edges. *)
Lemma encoder_error_fails_tiles_but_drops_crop_witness :
  outcomeOf CropScenario.tiles = Throw (failedToEncode 4000000) /\
  CropScenario.pathsOf CropScenario.crops =
    ["out/crop_0_left_edge.webp"; "out/crop_1_right_edge.webp"]%string /\
  hd_error (warningsOf (traceOf CropScenario.crops)) =
    Some (cropWarning "header" (failedToEncode 4000000)).
Proof.
  pose (dims := readDimensions CropScenario.strict "source.png" "out" Scenario.disk).
  assert (Hdims : dims = (Ok (3840, 2160), fsOf dims, traceOf dims))
    by (apply run_is; vm_compute; reflexivity).
  destruct (encoder_error_fails_tiles_but_drops_crop
              CropScenario.strict (encodeToFit CropScenario.strict) "source.png" "out"
              Scenario.disk 3840 2160 (fsOf dims) (traceOf dims) Hdims) as [Htiles Hcrops].
  split; [| split].
  - pose (pre := forEach [(0, 0); (0, 1); (0, 2)]
                   (fun rc => tileStep CropScenario.strict (encodeToFit CropScenario.strict)
                                "source.png" "out" TileScenario.defaults 3840 2160
                                (fst rc) (snd rc))
                   [] (fsOf dims)).
    pose (failing := encodeTile CropScenario.strict (encodeToFit CropScenario.strict)
                       "source.png" "out" TileScenario.defaults 3840 2160 1 0 (fsOf pre)).
    unfold CropScenario.tiles.
    rewrite (Htiles TileScenario.defaults [(0, 0); (0, 1); (0, 2)] 1 0 [(1, 1); (1, 2)]
               (match outcomeOf pre with Ok l => l | Throw _ => [] end)
               (fsOf pre) (traceOf pre) (failedToEncode 4000000)
               (fsOf failing) (traceOf failing)).
    + reflexivity.
    + vm_compute. reflexivity.
    + apply run_as. vm_compute. reflexivity.
    + apply run_as. vm_compute. reflexivity.
  - pose (failing := encodeCrop CropScenario.strict (encodeToFit CropScenario.strict)
                       "source.png" "out" CropScenario.defaults
                       {| cr_name := "header"; cr_x := 0; cr_y := 0;
                          cr_w := 3840; cr_h := 432 |} 0 (fsOf dims)).
    destruct (Hcrops CropScenario.defaults []
                {| cr_name := "header"; cr_x := 0; cr_y := 0; cr_w := 3840; cr_h := 432 |}
                (tl (generateCropRegions 3840 2160 768))
                [] 0%nat (fsOf dims) [] (failedToEncode 4000000)
                (fsOf failing) (traceOf failing))
      as [st [fs3 [t3 [Hpost Hrun]]]].
    + vm_compute. reflexivity.
    + reflexivity.
    + apply run_as. vm_compute. reflexivity.
    + unfold CropScenario.pathsOf, CropScenario.crops. rewrite Hrun. cbn [outcomeOf fst].
      apply (f_equal outcomeOf) in Hpost. cbn [outcomeOf fst] in Hpost.
      vm_compute in Hpost. inversion Hpost; subst st. reflexivity.
  - vm_compute. reflexivity.
Defined.

(* ===================================================================== *)
(** * The index in the file name of a crop *)
(* ===================================================================== *)

Lemma string_app_assoc (a b c : string) : ((a ++ b) ++ c = a ++ b ++ c)%string.
Proof. induction a as [| x a IH]; cbn; [reflexivity | rewrite IH; reflexivity]. Qed.

Lemma endsWith_refl s : endsWith s s = true.
Proof. destruct s; cbn; [reflexivity | rewrite Ascii.eqb_refl, String.eqb_refl; reflexivity]. Qed.

Lemma endsWith_app (a b : string) : endsWith (a ++ b) b = true.
Proof.
  induction a as [| c a IH]; [apply endsWith_refl |].
  cbn [append endsWith]. destruct (String.eqb (String c (a ++ b)) b); [reflexivity | exact IH].
Qed.

(** A path that already ends with the extension is kept as it is; the paths
    built from [cropFileName] and [tileFileName] are such. *)
Lemma finalOutputPathOf_with_extension (stem : string) format :
  finalOutputPathOf (stem ++ "." ++ extensionOf format) format
  = (stem ++ "." ++ extensionOf format)%string.
Proof. unfold finalOutputPathOf. rewrite endsWith_app. reflexivity. Qed.

Lemma finalOutputPathOf_cropFileName (dir : string) k name format :
  finalOutputPathOf (dir ++ cropFileName k name format) format
  = (dir ++ cropFileName k name format)%string.
Proof.
  unfold cropFileName.
  replace (dir ++ "crop_" ++ show_nat k ++ "_" ++ sanitizeName name ++ "." ++ extensionOf format)%string
    with ((dir ++ "crop_" ++ show_nat k ++ "_" ++ sanitizeName name) ++ "." ++ extensionOf format)%string.
  - apply finalOutputPathOf_with_extension.
  - rewrite !string_app_assoc. reflexivity.
Qed.

(** The artifact returned by [encodeToFit] carries the output path the call
    was given, completed by the extension when it lacks it. *)
Lemma encodeToFit_path P i o options region fs img fs' t :
  encodeToFit P i o options region fs = (Ok img, fs', t) ->
  e_path img = finalOutputPathOf o (preferFormat options).
Proof.
  intros Hrun.
  destruct (encodeToFit_summary P i o options region fs) as [l [Hsum [Hprod _]]].
  rewrite Hrun in Hsum.
  destruct (summarised_returns _ _ _ img Hsum eq_refl) as [_ [a [Hin Hres]]].
  rewrite Forall_forall in Hprod. destruct (Hprod a Hin img Hres) as [_ [Hpath _]].
  exact Hpath.
Qed.

Lemma numbered_snoc P o format crops crop :
  numbered P o format crops ->
  c_path crop = cropPathAt P o format (List.length crops) (c_name crop) ->
  numbered P o format (crops ++ [crop]).
Proof.
  intros Hnum Hcrop k c Hk.
  destruct (Nat.lt_ge_cases k (List.length crops)) as [Hlt | Hge].
  - rewrite nth_error_app1 in Hk by exact Hlt. apply Hnum. exact Hk.
  - rewrite nth_error_app2 in Hk by exact Hge.
    destruct (k - List.length crops)%nat as [| n] eqn:Hn.
    + cbn in Hk. inversion Hk; subst c.
      replace k with (List.length crops) by lia. exact Hcrop.
    + destruct n; discriminate.
Qed.

(** The loop keeps [cropIndex] equal to the number of crops collected, and
    the crops numbered. *)
Lemma cropLoop_numbered P i o options regions :
  forall crops cropIndex fs st fs' t,
    cropIndex = List.length crops ->
    numbered P o (co_preferFormat options) crops ->
    forEach regions (cropStep P (encodeToFit P) i o options) (crops, cropIndex) fs
      = (Ok st, fs', t) ->
    snd st = List.length (fst st) /\ numbered P o (co_preferFormat options) (fst st).
Proof.
  induction regions as [| region regions IH]; intros crops cropIndex fs st fs' t Hidx Hnum Hrun.
  - cbn in Hrun. inversion Hrun; subst. cbn. auto.
  - cbn [forEach] in Hrun.
    destruct (encodeCrop P (encodeToFit P) i o options region cropIndex fs)
      as [[[img | e] fs1] t1] eqn:Henc.
    + rewrite (bind_ok _ _ _ _ _ _ (cropStep_ok _ _ _ _ _ _ crops _ _ _ _ _ Henc)) in Hrun.
      match type of Hrun with
      | context [forEach regions ?b (?acc, ?n) fs1] =>
          destruct (forEach regions b (acc, n) fs1) as [[r2 fs2] t2] eqn:Hrest
      end.
      cbn in Hrun. inversion Hrun; subst r2. clear Hrun.
      eapply IH; [| | exact Hrest].
      * rewrite length_app. cbn. lia.
      * apply numbered_snoc; [exact Hnum |]. cbn [c_path c_name].
        unfold encodeCrop in Henc. apply encodeToFit_path in Henc. cbn in Henc.
        rewrite Henc. subst cropIndex. reflexivity.
    + rewrite (bind_ok _ _ _ _ _ _ (cropStep_throw _ _ _ _ _ _ crops _ _ _ _ _ Henc)) in Hrun.
      destruct (forEach regions (cropStep P (encodeToFit P) i o options)
                  (crops, cropIndex) fs1) as [[r2 fs2] t2] eqn:Hrest.
      cbn in Hrun. inversion Hrun; subst r2. clear Hrun.
      eapply IH; [exact Hidx | exact Hnum | exact Hrest].
Qed.

(** C10.  In the sequence returned by [generateCrops] the crop at position
    [k] (the first being at 0) was written to the file
    [crop_<k>_<name>.<ext>] in the output directory: the index in its file
    name is the number of crops encoded before it, so the indices of the
    crops returned are 0, 1, ..., n-1 whether or not regions were dropped in
    between. *)
Theorem generateCrops_file_index_is_position :
  forall P inputPath outputDir options fs crops fs' t,
    generateCrops P (encodeToFit P) inputPath outputDir options fs = (Ok crops, fs', t) ->
    forall k crop,
      nth_error crops k = Some crop ->
      c_path crop =
      finalOutputPathOf
        (path_join P outputDir
           (cropFileName k (c_name crop) (co_preferFormat options)))
        (co_preferFormat options).
Proof.
  intros P i o options fs crops fs' t Hrun.
  unfold generateCrops in Hrun.
  apply bind_inv_ok in Hrun. destruct Hrun as [[W H] [fs0 [t0 [t1 [_ [Hrun _]]]]]].
  apply bind_inv_ok in Hrun. destruct Hrun as [st [fs1 [t2 [t3 [Hloop [Hret _]]]]]].
  unfold ret in Hret. inversion Hret; subst.
  apply (cropLoop_numbered P i o options _ [] 0%nat fs0 st fs' t2) in Hloop.
  - destruct Hloop as [_ Hnum]. exact Hnum.
  - reflexivity.
  - intros k crop Hk. destruct k; discriminate.
Qed.

(** C10 on a platform that cannot encode header and footer: six crops are
    returned, numbered 0 to 5, and two warnings written. *)
Lemma generateCrops_file_index_is_position_witness :
  CropScenario.pathsOf CropScenario.sixCrops =
    ["out/crops/crop_0_top_left.webp"; "out/crops/crop_1_top_right.webp";
     "out/crops/crop_2_center.webp"; "out/crops/crop_3_bottom_right.webp";
     "out/crops/crop_4_left_edge.webp"; "out/crops/crop_5_right_edge.webp"]%string /\
  List.length (warningsOf (traceOf CropScenario.sixCrops)) = 2%nat /\
  exists crops crop,
    outcomeOf CropScenario.sixCrops = Ok crops /\
    nth_error crops 3 = Some crop /\
    c_name crop = "bottom_right"%string /\
    c_path crop =
    finalOutputPathOf
      (Demo.join "out/crops" (cropFileName 3 (c_name crop) webp)) webp.
Proof.
  split; [vm_compute; reflexivity |]. split; [vm_compute; reflexivity |].
  do 2 eexists. split; [vm_compute; reflexivity |].
  split; [reflexivity |]. split; [reflexivity |].
  eapply (generateCrops_file_index_is_position CropScenario.lenient "source.png" "out/crops"
            CropScenario.defaults Scenario.disk).
  - apply run_as. vm_compute. reflexivity.
  - reflexivity.
Defined.

(* ===================================================================== *)
(** * The dimensions an artifact reports *)
(* ===================================================================== *)

(** On every platform: the [width] and [height] of the artifact returned by
    [encodeToFit] are the answer of [metadata()] for the pipeline, asked
    before the pipeline is written; [bytes] is the size of the file found at
    the path after [toFile]. *)
Lemma encodeToFit_artifact_is_measured P i o options region fs best :
  outcomeOf (encodeToFit P i o options region fs) = Ok best ->
  measuredArtifact P best.
Proof.
  intros Hbest.
  destruct (encodeToFit_summary P i o options region fs) as [l [Hsum [Hprod _]]].
  destruct (summarised_returns _ _ _ best Hsum Hbest) as [_ [a [Hin Hres]]].
  rewrite Forall_forall in Hprod. destruct (Hprod a Hin best Hres) as [_ [_ [_ Hm]]].
  exact Hm.
Qed.

(** C9, on the code.  With [sharp] as documented ([metadata()] reads the
    header of the input and ignores the queued [extract] and [resize]), the
    artifact returned for a 1536 x 720 region of the 3840 x 2160 image
    reports [width = 3840] and [height = 2160], the dimensions of the source,
    while the file written is 1536 x 864; its [bytes] is the size of that
    file. *)
Theorem encodeToFit_reports_source_dimensions :
  exists img f,
    outcomeOf ReportScenario.tile_1_0 = Ok img /\
    files (fsOf ReportScenario.tile_1_0) (e_path img) = Some f /\
    e_bytes img = f_size f /\
    (e_width img, e_height img) = (3840, 2160) /\
    (f_width f, f_height f) = (1536, 864).
Proof. do 2 eexists. vm_compute. repeat split. Qed.

(* ===================================================================== *)
(** * Further properties *)
(* ===================================================================== *)

(** Properties of the same code beyond the claims of the specification,
    each read off the source. *)

(** ** Rounding and comparing scaled integers *)

Lemma js_round_scaled n p d :
  js_round (inject_Z n * (p # d)) = (2 * (n * p) + Z.pos d) / (2 * Z.pos d).
Proof.
  unfold js_round, Qfloor, Qplus, Qmult, inject_Z. cbn [Qnum Qden].
  rewrite Pos.mul_1_l, Pos2Z.inj_mul. f_equal; lia.
Qed.

Lemma js_round_half n : js_round (inject_Z n / 2) = (n + 1) / 2.
Proof.
  unfold js_round, Qfloor, Qdiv, Qinv, Qplus, Qmult, inject_Z. cbn.
  replace (n * 1 * 2 + 2) with (2 * (n + 1)) by lia.
  change 4 with (2 * 2). apply Z.div_mul_cancel_l; lia.
Qed.

Lemma Qgeb_scaled a m p d :
  Qgeb (inject_Z a) (inject_Z m * (p # d)) = (m * p <=? a * Z.pos d).
Proof.
  unfold Qgeb, Qle_bool, Qmult, inject_Z. cbn [Qnum Qden].
  rewrite Pos.mul_1_l. f_equal; lia.
Qed.

Ltac crop_arith :=
  rewrite ?js_round_scaled, ?js_round_half, ?Qgeb_scaled in *;
  repeat match goal with
         | H : (_ && _)%bool = true |- _ => apply andb_prop in H; destruct H
         | H : (_ <=? _) = true |- _ => apply Z.leb_le in H
         | H : (_ <? _) = true |- _ => apply Z.ltb_lt in H
         | H : (_ <? _) = false |- _ => apply Z.ltb_ge in H
         end.

Lemma In_optional {A} (c : bool) (x y : A) :
  In y (if c then [x] else []) -> c = true /\ y = x.
Proof. destruct c; cbn; intros H; [destruct H as [H | []]; auto | destruct H]. Qed.

(** ** The crop regions *)

(** X12.  For a positive [minSize], every region [generateCropRegions]
    returns lies inside the image and has a positive width and height: the
    rectangle handed to [sharp.extract] for a crop is never empty and never
    reaches beyond the image. *)
Theorem generateCropRegions_regions_inside_image :
  forall W H minSize r,
    0 < minSize ->
    In r (generateCropRegions W H minSize) ->
    inBounds W H (cropRect r) /\ 0 < cr_w r /\ 0 < cr_h r.
Proof.
  intros W H m r Hm Hin. unfold generateCropRegions in Hin.
  destruct ((W <? m) || (H <? m))%bool eqn:Hsmall; [destruct Hin |].
  apply orb_false_elim in Hsmall. destruct Hsmall as [HW HH].
  apply Z.ltb_ge in HW, HH.
  cbv zeta in Hin. rewrite !pushIf_app in Hin. cbn [app] in Hin.
  repeat (apply in_app_or in Hin; destruct Hin as [Hin | Hin]);
    apply In_optional in Hin; destruct Hin as [Hc ->];
    unfold inBounds, cropRect; cbn [cr_x cr_y cr_w cr_h r_left r_top r_width r_height];
    crop_arith; Z.to_euclidean_division_equations; lia.
Qed.

Lemma generateCropRegions_regions_inside_image_witness :
  List.length (generateCropRegions 2000 1000 400) = 8%nat /\
  Forall (fun r => inBounds 2000 1000 (cropRect r) /\ 0 < cr_w r /\ 0 < cr_h r)
    (generateCropRegions 2000 1000 400).
Proof.
  split; [reflexivity |]. apply Forall_forall. intros r Hin.
  apply (generateCropRegions_regions_inside_image 2000 1000 400 r); [lia | exact Hin].
Defined.

(** X13.  For a positive [minSize], [generateCropRegions] returns no region
    exactly when the image is narrower or lower than [minSize]; in every
    other case the square "center" region is among those it returns
    (its size, the rounded 60 percent of the shorter side capped at
    [minSize], is never below half of [minSize]). *)
Theorem generateCropRegions_always_has_center :
  forall W H minSize,
    0 < minSize ->
    (generateCropRegions W H minSize = [] <-> W < minSize \/ H < minSize) /\
    (minSize <= W -> minSize <= H ->
     exists r, In r (generateCropRegions W H minSize) /\
               cr_name r = "center"%string /\ cr_w r = cr_h r).
Proof.
  intros W H m Hm.
  unfold generateCropRegions.
  destruct ((W <? m) || (H <? m))%bool eqn:Hsmall.
  - apply orb_true_iff in Hsmall. rewrite !Z.ltb_lt in Hsmall.
    split; [tauto | lia].
  - apply orb_false_elim in Hsmall. destruct Hsmall as [HW HH].
    apply Z.ltb_ge in HW, HH.
    cbv zeta. rewrite !pushIf_app. cbn [app].
    assert (Hc : Qgeb (inject_Z (Z.min m (js_round (inject_Z (Z.min W H) * (6 # 10)))))
                   (inject_Z m * (5 # 10)) = true).
    { rewrite Qgeb_scaled, js_round_scaled. apply Z.leb_le.
      Z.to_euclidean_division_equations. lia. }
    rewrite Hc.
    match goal with
    | |- (?l = [] <-> _) /\ _ =>
        assert (Hin : exists r, In r l /\ cr_name r = "center"%string /\ cr_w r = cr_h r)
    end.
    { eexists. split.
      - do 4 (apply in_or_app; left). apply in_or_app; right. left. reflexivity.
      - split; reflexivity. }
    split; [| intros _ _; exact Hin].
    split; [| lia].
    intros Hnil. destruct Hin as [r [Hr _]]. rewrite Hnil in Hr. destruct Hr.
Qed.

Lemma generateCropRegions_always_has_center_witness :
  (generateCropRegions 800 768 768 = [] <-> 800 < 768 \/ 768 < 768) /\
  map cr_name (generateCropRegions 800 768 768) = ["center"]%string /\
  exists r, In r (generateCropRegions 800 768 768) /\
            cr_name r = "center"%string /\ cr_w r = cr_h r.
Proof.
  pose proof (generateCropRegions_always_has_center 800 768 768 ltac:(lia)) as [Hnil Hcenter].
  split; [exact Hnil |]. split; [reflexivity |]. apply Hcenter; lia.
Defined.

(** ** [sanitizeName] *)

Lemma replaceRuns_chars inRun s : allChars fileNameChar (replaceRuns inRun s) = true.
Proof.
  revert inRun. induction s as [| c s IH]; intros inRun; cbn; [reflexivity |].
  destruct (is_lower_or_digit c) eqn:Hc.
  - cbn. unfold fileNameChar at 1. rewrite Hc. cbn. apply IH.
  - destruct inRun; [apply IH |]. cbn. apply IH.
Qed.

(** After a replaced character the output does not start with an underscore. *)
Lemma replaceRuns_true_head s :
  match replaceRuns true s with
  | String c _ => is_lower_or_digit c = true
  | EmptyString => True
  end.
Proof.
  induction s as [| c s IH]; cbn; [exact I |].
  destruct (is_lower_or_digit c) eqn:Hc; [exact Hc | exact IH].
Qed.

Lemma replaceRuns_noRun inRun s : noUnderscoreRun (replaceRuns inRun s) = true.
Proof.
  revert inRun. induction s as [| c s IH]; intros inRun; [reflexivity |].
  cbn [replaceRuns].
  destruct (is_lower_or_digit c) eqn:Hc.
  - specialize (IH false). cbn [noUnderscoreRun].
    destruct (replaceRuns false s) as [| c2 s2] eqn:Hs; [reflexivity |].
    rewrite IH, andb_true_r.
    destruct (Ascii.eqb_spec c "_") as [-> | Hne]; [discriminate Hc | reflexivity].
  - destruct inRun; [apply IH |].
    specialize (IH true). pose proof (replaceRuns_true_head s) as Hh.
    cbn [noUnderscoreRun].
    destruct (replaceRuns true s) as [| c2 s2] eqn:Hs; [reflexivity |].
    rewrite IH, andb_true_r.
    destruct (Ascii.eqb_spec c2 "_") as [-> | Hne]; [discriminate Hh |].
    rewrite andb_false_r. reflexivity.
Qed.

(** X16.  Whatever the name, [sanitizeName] returns a string of lower-case
    letters, digits and underscores only, without two underscores in a row,
    and no longer than the name. *)
Theorem sanitizeName_is_file_safe :
  forall name,
    allChars fileNameChar (sanitizeName name) = true /\
    noUnderscoreRun (sanitizeName name) = true /\
    (String.length (sanitizeName name) <= String.length name)%nat.
Proof.
  intros name. unfold sanitizeName. split; [apply replaceRuns_chars |].
  split; [apply replaceRuns_noRun |].
  assert (Hlen : forall s, String.length (toLowerCase s) = String.length s).
  { induction s; cbn; congruence. }
  rewrite <- (Hlen name). generalize (toLowerCase name) as s. clear.
  intros s. generalize false as b. induction s as [| c s IH]; intros b; cbn; [lia |].
  destruct (is_lower_or_digit c); [cbn; specialize (IH false); lia |].
  destruct b; [specialize (IH true); lia | cbn; specialize (IH true); lia].
Qed.

(* idempotence *)
Lemma toLowerCase_ascii_fixed c : fileNameChar c = true -> toLowerCase_ascii c = c.
Proof.
  unfold fileNameChar, is_lower_or_digit, toLowerCase_ascii. intros H.
  destruct ((65 <=? nat_of_ascii c) && (nat_of_ascii c <=? 90))%nat eqn:Hup; [| reflexivity].
  exfalso. apply andb_prop in Hup. destruct Hup as [H1 H2].
  apply Nat.leb_le in H1, H2.
  apply orb_prop in H. destruct H as [H | H].
  - apply orb_prop in H. destruct H as [H | H]; apply andb_prop in H; destruct H as [H3 H4];
      apply Nat.leb_le in H3, H4; lia.
  - apply Ascii.eqb_eq in H. subst c. vm_compute in H2. lia.
Qed.

Lemma toLowerCase_fixed s : allChars fileNameChar s = true -> toLowerCase s = s.
Proof.
  induction s as [| c s IH]; cbn; [reflexivity |]. intros H.
  apply andb_prop in H. destruct H as [Hc Hs].
  rewrite (toLowerCase_ascii_fixed c Hc), (IH Hs). reflexivity.
Qed.

Lemma replaceRuns_fixed s :
  allChars fileNameChar s = true -> noUnderscoreRun s = true ->
  replaceRuns false s = s /\
  (match s with String c _ => is_lower_or_digit c = true | EmptyString => True end ->
   replaceRuns true s = s).
Proof.
  induction s as [| c s IH]; [cbn; auto |].
  intros Hall Hno. cbn [allChars] in Hall. apply andb_prop in Hall. destruct Hall as [Hc Hs].
  assert (Hno' : noUnderscoreRun s = true).
  { cbn [noUnderscoreRun] in Hno. destruct s; [reflexivity |].
    apply andb_prop in Hno. tauto. }
  destruct (IH Hs Hno') as [IHf IHt].
  cbn [replaceRuns]. destruct (is_lower_or_digit c) eqn:Hl.
  - rewrite IHf. auto.
  - split; [| discriminate].
    unfold fileNameChar in Hc. rewrite Hl in Hc. cbn in Hc. apply Ascii.eqb_eq in Hc. subst c.
    rewrite IHt; [reflexivity |].
    destruct s as [| c2 s2]; [exact I |].
    cbn [noUnderscoreRun] in Hno. apply andb_prop in Hno. destruct Hno as [Hno _].
    cbn in Hno. cbn [allChars] in Hs. apply andb_prop in Hs. destruct Hs as [Hc2 _].
    unfold fileNameChar in Hc2.
    destruct (Ascii.eqb c2 "_"); [discriminate Hno |].
    rewrite orb_false_r in Hc2. exact Hc2.
Qed.

(** X17.  [sanitizeName] is idempotent: a sanitized name is left as it
    is. *)
Theorem sanitizeName_idempotent :
  forall name, sanitizeName (sanitizeName name) = sanitizeName name.
Proof.
  intros name.
  pose proof (replaceRuns_chars false (toLowerCase name)) as Hc.
  pose proof (replaceRuns_noRun false (toLowerCase name)) as Hn.
  unfold sanitizeName at 1. fold (sanitizeName name) in *.
  rewrite (toLowerCase_fixed _ Hc).
  apply (replaceRuns_fixed _ Hc Hn).
Qed.

(** ** The tiles *)

(** One axis of [tileRegion]: the extent of the tile at index [k] of [n]. *)
Lemma axis_extent len tilePx overlapPx k :
  overlapPx < tilePx ->
  let stride := strideOf tilePx overlapPx in
  let n := ceil_div (len - overlapPx) stride in
  0 <= k < n ->
  let extent := if k =? n - 1 then len - k * stride else Z.min tilePx (len - k * stride) in
  overlapPx < extent <= tilePx /\ (k < n - 1 -> extent = tilePx).
Proof.
  intros Hov stride n Hk extent.
  assert (Hs : 0 < stride) by (unfold stride, strideOf; lia).
  pose proof (ceil_div_bounds (len - overlapPx) stride Hs) as Hn. fold n in Hn.
  assert (Hst : stride = tilePx - overlapPx) by reflexivity.
  subst extent.
  destruct (Z.eqb_spec k (n - 1)) as [-> | Hne].
  - split; [nia | lia].
  - assert (Hk' : (k + 1) * stride <= (n - 1) * stride) by nia.
    split; [| intros _]; lia.
Qed.

(** One axis of [tileRegion]: the tiles at the indices [k] and [k + 1]. *)
Lemma axis_overlap len tilePx overlapPx k :
  overlapPx < tilePx ->
  let stride := strideOf tilePx overlapPx in
  let n := ceil_div (len - overlapPx) stride in
  0 <= k -> k + 1 < n ->
  let origin' :=
    if (k + 1 =? n - 1) && (1 <? n) then Z.max 0 (len - tilePx) else (k + 1) * stride in
  let extent' :=
    if k + 1 =? n - 1 then len - (k + 1) * stride
    else Z.min tilePx (len - (k + 1) * stride) in
  ((if (k =? n - 1) && (1 <? n) then Z.max 0 (len - tilePx) else k * stride) = k * stride /\
   (if k =? n - 1 then len - k * stride else Z.min tilePx (len - k * stride)) = tilePx) /\
  overlapsBy overlapPx (k * stride) tilePx origin' extent' /\
  (k + 1 < n - 1 -> origin' + overlapPx = k * stride + tilePx).
Proof.
  intros Hov stride n Hk0 Hk1.
  assert (Hs : 0 < stride) by (unfold stride, strideOf; lia).
  pose proof (ceil_div_bounds (len - overlapPx) stride Hs) as Hn. fold n in Hn.
  assert (Hst : stride = tilePx - overlapPx) by reflexivity.
  assert (E1 : (k =? n - 1) = false) by (apply Z.eqb_neq; lia).
  assert (E3 : (1 <? n) = true) by (apply Z.ltb_lt; lia).
  assert (Hk' : (k + 1) * stride <= (n - 1) * stride) by nia.
  rewrite E1, E3. cbn [andb]. rewrite andb_true_r.
  unfold overlapsBy.
  destruct (Z.eqb_spec (k + 1) (n - 1)) as [Hlast | Hne]; cbv zeta.
  - assert (Hk : k = n - 2) by lia. subst k.
    replace (n - 2 + 1) with (n - 1) in * by lia.
    assert ((n - 2) * stride = (n - 1) * stride - stride) by lia.
    assert (0 <= (n - 2) * stride) by nia.
    repeat split; lia.
  - assert (Hk'' : (k + 2) * stride <= (n - 1) * stride) by nia.
    assert ((k + 2) * stride = (k + 1) * stride + stride) by lia.
    assert ((k + 1) * stride = k * stride + stride) by lia.
    repeat split; lia.
Qed.

(** One axis of [tileRegion]: the positions some tile reaches. *)
Lemma axis_coverage len tilePx overlapPx x :
  0 <= overlapPx < tilePx -> overlapPx < len ->
  let stride := strideOf tilePx overlapPx in
  let n := ceil_div (len - overlapPx) stride in
  let origin := fun k =>
    if (k =? n - 1) && (1 <? n) then Z.max 0 (len - tilePx) else k * stride in
  let extent := fun k =>
    if k =? n - 1 then len - k * stride else Z.min tilePx (len - k * stride) in
  (exists k, 0 <= k < n /\ origin k <= x < origin k + extent k) <->
  0 <= x < len - uncovered len tilePx overlapPx.
Proof.
  intros Hov Hlen stride n origin extent.
  assert (Hs : 0 < stride) by (unfold stride, strideOf; lia).
  pose proof (ceil_div_bounds (len - overlapPx) stride Hs) as Hn. fold n in Hn.
  assert (Hst : stride = tilePx - overlapPx) by reflexivity.
  assert (Hn1 : 1 <= n) by (apply ceil_div_positive; lia).
  unfold uncovered. fold stride. fold n. cbv zeta.
  assert (Hinner : forall k, 0 <= k < n - 1 ->
            origin k = k * stride /\ extent k = tilePx /\ (k + 1) * stride <= (n - 1) * stride).
  { intros k Hk. unfold origin, extent.
    assert (E : (k =? n - 1) = false) by (apply Z.eqb_neq; lia). rewrite E. cbn [andb].
    assert ((k + 1) * stride <= (n - 1) * stride) by nia.
    repeat split; lia. }
  assert (Hlast : 1 < n -> origin (n - 1) = len - tilePx /\
                           extent (n - 1) = len - (n - 1) * stride).
  { intros H1. unfold origin, extent. rewrite Z.eqb_refl.
    assert (E : (1 <? n) = true) by (apply Z.ltb_lt; lia). rewrite E. cbn [andb].
    assert (stride <= (n - 1) * stride) by nia.
    split; lia. }
  destruct (Z.leb_spec n 1) as [Hone | Hmany].
  - assert (n = 1) by lia.
    assert (Ho : origin 0 = 0 /\ extent 0 = len).
    { unfold origin, extent. replace (n - 1) with 0 by lia. cbn.
      assert (E : (1 <? n) = false) by (apply Z.ltb_ge; lia). rewrite E. split; lia. }
    destruct Ho as [Ho He]. split.
    + intros [k [Hk Hx]]. assert (k = 0) by lia. subst k. lia.
    + intros Hx. exists 0. lia.
  - destruct (Hlast Hmany) as [Hol Hel].
    assert (Hbig : stride <= (n - 1) * stride) by nia.
    split.
    + intros [k [Hk Hx]].
      destruct (Z.eq_dec k (n - 1)) as [-> | Hne].
      * rewrite Hol, Hel in Hx. lia.
      * destruct (Hinner k ltac:(lia)) as [Ho [He Hle]]. rewrite Ho, He in Hx.
        assert (0 <= k * stride) by nia. lia.
    + intros Hx.
      destruct (Z.lt_ge_cases x ((n - 1) * stride)) as [Hlow | Hhigh].
      * exists (x / stride).
        pose proof (Z.div_mod x stride ltac:(lia)) as Hdm.
        pose proof (Z.mod_pos_bound x stride Hs) as Hmod.
        assert (Hq0 : 0 <= x / stride) by (apply Z.div_pos; lia).
        assert (Hq1 : x / stride < n - 1) by nia.
        destruct (Hinner (x / stride) ltac:(lia)) as [Ho [He _]].
        rewrite Ho, He. split; [lia |]. nia.
      * destruct (Z.lt_ge_cases x ((n - 1) * stride + overlapPx)) as [Hmid | Hfar].
        -- exists (n - 2).
           destruct (Hinner (n - 2) ltac:(lia)) as [Ho [He _]].
           rewrite Ho, He. split; [lia |].
           assert ((n - 2) * stride = (n - 1) * stride - stride) by lia. lia.
        -- exists (n - 1). rewrite Hol, Hel. split; lia.
Qed.

Lemma grid_flat_map {B} (f : Z -> Z -> B) rows cols :
  flat_map (fun row => flat_map (fun col => [f row col]) (upto cols)) (upto rows) =
  map (fun cell => f (fst cell) (snd cell)) (gridCells rows cols).
Proof.
  unfold gridCells. generalize (upto rows) as rs. generalize (upto cols) as cs.
  intros cs rs. induction rs as [| r rs IH]; cbn; [reflexivity |].
  rewrite map_app, IH. f_equal.
  clear IH. induction cs as [| c cs IHc]; cbn; [reflexivity |]. f_equal. exact IHc.
Qed.

Lemma tileStep_path P i o options W H row col tiles fs tiles' fs' t :
  tileStep P (encodeToFit P) i o options W H row col tiles fs = (Ok tiles', fs', t) ->
  map t_path tiles' =
  map t_path tiles ++ [tilePathAt P o (to_preferFormat options) (row, col)].
Proof.
  unfold tileStep. intros Hrun. apply bind_inv_ok in Hrun.
  destruct Hrun as [encoded [fs1 [t1 [t2 [Henc [Hret _]]]]]].
  unfold ret in Hret. inversion Hret; subst.
  unfold encodeTile in Henc. apply encodeToFit_path in Henc.
  rewrite map_app, Henc. reflexivity.
Qed.

(** X6.  With the repository's [encodeToFit] as the encoder, the tiles
    returned by [generateTiles] come in row-major order of the grid: the
    k-th tile has the region of the k-th cell [(row, col)] and was written to
    the file [tile_<row>_<col>.<ext>] of the output directory. *)
Theorem generateTiles_row_major :
  forall P inputPath outputDir options fs W H fs0 t0 tiles fs' t,
    readDimensions P inputPath outputDir fs = (Ok (W, H), fs0, t0) ->
    generateTiles P (encodeToFit P) inputPath outputDir options fs = (Ok tiles, fs', t) ->
    let cells := gridCells (rowsOf H (tilePx options) (overlapPx options))
                           (colsOf W (tilePx options) (overlapPx options)) in
    map t_path tiles = map (tilePathAt P outputDir (to_preferFormat options)) cells /\
    map tileRect tiles =
      map (fun cell => tileRegion W H (tilePx options) (overlapPx options)
                         (fst cell) (snd cell)) cells.
Proof.
  intros P i o options fs W H fs0 t0 tiles fs' t Hdims Hrun cells. split.
  - unfold generateTiles in Hrun.
    rewrite (bind_ok _ _ _ _ _ _ Hdims) in Hrun. cbn iota in Hrun.
    match type of Hrun with
    | (outcomeOf ?r, fsOf ?r, _ ++ traceOf ?r) = _ =>
        destruct r as [[r1 fs1] t1] eqn:Hloop
    end.
    cbn in Hrun. inversion Hrun; subst. clear Hrun.
    apply (forEach_collect (map t_path)
             (fun row => flat_map (fun col =>
                           [tilePathAt P o (to_preferFormat options) (row, col)])
                         (upto (colsOf W (tilePx options) (overlapPx options))))) in Hloop.
    + cbn [map app] in Hloop. rewrite Hloop.
      apply (grid_flat_map (fun row col => tilePathAt P o (to_preferFormat options) (row, col))).
    + intros row acc fsa acc' fsb tb Hinner.
      apply (forEach_collect (map t_path)
               (fun col => [tilePathAt P o (to_preferFormat options) (row, col)]))
        in Hinner; [exact Hinner |].
      intros col acc1 fsc acc2 fsd td Hstep. eapply tileStep_path; eauto.
  - rewrite (generateTiles_rects _ _ _ _ _ _ _ _ _ _ _ _ _ Hdims Hrun).
    unfold gridRegions. apply grid_flat_map.
Qed.

Lemma generateTiles_row_major_witness :
  exists tiles,
    outcomeOf TileScenario.readme = Ok tiles /\
    gridCells 2 3 = [(0, 0); (0, 1); (0, 2); (1, 0); (1, 1); (1, 2)] /\
    map t_path tiles =
      ["out/tiles/tile_0_0.webp"; "out/tiles/tile_0_1.webp"; "out/tiles/tile_0_2.webp";
       "out/tiles/tile_1_0.webp"; "out/tiles/tile_1_1.webp"; "out/tiles/tile_1_2.webp"]%string /\
    map tileRect tiles =
      map (fun cell => tileRegion 3840 2160 1536 96 (fst cell) (snd cell)) (gridCells 2 3).
Proof.
  eexists. split; [vm_compute; reflexivity |]. split; [reflexivity |].
  eapply (generateTiles_row_major Scenario.steady "source.png" "out/tiles"
            TileScenario.defaults Scenario.disk 3840 2160).
  - apply run_is. vm_compute. reflexivity.
  - apply run_is. vm_compute. reflexivity.
Defined.

(** X7.  With [overlapPx < tilePx], every tile [generateTiles] returns has
    a region more than [overlapPx] and at most [tilePx] wide, and more than
    [overlapPx] and at most [tilePx] high; with a non-negative overlap no
    tile is empty. *)
Theorem generateTiles_tile_sizes :
  forall P enc inputPath outputDir options fs W H fs0 t0 tiles fs' t,
    readDimensions P inputPath outputDir fs = (Ok (W, H), fs0, t0) ->
    overlapPx options < tilePx options ->
    generateTiles P enc inputPath outputDir options fs = (Ok tiles, fs', t) ->
    Forall (fun tile =>
              overlapPx options < t_w tile <= tilePx options /\
              overlapPx options < t_h tile <= tilePx options) tiles.
Proof.
  intros P enc i o options fs W H fs0 t0 tiles fs' t Hdims Hov Hrun.
  pose proof (generateTiles_rects _ _ _ _ _ _ _ _ _ _ _ _ _ Hdims Hrun) as Hrects.
  apply Forall_forall. intros tile Hin.
  assert (Hr : In (tileRect tile) (gridRegions W H (tilePx options) (overlapPx options))).
  { rewrite <- Hrects. apply in_map. exact Hin. }
  apply gridRegions_in in Hr. destruct Hr as [row [col [Hrow [Hcol Heq]]]].
  pose proof (axis_extent W _ _ col Hov Hcol) as [Hw _].
  pose proof (axis_extent H _ _ row Hov Hrow) as [Hh _].
  assert (Ew : t_w tile = r_width (tileRect tile)) by reflexivity.
  assert (Eh : t_h tile = r_height (tileRect tile)) by reflexivity.
  rewrite Ew, Eh, Heq. unfold tileRegion. cbn [r_width r_height].
  split; assumption.
Qed.

Lemma generateTiles_tile_sizes_witness :
  exists tiles,
    outcomeOf TileScenario.readme = Ok tiles /\
    map t_w tiles = [1536; 1536; 960; 1536; 1536; 960] /\
    Forall (fun tile => 96 < t_w tile <= 1536 /\ 96 < t_h tile <= 1536) tiles.
Proof.
  eexists. split; [vm_compute; reflexivity |]. split; [reflexivity |].
  eapply (generateTiles_tile_sizes Scenario.steady (encodeToFit Scenario.steady)
            "source.png" "out/tiles" TileScenario.defaults Scenario.disk 3840 2160).
  - apply run_is. vm_compute. reflexivity.
  - cbn. lia.
  - apply run_is. vm_compute. reflexivity.
Defined.

(** X8.  With [overlapPx < tilePx], the regions of two cells next to each
    other in a row share at least [overlapPx] columns: the right one starts
    later, at least [overlapPx] before the left one ends, and is more than
    [overlapPx] wide; they have the same top and height.  Likewise for two
    cells next to each other in a column.  This holds for the re-anchored
    tiles of the last column and row too. *)
Theorem tileRegion_neighbours_overlap :
  forall W H tilePx overlapPx row col,
    overlapPx < tilePx ->
    let a := tileRegion W H tilePx overlapPx row col in
    (0 <= col -> col + 1 < colsOf W tilePx overlapPx ->
     let b := tileRegion W H tilePx overlapPx row (col + 1) in
     overlapsBy overlapPx (r_left a) (r_width a) (r_left b) (r_width b) /\
     r_top a = r_top b /\ r_height a = r_height b) /\
    (0 <= row -> row + 1 < rowsOf H tilePx overlapPx ->
     let b := tileRegion W H tilePx overlapPx (row + 1) col in
     overlapsBy overlapPx (r_top a) (r_height a) (r_top b) (r_height b) /\
     r_left a = r_left b /\ r_width a = r_width b).
Proof.
  intros W H T O row col Hov a. split.
  - intros H0 H1 b.
    pose proof (axis_overlap W T O col Hov H0 H1) as [[Ex Ew] [Hover _]].
    subst a b. unfold tileRegion. cbn [r_left r_top r_width r_height].
    fold (colsOf W T O) in Ex, Ew, Hover. rewrite Ex, Ew.
    split; [exact Hover |]. split; reflexivity.
  - intros H0 H1 b.
    pose proof (axis_overlap H T O row Hov H0 H1) as [[Ey Eh] [Hover _]].
    subst a b. unfold tileRegion. cbn [r_left r_top r_width r_height].
    fold (rowsOf H T O) in Ey, Eh, Hover. rewrite Ey, Eh.
    split; [exact Hover |]. split; reflexivity.
Qed.

Lemma tileRegion_neighbours_overlap_witness :
  (let a := tileRegion 3840 2160 1536 96 0 1 in
   let b := tileRegion 3840 2160 1536 96 0 2 in
   (r_left a, r_width a, r_left b, r_width b) = (1440, 1536, 2304, 960) /\
   overlapsBy 96 (r_left a) (r_width a) (r_left b) (r_width b)) /\
  (let a := tileRegion 3840 2160 1536 96 0 1 in
   let b := tileRegion 3840 2160 1536 96 1 1 in
   (r_top a, r_height a, r_top b, r_height b) = (0, 1536, 624, 720) /\
   overlapsBy 96 (r_top a) (r_height a) (r_top b) (r_height b)).
Proof.
  pose proof (tileRegion_neighbours_overlap 3840 2160 1536 96 0 1 ltac:(lia)) as [Hrow Hcol].
  split.
  - split; [reflexivity |].
    apply (Hrow ltac:(lia) ltac:(vm_compute; reflexivity)).
  - split; [reflexivity |].
    apply (Hcol ltac:(lia) ltac:(vm_compute; reflexivity)).
Defined.

(** X9.  With [0 <= overlapPx < tilePx] and an image wider and higher
    than the overlap, the pixels that lie in some tile returned by
    [generateTiles] are exactly those left of and above two strips at the
    far edges: a strip [uncovered W] wide at the right and one [uncovered H]
    high at the bottom.  On an axis with a single tile the strip is empty;
    with [n > 1] tiles it is [min(d, stride - d)] wide, where
    [d = length - overlapPx - (n - 1) * stride], which is 0 only when the
    tiles fit the axis exactly. *)
Theorem generateTiles_coverage :
  forall P enc inputPath outputDir options fs W H fs0 t0 tiles fs' t,
    readDimensions P inputPath outputDir fs = (Ok (W, H), fs0, t0) ->
    0 <= overlapPx options < tilePx options ->
    overlapPx options < W -> overlapPx options < H ->
    generateTiles P enc inputPath outputDir options fs = (Ok tiles, fs', t) ->
    forall x y,
      (exists tile, In tile tiles /\ contains (tileRect tile) x y) <->
      0 <= x < W - uncovered W (tilePx options) (overlapPx options) /\
      0 <= y < H - uncovered H (tilePx options) (overlapPx options).
Proof.
  intros P enc i o options fs W H fs0 t0 tiles fs' t Hdims Hov HW HH Hrun x y.
  pose proof (generateTiles_rects _ _ _ _ _ _ _ _ _ _ _ _ _ Hdims Hrun) as Hrects.
  pose proof (axis_coverage W _ _ x Hov HW) as Hx.
  pose proof (axis_coverage H _ _ y Hov HH) as Hy.
  cbv zeta in Hx, Hy.
  fold (colsOf W (tilePx options) (overlapPx options)) in Hx.
  fold (rowsOf H (tilePx options) (overlapPx options)) in Hy.
  rewrite <- Hx, <- Hy. clear Hx Hy. split.
  - intros [tile [Hin [Hcx Hcy]]].
    assert (Hr : In (tileRect tile) (gridRegions W H (tilePx options) (overlapPx options))).
    { rewrite <- Hrects. apply in_map. exact Hin. }
    apply gridRegions_in in Hr. destruct Hr as [row [col [Hrow [Hcol Heq]]]].
    rewrite Heq in Hcx, Hcy. unfold tileRegion in Hcx, Hcy.
    cbn [r_left r_top r_width r_height] in Hcx, Hcy.
    split; [exists col | exists row]; split; assumption.
  - intros [[col [Hcol Hcx]] [row [Hrow Hcy]]].
    assert (Hr : In (tileRegion W H (tilePx options) (overlapPx options) row col)
                    (map tileRect tiles)).
    { rewrite Hrects. apply gridRegions_in. exists row, col. auto. }
    apply in_map_iff in Hr. destruct Hr as [tile [Heq Hin]].
    exists tile. split; [exact Hin |]. rewrite Heq.
    unfold contains, tileRegion. cbn [r_left r_top r_width r_height].
    split; assumption.
Qed.

Lemma generateTiles_coverage_witness :
  uncovered 3840 1536 96 = 576 /\ uncovered 2160 1536 96 = 624 /\
  exists tiles,
    outcomeOf TileScenario.readme = Ok tiles /\
    (exists tile, In tile tiles /\ contains (tileRect tile) 3263 1535) /\
    ~ (exists tile, In tile tiles /\ contains (tileRect tile) 3264 0).
Proof.
  split; [reflexivity |]. split; [reflexivity |].
  eexists. split; [vm_compute; reflexivity |].
  match goal with
  | |- (exists tile, In tile ?tiles /\ _) /\ _ =>
      pose proof (generateTiles_coverage Scenario.steady (encodeToFit Scenario.steady)
                    "source.png" "out/tiles" TileScenario.defaults Scenario.disk
                    3840 2160 (fsOf (readDimensions Scenario.steady "source.png" "out/tiles"
                                       Scenario.disk)) []
                    tiles (fsOf TileScenario.readme) (traceOf TileScenario.readme)
                    ltac:(vm_compute; reflexivity)
                    ltac:(cbn; lia) ltac:(cbn; lia) ltac:(cbn; lia)
                    ltac:(apply run_is; vm_compute; reflexivity)) as Hcover
  end.
  change (uncovered 3840 (tilePx TileScenario.defaults) (overlapPx TileScenario.defaults))
    with 576 in Hcover.
  change (uncovered 2160 (tilePx TileScenario.defaults) (overlapPx TileScenario.defaults))
    with 624 in Hcover.
  split.
  - apply Hcover. lia.
  - intros Hin. apply Hcover in Hin. lia.
Defined.

Lemma ceil_div_negative_stride a b : b < 0 -> 0 <= a -> ceil_div a b <= 0.
Proof.
  intros Hb Ha. unfold ceil_div.
  Z.to_euclidean_division_equations. nia.
Qed.

Lemma forEach_idle {A S} (xs : list A) (body : A -> S -> M S) acc fs :
  (forall x, In x xs -> body x acc fs = (Ok acc, fs, [])) ->
  forEach xs body acc fs = (Ok acc, fs, []).
Proof.
  induction xs as [| x xs IH]; intros Hbody; [reflexivity |].
  cbn [forEach]. rewrite (bind_ok _ _ _ _ _ _ (Hbody x (or_introl eq_refl))).
  rewrite IH by (intros y Hy; apply Hbody; right; exact Hy). reflexivity.
Qed.

(** X10.  When [overlapPx] is larger than [tilePx] (the stride is
    negative; the server's input schema does not exclude it) and the image
    is at least [overlapPx] wide or high, [generateTiles] returns an empty
    list: the grid has no column or no row, the encoder is never called and
    nothing is reported. *)
Theorem generateTiles_overlap_above_tile_size :
  forall P enc inputPath outputDir options fs W H fs0 t0,
    readDimensions P inputPath outputDir fs = (Ok (W, H), fs0, t0) ->
    tilePx options < overlapPx options ->
    overlapPx options <= W \/ overlapPx options <= H ->
    generateTiles P enc inputPath outputDir options fs = (Ok [], fs0, t0).
Proof.
  intros P enc i o options fs W H fs0 t0 Hdims Hneg Hbig.
  unfold generateTiles. rewrite (bind_ok _ _ _ _ _ _ Hdims). cbn iota.
  assert (Hs : strideOf (tilePx options) (overlapPx options) < 0)
    by (unfold strideOf; lia).
  assert (Hloop :
    forEach (upto (rowsOf H (tilePx options) (overlapPx options)))
      (fun row tiles =>
         forEach (upto (colsOf W (tilePx options) (overlapPx options)))
           (fun col tiles => tileStep P enc i o options W H row col tiles) tiles)
      [] fs0 = (Ok [], fs0, [])).
  { destruct Hbig as [HW | HH].
    - apply forEach_idle. intros row _.
      rewrite upto_nonpositive; [reflexivity |].
      apply ceil_div_negative_stride; [exact Hs | lia].
    - rewrite upto_nonpositive; [reflexivity |].
      apply ceil_div_negative_stride; [exact Hs | lia]. }
  rewrite Hloop. cbn. rewrite app_nil_r. reflexivity.
Qed.

Lemma generateTiles_overlap_above_tile_size_witness :
  colsOf 3840 96 1536 = -1 /\
  outcomeOf EdgeScenario.noTiles = Ok [] /\
  traceOf EdgeScenario.noTiles = [].
Proof.
  split; [reflexivity |].
  unfold EdgeScenario.noTiles.
  rewrite (generateTiles_overlap_above_tile_size Scenario.steady (encodeToFit Scenario.steady)
             "source.png" "out/tiles" EdgeScenario.reversed Scenario.disk 3840 2160
             (fsOf (readDimensions Scenario.steady "source.png" "out/tiles" Scenario.disk)) []
             ltac:(vm_compute; reflexivity) ltac:(cbn; lia) ltac:(cbn; lia)).
  split; reflexivity.
Defined.

(** ** The search of [encodeToFit], on record *)

Lemma Subseq_empty {A} (m : list A) : Subseq [] m.
Proof. induction m; constructor; assumption. Qed.

Lemma Subseq_refl {A} (m : list A) : Subseq m m.
Proof. induction m; constructor; assumption. Qed.

Lemma Subseq_app {A} (l1 m1 l2 m2 : list A) :
  Subseq l1 m1 -> Subseq l2 m2 -> Subseq (l1 ++ l2) (m1 ++ m2).
Proof. intros H1 H2. induction H1; cbn; [assumption | |]; constructor; assumption. Qed.

Lemma Subseq_prefix {A} (l rest : list A) : Subseq l (l ++ rest).
Proof.
  rewrite <- (app_nil_r l) at 1. apply Subseq_app; [apply Subseq_refl | apply Subseq_empty].
Qed.


Lemma Subseq_In {A} (l m : list A) x : Subseq l m -> In x l -> In x m.
Proof.
  induction 1; cbn; [tauto | |]; intros Hin.
  - destruct Hin; [left | right]; auto.
  - right; auto.
Qed.

Section SearchLog.

Variable maxBytes : Z.

(** What the quality loop leaves on record: the attempts run down the
    levels from the first one, each with the result of the body at its own
    quality; when the loop hands on nothing within the budget, it ended on a
    throw or on the last level. *)
Lemma qualityLoop_log (body : Z -> M EncodedImage) s :
  (forall q, silent (body q)) ->
  forall levels best fs,
  exists l,
    yields maxBytes (qualityLoop maxBytes body s levels best fs) best l /\
    (exists rest, map (pair s) levels = map paramsOf l ++ rest) /\
    Forall (fun a => exists fs1, a_result a = outcomeOf (body (a_quality a) fs1)) l /\
    (levels <> [] -> withinBudget maxBytes (lastSuccessFrom best l) = false ->
     exists a, In a l /\ a_scale a = s /\
               (isThrow (a_result a) = true \/ a_quality a = last levels 0)).
Proof.
  intros Hs. induction levels as [| q levels IH]; intros best fs.
  - exists []. repeat split; auto. + exists []. reflexivity. + intros H; contradiction.
  - cbn [qualityLoop].
    rewrite (bind_ok _ _ _ _ _ _ (tryAttempt_run s q (body q) fs (Hs q))).
    assert (Hbody : exists fs1, outcomeOf (body q fs) = outcomeOf (body q fs1))
      by (exists fs; reflexivity).
    destruct (outcomeOf (body q fs)) as [img | e].
    + destruct (e_bytes img <=? maxBytes) eqn:Hfit.
      * exists [ {| a_scale := s; a_quality := q; a_result := Ok img |} ].
        unfold yields, fits. cbn. rewrite Hfit.
        repeat split; auto; try discriminate.
        exists (map (pair s) levels). reflexivity.
      * destruct (IH (Some img) (fsOf (body q fs))) as [l [[Ht [Ho Hstop]] [[rest Hpre] [Hall Hend]]]].
        exists ({| a_scale := s; a_quality := q; a_result := Ok img |} :: l).
        unfold yields, fits. cbn. rewrite Ht, Ho, Hfit.
        repeat split; auto; try discriminate.
        -- exists rest. unfold paramsOf at 1. cbn. rewrite Hpre. reflexivity.
        -- intros _ Hw. destruct levels as [| q' levels'].
           ++ eexists. split; [left; reflexivity |]. cbn. auto.
           ++ destruct (Hend ltac:(discriminate) Hw) as [a [Hin [Hsc Ha]]].
              exists a. split; [right; exact Hin |]. split; [exact Hsc |].
              exact Ha.
    + exists [ {| a_scale := s; a_quality := q; a_result := Throw e |} ].
      unfold yields, fits. cbn.
      repeat split; auto; try discriminate.
      * exists (map (pair s) levels). reflexivity.
      * intros _ _. eexists. split; [left; reflexivity |]. cbn. auto.
Qed.

(** What the scale loop leaves on record: the attempts go down the ladder
    of scales, at each scale down the quality levels; when the loop hands on
    nothing within the budget, every scale of the ladder was exhausted. *)
Lemma scaleLoop_log (body : Q -> Z -> M EncodedImage) :
  (forall s q, silent (body s q)) ->
  forall candidates s best fs,
  exists l,
    yields maxBytes (scaleLoop maxBytes body candidates s best fs) best l /\
    Subseq (map paramsOf l) (flat_map rung (scaleLadder s candidates)) /\
    Forall (fun a => exists fs1,
              a_result a = outcomeOf (body (a_scale a) (a_quality a) fs1)) l /\
    (withinBudget maxBytes (lastSuccessFrom best l) = false ->
     Forall (exhausted l) (scaleLadder s candidates)).
Proof.
  intros Hs. induction candidates as [| c candidates IH]; intros s best fs.
  - exists []. repeat split; auto. constructor.
  - cbn [scaleLoop scaleLadder flat_map].
    destruct (qualityLoop_log (body (Qmin s c)) (Qmin s c) (Hs (Qmin s c))
                qualityLevels best fs) as [l1 [[Ht1 [Ho1 Hstop1]] [[rest Hpre1] [Hall1 Hend1]]]].
    destruct (qualityLoop maxBytes (body (Qmin s c)) (Qmin s c) qualityLevels best fs)
      as [[r1 fs1] t1] eqn:Hrun1.
    cbn in Ht1, Ho1. subst r1 t1.
    rewrite (bind_ok _ _ _ _ _ _ Hrun1).
    assert (Hscales : Forall (fun a => a_scale a = Qmin s c) l1).
    { apply Forall_forall. intros a Hin.
      assert (Hp : In (paramsOf a) (map (pair (Qmin s c)) qualityLevels)).
      { rewrite Hpre1. apply in_or_app. left. apply in_map. exact Hin. }
      apply in_map_iff in Hp. destruct Hp as [q [Hq _]].
      unfold paramsOf in Hq. inversion Hq. reflexivity. }
    assert (Hbodies : Forall (fun a => exists fs1,
              a_result a = outcomeOf (body (a_scale a) (a_quality a) fs1)) l1).
    { apply Forall_forall. intros a Hin.
      rewrite Forall_forall in Hall1, Hscales.
      rewrite (Hscales a Hin). apply Hall1. exact Hin. }
    assert (Hsub1 : Subseq (map paramsOf l1) (rung (Qmin s c))).
    { unfold rung. rewrite Hpre1. apply Subseq_prefix. }
    destruct (withinBudget maxBytes (lastSuccessFrom best l1)) eqn:Hwithin.
    + exists l1. split; [| split; [| split]].
      * unfold yields. cbn. rewrite app_nil_r. repeat split; auto.
      * rewrite <- (app_nil_r (map paramsOf l1)).
        apply Subseq_app; [exact Hsub1 | apply Subseq_empty].
      * exact Hbodies.
      * intros Hw. congruence.
    + destruct (IH (Qmin s c) (lastSuccessFrom best l1) fs1)
        as [l2 [[Ht2 [Ho2 Hstop2]] [Hsub2 [Hall2 Hend2]]]].
      exists (l1 ++ l2). split; [| split; [| split]].
      * unfold yields. cbn. rewrite Ht2, Ho2, !map_app, lastSuccessFrom_app.
        repeat split; auto.
        apply stopsAtFit_app; auto. intros Hex.
        destruct (withinBudget_fits maxBytes l1 best Hstop1 Hex) as [Hw _]. congruence.
      * rewrite map_app. apply Subseq_app; assumption.
      * apply Forall_app. split; assumption.
      * rewrite lastSuccessFrom_app. intros Hw. constructor.
        -- destruct (Hend1 ltac:(discriminate) eq_refl) as [a [Hin [Hsc Ha]]].
           exists a. split; [apply in_or_app; left; exact Hin |]. split; [exact Hsc |].
           exact Ha.
        -- eapply Forall_impl; [| exact (Hend2 Hw)].
           intros s' [a [Hin Ha]]. exists a. split; [apply in_or_app; right; exact Hin | exact Ha].
Qed.

(** The whole search, on record. *)
Lemma searchToFit_log (qualityBody scaleBody : Q -> Z -> M EncodedImage) s0 :
  (forall s q, silent (qualityBody s q)) ->
  (forall s q, silent (scaleBody s q)) ->
  forall fs,
  exists l,
    let run := searchToFit maxBytes qualityBody scaleBody s0 fs in
    traceOf run = map EvAttempt l /\
    outcomeOf run = match lastSuccess l with
                    | Some img => Ok img
                    | None => Throw (failedToEncode maxBytes)
                    end /\
    stopsAtFit maxBytes l /\
    Subseq (map paramsOf l) (schedule s0) /\
    (exists a rest, l = a :: rest /\ paramsOf a = (s0, 95)) /\
    Forall (fun a => exists fs1,
              a_result a = outcomeOf (qualityBody (a_scale a) (a_quality a) fs1) \/
              (a_result a = outcomeOf (scaleBody (a_scale a) (a_quality a) fs1) /\
               In (a_scale a) (scaleLadder s0 scaleFactors))) l /\
    (stillTooBig maxBytes (lastSuccess l) = true ->
     Forall (exhausted l) (s0 :: scaleLadder s0 scaleFactors)).
Proof.
  intros Hq Hs fs. unfold searchToFit.
  destruct (qualityLoop_log (qualityBody s0) s0 (Hq s0) qualityLevels None fs)
    as [l1 [[Ht1 [Ho1 Hstop1]] [[rest Hpre1] [Hall1 Hend1]]]].
  destruct (qualityLoop maxBytes (qualityBody s0) s0 qualityLevels None fs)
    as [[r1 fs1] t1] eqn:Hrun1.
  cbn in Ht1, Ho1. subst r1 t1.
  rewrite (bind_ok _ _ _ _ _ _ Hrun1).
  assert (Hscales : Forall (fun a => a_scale a = s0) l1).
  { apply Forall_forall. intros a Hin.
    assert (Hp : In (paramsOf a) (map (pair s0) qualityLevels)).
    { rewrite Hpre1. apply in_or_app. left. apply in_map. exact Hin. }
    apply in_map_iff in Hp. destruct Hp as [q [Hp _]].
    unfold paramsOf in Hp. inversion Hp. reflexivity. }
  assert (Hbodies : Forall (fun a => exists fs1,
            a_result a = outcomeOf (qualityBody (a_scale a) (a_quality a) fs1) \/
            (a_result a = outcomeOf (scaleBody (a_scale a) (a_quality a) fs1) /\
             In (a_scale a) (scaleLadder s0 scaleFactors))) l1).
  { apply Forall_forall. intros a Hin. rewrite Forall_forall in Hall1, Hscales.
    rewrite (Hscales a Hin). destruct (Hall1 a Hin) as [fs' H]. exists fs'. left. exact H. }
  assert (Hsub1 : Subseq (map paramsOf l1) (rung s0)).
  { unfold rung. rewrite Hpre1. apply Subseq_prefix. }
  assert (Hne1 : l1 <> []).
  { intros ->. cbn in Hend1.
    destruct (Hend1 ltac:(discriminate) eq_refl) as [a [[] _]]. }
  assert (Hhead : forall l2, exists a rest, l1 ++ l2 = a :: rest /\ paramsOf a = (s0, 95)).
  { intros l2. destruct l1 as [| a l1]; [contradiction |].
    exists a, (l1 ++ l2). split; [reflexivity |].
    cbn in Hpre1. inversion Hpre1. unfold paramsOf. congruence. }
  destruct (stillTooBig maxBytes (lastSuccessFrom None l1)) eqn:Hbig.
  - destruct (scaleLoop_log scaleBody Hs scaleFactors s0 (lastSuccessFrom None l1) fs1)
      as [l2 [[Ht2 [Ho2 Hstop2]] [Hsub2 [Hall2 Hend2]]]].
    destruct (scaleLoop maxBytes scaleBody scaleFactors s0 (lastSuccessFrom None l1) fs1)
      as [[r2 fs2] t2] eqn:Hrun2.
    cbn in Ht2, Ho2. subst r2 t2.
    rewrite (bind_ok _ _ _ _ _ _ Hrun2).
    exists (l1 ++ l2). cbn zeta. unfold lastSuccess. rewrite lastSuccessFrom_app.
    assert (Hstop : stopsAtFit maxBytes (l1 ++ l2)).
    { apply stopsAtFit_app; auto. intros Hex.
      destruct (withinBudget_fits maxBytes l1 None Hstop1 Hex) as [_ Hw]. congruence. }
    assert (Hsub : Subseq (map paramsOf (l1 ++ l2)) (schedule s0)).
    { rewrite map_app. apply Subseq_app; assumption. }
    assert (Hall : Forall (fun a => exists fs1,
              a_result a = outcomeOf (qualityBody (a_scale a) (a_quality a) fs1) \/
              (a_result a = outcomeOf (scaleBody (a_scale a) (a_quality a) fs1) /\
               In (a_scale a) (scaleLadder s0 scaleFactors))) (l1 ++ l2)).
    { apply Forall_app; split; auto.
      apply Forall_forall. intros a Hin. rewrite Forall_forall in Hall2.
      destruct (Hall2 a Hin) as [fs' H]. exists fs'. right. split; [exact H |].
      assert (Hp : In (paramsOf a) (flat_map rung (scaleLadder s0 scaleFactors))).
      { eapply Subseq_In; [exact Hsub2 |]. apply in_map. exact Hin. }
      apply in_flat_map in Hp. destruct Hp as [s' [Hs' Hp]].
      unfold rung in Hp. apply in_map_iff in Hp. destruct Hp as [q' [Hp _]].
      unfold paramsOf in Hp. inversion Hp; subst. exact Hs'. }
    assert (Hend : stillTooBig maxBytes (lastSuccessFrom (lastSuccessFrom None l1) l2) = true ->
                   Forall (exhausted (l1 ++ l2)) (s0 :: scaleLadder s0 scaleFactors)).
    { intros Hb.
      assert (Hw1 : withinBudget maxBytes (lastSuccessFrom None l1) = false).
      { destruct (lastSuccessFrom None l1) as [img |]; cbn in *; [| reflexivity].
        apply Z.ltb_lt in Hbig. apply Z.leb_gt. exact Hbig. }
      assert (Hw2 : withinBudget maxBytes (lastSuccessFrom (lastSuccessFrom None l1) l2) = false).
      { destruct (lastSuccessFrom (lastSuccessFrom None l1) l2) as [img |]; cbn in *;
          [| reflexivity].
        apply Z.ltb_lt in Hb. apply Z.leb_gt. exact Hb. }
      constructor.
      - destruct (Hend1 ltac:(discriminate) Hw1) as [a [Hin Ha]].
        exists a. split; [apply in_or_app; left; exact Hin | exact Ha].
      - eapply Forall_impl; [| exact (Hend2 Hw2)].
        intros s' [a [Hin Ha]]. exists a.
        split; [apply in_or_app; right; exact Hin | exact Ha]. }
    split; [| split; [| split; [| split; [| split; [| split]]]]]; auto.
    + cbn. destruct (lastSuccessFrom (lastSuccessFrom None l1) l2);
        cbn; rewrite app_nil_r, map_app; reflexivity.
    + destruct (lastSuccessFrom (lastSuccessFrom None l1) l2); reflexivity.
  - rewrite (bind_ok _ _ _ _ _ _ eq_refl). cbn [ret outcomeOf fsOf traceOf fst snd].
    exists l1. cbn zeta. unfold lastSuccess.
    assert (Hsub : Subseq (map paramsOf l1) (schedule s0)).
    { rewrite <- (app_nil_r (map paramsOf l1)). apply Subseq_app; [exact Hsub1 |].
      apply Subseq_empty. }
    destruct (Hhead []) as [a [rest' [H1 H2]]]. rewrite app_nil_r in H1.
    rewrite Hbig.
    destruct (lastSuccessFrom None l1) as [img |]; [| discriminate].
    split; [| split; [| split; [| split; [| split; [| split]]]]]; auto.
    + cbn. rewrite !app_nil_r. reflexivity.
    + eauto.
    + discriminate.
Qed.

End SearchLog.

Lemma writeAndMeasure_quality P p path format quality s fs img fs' t :
  writeAndMeasure P p path format quality s fs = (Ok img, fs', t) ->
  e_quality img = quality.
Proof.
  unfold writeAndMeasure. intros H.
  apply bind_inv_ok in H. destruct H as [info [fs1 [t1 [t2 [_ [H _]]]]]].
  apply bind_inv_ok in H. destruct H as [u [fs2 [t3 [t4 [_ [H _]]]]]].
  apply bind_inv_ok in H. destruct H as [bytes [fs3 [t5 [t6 [_ [H _]]]]]].
  unfold ret in H. inversion H; subst. reflexivity.
Qed.

Lemma tryEncode_quality P i path s q format maxBytes fs img fs' t :
  tryEncode P i path s q format maxBytes fs = (Ok img, fs', t) ->
  e_quality img = q.
Proof.
  unfold tryEncode. intros H.
  apply bind_inv_ok in H. destruct H as [p [fs1 [t1 [t2 [_ [H _]]]]]].
  apply bind_inv_ok in H. destruct H as [info [fs2 [t3 [t4 [_ [H _]]]]]].
  apply bind_inv_ok in H. destruct H as [u [fs3 [t5 [t6 [_ [H _]]]]]].
  apply bind_inv_ok in H. destruct H as [bytes [fs4 [t7 [t8 [_ [H _]]]]]].
  unfold ret in H. inversion H; subst. reflexivity.
Qed.

Lemma searchToFit_logged maxBytes qualityBody scaleBody s0 fs :
  (forall s q, silent (qualityBody s q)) ->
  (forall s q, silent (scaleBody s q)) ->
  (forall s q fs img fs' t, qualityBody s q fs = (Ok img, fs', t) -> e_quality img = q) ->
  (forall s q fs img fs' t, scaleBody s q fs = (Ok img, fs', t) -> e_quality img = q) ->
  exists l, logged maxBytes s0 (searchToFit maxBytes qualityBody scaleBody s0 fs) l.
Proof.
  intros Hq Hs Hqq Hsq.
  destruct (searchToFit_log maxBytes qualityBody scaleBody s0 Hq Hs fs)
    as [l [Ht [Ho [Hstop [Hsub [Hhead [Hall Hend]]]]]]].
  exists l. unfold logged. repeat (split; [assumption |]). split; [| exact Hend].
  eapply Forall_impl; [| exact Hall]. cbn. intros a [fs1 Hres] img Himg.
  rewrite Himg in Hres.
  destruct Hres as [Hres | [Hres _]].
  - destruct (qualityBody (a_scale a) (a_quality a) fs1) as [[r fs'] t] eqn:Hrun.
    cbn in Hres. subst r. eapply Hqq; eauto.
  - destruct (scaleBody (a_scale a) (a_quality a) fs1) as [[r fs'] t] eqn:Hrun.
    cbn in Hres. subst r. eapply Hsq; eauto.
Qed.

(** Once the directory is there and the dimensions are read, a call is the
    search. *)
Lemma encodeToFit_search P i o options region fs md :
  measured P i o region fs = Ok md ->
  let W := or0 (m_width md) in
  let H := or0 (m_height md) in
  let path := finalOutputPathOf o (preferFormat options) in
  encodeToFit P i o options region fs =
  searchToFit (maxBytes options)
    (qualityPhaseBody P i path region W H (preferFormat options))
    (scalePhaseBody P i path region W H (preferFormat options))
    (initialScale (maxLongEdge options) W H)
    (fsOf (ensureDir P (path_dirname P o) fs)).
Proof.
  unfold encodeToFit, measured.
  pose proof (silent_ensureDir P (path_dirname P o) fs) as Hsil.
  destruct (ensureDir P (path_dirname P o) fs) as [[[[] | e] fs0] t0] eqn:Hdir;
    cbn in Hsil; subst t0; [| discriminate].
  intros Hmd. cbn zeta.
  rewrite (bind_ok _ _ _ _ _ _ Hdir). cbn [app]. rewrite <- run_eta.
  rewrite (bind_ok _ _ fs0 md fs0 []) by (unfold metadata, reading; rewrite Hmd; reflexivity).
  cbn [app]. rewrite <- run_eta. reflexivity.
Qed.

Lemma base_encodeToFit_search P i o options fs md :
  measured P i o None fs = Ok md ->
  let W := or0 (m_width md) in
  let H := or0 (m_height md) in
  let path := finalOutputPathOf o (preferFormat options) in
  let attempt := fun s q => tryEncode P i path s q (preferFormat options) (maxBytes options) in
  base_encodeToFit P i o options fs =
  searchToFit (maxBytes options) attempt attempt
    (initialScale (maxLongEdge options) W H)
    (fsOf (ensureDir P (path_dirname P o) fs)).
Proof.
  unfold base_encodeToFit, measured.
  pose proof (silent_ensureDir P (path_dirname P o) fs) as Hsil.
  destruct (ensureDir P (path_dirname P o) fs) as [[[[] | e] fs0] t0] eqn:Hdir;
    cbn in Hsil; subst t0; [| discriminate].
  cbn [source]. intros Hmd. cbn zeta.
  rewrite (bind_ok _ _ _ _ _ _ Hdir). cbn [app]. rewrite <- run_eta.
  rewrite (bind_ok _ _ fs0 md fs0 []) by (unfold metadata, reading; rewrite Hmd; reflexivity).
  cbn [app]. rewrite <- run_eta. reflexivity.
Qed.

(** When the directory cannot be made or the dimensions cannot be read, the
    call throws that error and no attempt is made. *)
Lemma encodeToFit_unmeasured P i o options region fs e :
  measured P i o region fs = Throw e ->
  outcomeOf (encodeToFit P i o options region fs) = Throw e /\
  traceOf (encodeToFit P i o options region fs) = [].
Proof.
  unfold encodeToFit, measured.
  pose proof (silent_ensureDir P (path_dirname P o) fs) as Hsil.
  destruct (ensureDir P (path_dirname P o) fs) as [[[[] | e'] fs0] t0] eqn:Hdir;
    cbn in Hsil; subst t0; intros Hmd.
  - rewrite (bind_ok _ _ _ _ _ _ Hdir). cbn [app]. rewrite <- run_eta.
    rewrite (bind_throw _ _ fs0 e fs0 []) by (unfold metadata, reading; rewrite Hmd; reflexivity).
    auto.
  - rewrite (bind_throw _ _ _ _ _ _ Hdir). inversion Hmd; subst. auto.
Qed.

Lemma base_encodeToFit_unmeasured P i o options fs e :
  measured P i o None fs = Throw e ->
  outcomeOf (base_encodeToFit P i o options fs) = Throw e /\
  traceOf (base_encodeToFit P i o options fs) = [].
Proof.
  unfold base_encodeToFit, measured.
  pose proof (silent_ensureDir P (path_dirname P o) fs) as Hsil.
  destruct (ensureDir P (path_dirname P o) fs) as [[[[] | e'] fs0] t0] eqn:Hdir;
    cbn in Hsil; subst t0; cbn [source]; intros Hmd.
  - rewrite (bind_ok _ _ _ _ _ _ Hdir). cbn [app]. rewrite <- run_eta.
    rewrite (bind_throw _ _ fs0 e fs0 []) by (unfold metadata, reading; rewrite Hmd; reflexivity).
    auto.
  - rewrite (bind_throw _ _ _ _ _ _ Hdir). inversion Hmd; subst. auto.
Qed.

Lemma encodeToFit_logged P i o options region fs md :
  measured P i o region fs = Ok md ->
  exists l,
    logged (maxBytes options)
      (initialScale (maxLongEdge options) (or0 (m_width md)) (or0 (m_height md)))
      (encodeToFit P i o options region fs) l.
Proof.
  intros Hmd. rewrite (encodeToFit_search P i o options region fs md Hmd).
  apply searchToFit_logged.
  - intros; apply silent_qualityPhaseBody.
  - intros; apply silent_scalePhaseBody.
  - intros s q fs1 img fs' t. unfold qualityPhaseBody. apply writeAndMeasure_quality.
  - intros s q fs1 img fs' t. unfold scalePhaseBody. apply writeAndMeasure_quality.
Qed.

Lemma base_encodeToFit_logged P i o options fs md :
  measured P i o None fs = Ok md ->
  exists l,
    logged (maxBytes options)
      (initialScale (maxLongEdge options) (or0 (m_width md)) (or0 (m_height md)))
      (base_encodeToFit P i o options fs) l.
Proof.
  intros Hmd. rewrite (base_encodeToFit_search P i o options fs md Hmd).
  apply searchToFit_logged.
  - intros; apply silent_tryEncode.
  - intros; apply silent_tryEncode.
  - intros s q fs1 img fs' t. apply tryEncode_quality.
  - intros s q fs1 img fs' t. apply tryEncode_quality.
Qed.


Lemma schedule_quality s0 s q : In (s, q) (schedule s0) -> In q qualityLevels.
Proof.
  unfold schedule. intros Hin. apply in_app_or in Hin.
  assert (Hrung : forall s', In (s, q) (rung s') -> In q qualityLevels).
  { intros s' H. unfold rung in H. apply in_map_iff in H. destruct H as [q' [Heq Hq]].
    inversion Heq; subst. exact Hq. }
  destruct Hin as [Hin | Hin]; [eapply Hrung; eauto |].
  apply in_flat_map in Hin. destruct Hin as [s' [_ Hin]]. eapply Hrung; eauto.
Qed.

Lemma logged_attempts maxBytes s0 run l : logged maxBytes s0 run l -> attemptsOf (traceOf run) = l.
Proof. intros [Ht _]. rewrite Ht. apply attemptsOf_map. Qed.


Lemma logged_givesUpLast maxBytes maxLongEdge md run l :
  logged maxBytes (initialScale maxLongEdge (or0 (m_width md)) (or0 (m_height md))) run l ->
  givesUpLast maxBytes maxLongEdge md run.
Proof.
  intros Hlog. unfold givesUpLast. cbv zeta.
  rewrite (logged_attempts _ _ _ _ Hlog).
  destruct Hlog as [_ [Ho [_ [_ [_ [_ Hend]]]]]].
  rewrite Ho.
  destruct (lastSuccess l) as [img |]; [| right; apply Hend; reflexivity].
  cbn in Hend. destruct (Z.ltb_spec maxBytes (e_bytes img)) as [Hlt | Hle].
  - right. apply Hend. reflexivity.
  - left. exact Hle.
Qed.

Lemma logged_startsAtBest maxBytes maxLongEdge md run l :
  logged maxBytes (initialScale maxLongEdge (or0 (m_width md)) (or0 (m_height md))) run l ->
  startsAtBest maxBytes maxLongEdge md run.
Proof.
  intros Hlog. unfold startsAtBest. cbv zeta.
  rewrite (logged_attempts _ _ _ _ Hlog).
  destruct Hlog as [_ [Ho [Hstop [_ [[a [rest [-> Hp]]] _]]]]].
  exists a, rest. unfold paramsOf in Hp. inversion Hp as [[Hs Hq]].
  split; [reflexivity |]. split; [reflexivity |]. split; [reflexivity |].
  intros Hfit. destruct Hstop as [Hrest _]. specialize (Hrest Hfit). subst rest.
  split; [reflexivity |]. rewrite Ho. unfold lastSuccess. cbn.
  unfold fits in Hfit. destruct (a_result a); [reflexivity | discriminate].
Qed.

Lemma finalOutputPathOf_endsWith o format :
  endsWith (finalOutputPathOf o format) ("." ++ extensionOf format) = true.
Proof.
  unfold finalOutputPathOf.
  destruct (endsWith o ("." ++ extensionOf format)) eqn:He; [exact He |].
  apply endsWith_app.
Qed.

Lemma logged_wellFormed P maxLongEdge md o options run l best :
  logged (maxBytes options)
    (initialScale maxLongEdge (or0 (m_width md)) (or0 (m_height md))) run l ->
  Forall (producedBy P o options) l ->
  outcomeOf run = Ok best ->
  wellFormedArtifact o options best.
Proof.
  intros Hlog Hprod Hbest.
  destruct Hlog as [_ [Ho [_ [Hsub [_ [Hq _]]]]]].
  rewrite Hbest in Ho.
  destruct (lastSuccess l) as [img |] eqn:Hlast; [| discriminate].
  inversion Ho; subst img. clear Ho.
  apply lastSuccessFrom_in in Hlast. destruct Hlast as [Hlast | [a [Hin Hres]]];
    [discriminate |].
  rewrite Forall_forall in Hprod, Hq.
  destruct (Hprod a Hin best Hres) as [_ [Hpath [Hfmt _]]].
  unfold wellFormedArtifact. rewrite Hpath.
  split; [reflexivity |]. split; [apply finalOutputPathOf_endsWith |].
  split; [exact Hfmt |].
  rewrite (Hq a Hin best Hres).
  eapply (schedule_quality _ (a_scale a)).
  eapply Subseq_In; [exact Hsub |].
  change (a_scale a, a_quality a) with (paramsOf a). apply in_map. exact Hin.
Qed.



(** X2.  Once the dimensions are read, the first attempt of a call is made
    at the initial scale and at quality 95; when the file it writes is
    within [maxBytes], it is the only attempt and its artifact is the one
    returned.  Both versions of the method. *)
Theorem encodeToFit_starts_at_best_quality :
  forall P inputPath outputPath options fs md,
    (forall region,
       measured P inputPath outputPath region fs = Ok md ->
       startsAtBest (maxBytes options) (maxLongEdge options) md
         (encodeToFit P inputPath outputPath options region fs)) /\
    (measured P inputPath outputPath None fs = Ok md ->
     startsAtBest (maxBytes options) (maxLongEdge options) md
       (base_encodeToFit P inputPath outputPath options fs)).
Proof.
  intros P i o options fs md. split.
  - intros region Hmd.
    destruct (encodeToFit_logged P i o options region fs md Hmd) as [l Hlog].
    eapply logged_startsAtBest; eauto.
  - intros Hmd.
    destruct (base_encodeToFit_logged P i o options fs md Hmd) as [l Hlog].
    eapply logged_startsAtBest; eauto.
Qed.

Lemma encodeToFit_starts_at_best_quality_witness :
  startsAtBest 1500000 4096 EdgeScenario.header Scenario.fitsAt70 /\
  startsAtBest 1500000 4096 EdgeScenario.header
    (base_encodeToFit Scenario.steady "source.png" "out/source_overview.webp"
       (Scenario.budget 1500000) Scenario.disk).
Proof.
  pose proof (encodeToFit_starts_at_best_quality Scenario.steady "source.png"
                "out/source_overview.webp" (Scenario.budget 1500000) Scenario.disk
                EdgeScenario.header) as [Hregion Hbase].
  split.
  - apply (Hregion None). vm_compute. reflexivity.
  - apply Hbase. vm_compute. reflexivity.
Defined.

(** X3.  Once the dimensions are read, a call gives up on the budget (it
    throws, or it returns an artifact above [maxBytes]) only when every
    scale, the initial one and the nine of the ladder, has been run down to
    an attempt that threw or to an attempt at quality 20.  Both versions of
    the method. *)
Theorem encodeToFit_gives_up_after_every_scale :
  forall P inputPath outputPath options fs md,
    (forall region,
       measured P inputPath outputPath region fs = Ok md ->
       givesUpLast (maxBytes options) (maxLongEdge options) md
         (encodeToFit P inputPath outputPath options region fs)) /\
    (measured P inputPath outputPath None fs = Ok md ->
     givesUpLast (maxBytes options) (maxLongEdge options) md
       (base_encodeToFit P inputPath outputPath options fs)).
Proof.
  intros P i o options fs md. split.
  - intros region Hmd.
    destruct (encodeToFit_logged P i o options region fs md Hmd) as [l Hlog].
    eapply logged_givesUpLast; eauto.
  - intros Hmd.
    destruct (base_encodeToFit_logged P i o options fs md Hmd) as [l Hlog].
    eapply logged_givesUpLast; eauto.
Qed.

Lemma encodeToFit_gives_up_after_every_scale_witness :
  (exists best, outcomeOf Scenario.overBudget = Ok best /\ e_bytes best = 1000) /\
  givesUpLast 100 4096 EdgeScenario.header Scenario.overBudget /\
  isThrow (outcomeOf Scenario.neverEncodes) = true /\
  givesUpLast 4000000 4096 EdgeScenario.header Scenario.neverEncodes.
Proof.
  split; [eexists; split; vm_compute; reflexivity |].
  split; [| split; [reflexivity |]].
  - apply (proj1 (encodeToFit_gives_up_after_every_scale Scenario.bumpy "source.png"
                    "out/source_overview.webp" (Scenario.budget 100) Scenario.disk
                    EdgeScenario.header) None).
    vm_compute. reflexivity.
  - apply (proj1 (encodeToFit_gives_up_after_every_scale Scenario.broken "source.png"
                    "out/source_overview.webp" (Scenario.budget 4000000) Scenario.disk
                    EdgeScenario.header) None).
    vm_compute. reflexivity.
Defined.

(** X4.  Every artifact a call of [encodeToFit] returns has the path
    [finalOutputPath] (the output path, completed by the extension of the
    format unless it ends with it already), which ends in ".webp" or ".jpg"
    according to [preferFormat]; its format is [preferFormat] and its
    quality is one of the sixteen levels of the ladder.  Both versions of
    the method. *)
Theorem encodeToFit_artifact_is_well_formed :
  forall P inputPath outputPath options fs best,
    (forall region,
       outcomeOf (encodeToFit P inputPath outputPath options region fs) = Ok best ->
       wellFormedArtifact outputPath options best) /\
    (outcomeOf (base_encodeToFit P inputPath outputPath options fs) = Ok best ->
     wellFormedArtifact outputPath options best).
Proof.
  intros P i o options fs best. split.
  - intros region Hbest.
    destruct (measured P i o region fs) as [md | e] eqn:Hmd.
    + destruct (encodeToFit_logged P i o options region fs md Hmd) as [l Hlog].
      destruct (encodeToFit_summary P i o options region fs) as [l' [Hsum [Hprod _]]].
      rewrite <- (summarised_attempts _ _ _ Hsum) in Hprod.
      rewrite (logged_attempts _ _ _ _ Hlog) in Hprod.
      eapply logged_wellFormed; eauto.
    + destruct (encodeToFit_unmeasured P i o options region fs e Hmd) as [Ho _].
      congruence.
  - intros Hbest.
    destruct (measured P i o None fs) as [md | e] eqn:Hmd.
    + destruct (base_encodeToFit_logged P i o options fs md Hmd) as [l Hlog].
      destruct (base_encodeToFit_summary P i o options fs) as [l' [Hsum [Hprod _]]].
      rewrite <- (summarised_attempts _ _ _ Hsum) in Hprod.
      rewrite (logged_attempts _ _ _ _ Hlog) in Hprod.
      eapply logged_wellFormed; eauto.
    + destruct (base_encodeToFit_unmeasured P i o options fs e Hmd) as [Ho _].
      congruence.
Qed.

Lemma encodeToFit_artifact_is_well_formed_witness :
  exists best,
    outcomeOf Scenario.fitsAt70 = Ok best /\
    e_path best = "out/source_overview.webp"%string /\
    wellFormedArtifact "out/source_overview.webp" (Scenario.budget 1500000) best.
Proof.
  eexists. split; [vm_compute; reflexivity |]. split; [reflexivity |].
  apply (proj1 (encodeToFit_artifact_is_well_formed Scenario.steady "source.png"
                  "out/source_overview.webp" (Scenario.budget 1500000) Scenario.disk _) None).
  vm_compute. reflexivity.
Defined.

(** ** The long edge *)

Lemma js_round_le q m : (q <= inject_Z m)%Q -> js_round q <= m.
Proof.
  intros Hq. unfold js_round.
  assert (Hm : Qfloor (inject_Z m + (1 # 2)) = m).
  { unfold Qfloor, Qplus, inject_Z. cbn.
    replace (m * 2 + 1) with (1 + m * 2) by lia.
    rewrite Z.div_add by lia. reflexivity. }
  apply Z.le_trans with (Qfloor (inject_Z m + (1 # 2))); [| rewrite Hm; lia].
  apply Qfloor_resp_le. lra.
Qed.

Lemma inject_Z_nonneg z : 0 <= z -> (0 <= inject_Z z)%Q.
Proof. intros Hz. change (inject_Z 0 <= inject_Z z)%Q. rewrite <- Zle_Qle. exact Hz. Qed.

Lemma inject_Z_positive z : 0 < z -> (0 < inject_Z z)%Q.
Proof. intros Hz. change (inject_Z 0 < inject_Z z)%Q. rewrite <- Zlt_Qlt. exact Hz. Qed.

(** A scale at most the initial one brings a side of the image within
    [maxLongEdge], when the scale is below 1 or the image is too long. *)
Lemma scaled_side_within maxLongEdge W H side s :
  0 < maxLongEdge -> 0 <= side <= Z.max W H ->
  (s <= initialScale maxLongEdge W H)%Q ->
  (inject_Z side * s <= inject_Z maxLongEdge)%Q \/
  ((1 <= s)%Q /\ Z.max W H <= maxLongEdge).
Proof.
  intros Hm Hside Hs. unfold initialScale in Hs.
  pose proof (inject_Z_nonneg side ltac:(lia)) as Hside0.
  pose proof (inject_Z_positive maxLongEdge Hm) as HM.
  destruct (Z.ltb_spec maxLongEdge (Z.max W H)) as [Hlong | Hshort].
  - left. set (L := Z.max W H) in *.
    pose proof (inject_Z_positive L ltac:(lia)) as HL.
    assert (HsL : (inject_Z side <= inject_Z L)%Q) by (rewrite <- Zle_Qle; lia).
    apply Qle_trans with (inject_Z side * (inject_Z maxLongEdge / inject_Z L))%Q.
    + nra.
    + setoid_replace (inject_Z side * (inject_Z maxLongEdge / inject_Z L))%Q
        with ((inject_Z side * inject_Z maxLongEdge) / inject_Z L)%Q
        by (field; intros H0; rewrite H0 in HL; apply (Qlt_irrefl 0); exact HL).
      apply Qle_shift_div_r; [exact HL | nra].
  - destruct (Qlt_le_dec s 1) as [Hlt | Hge].
    + left. assert (HsM : (inject_Z side <= inject_Z maxLongEdge)%Q)
        by (rewrite <- Zle_Qle; lia).
      nra.
    + right. split; assumption.
Qed.

Lemma writeAndMeasure_written P p path format quality s fs img fs' t :
  writeAndMeasure P p path format quality s fs = (Ok img, fs', t) ->
  e_path img = path /\ e_quality img = quality /\
  exists fs2, sharp_toFile P p path fs = (Ok tt, fs2).
Proof.
  unfold writeAndMeasure. intros H.
  apply bind_inv_ok in H. destruct H as [info [fs1 [t1 [t2 [Hmeta [H _]]]]]].
  apply metadata_inv_ok in Hmeta. destruct Hmeta as [_ ->].
  apply bind_inv_ok in H. destruct H as [u [fs2 [t3 [t4 [Hwrite [H _]]]]]].
  apply toFile_inv_ok in Hwrite.
  apply bind_inv_ok in H. destruct H as [bytes [fs3 [t5 [t6 [_ [H _]]]]]].
  unfold ret in H. inversion H; subst. cbn. eauto.
Qed.

Lemma scaleLadder_below candidates :
  Forall (fun c => (c < 1)%Q) candidates ->
  forall s0 s, In s (scaleLadder s0 candidates) -> (s < 1)%Q.
Proof.
  induction 1 as [| c candidates Hc _ IH]; intros s0 s Hin; [destruct Hin |].
  cbn in Hin. destruct Hin as [<- | Hin].
  - eapply Qle_lt_trans; [apply Q.le_min_r | exact Hc].
  - eapply IH; eauto.
Qed.

Lemma source_fields i region :
  p_input (source i region) = i /\ p_extract (source i region) = region /\
  p_resize (source i region) = None.
Proof. destruct region; cbn; auto. Qed.

Lemma Z_le_of_scaled side m s :
  0 <= side -> (1 <= s)%Q -> (inject_Z side * s <= inject_Z m)%Q -> side <= m.
Proof.
  intros Hside Hs Hle. pose proof (inject_Z_nonneg side Hside) as H0.
  rewrite Zle_Qle. nra.
Qed.

(** X19.  For a positive [maxLongEdge] and non-negative dimensions read
    from the image, the artifact [encodeToFit] returns was written by a
    pipeline on the input file, with the region asked for, in the format
    asked for and at the quality the artifact reports, whose target is
    within [maxLongEdge]: it is resized to a width and a height of at most
    [maxLongEdge], or it is not resized and the dimensions read are both
    within [maxLongEdge].  (Method of tiles.js.) *)
Theorem encodeToFit_honours_maxLongEdge :
  forall P inputPath outputPath options region fs md best,
    measured P inputPath outputPath region fs = Ok md ->
    let W := or0 (m_width md) in
    let H := or0 (m_height md) in
    0 <= W -> 0 <= H -> 0 < maxLongEdge options ->
    outcomeOf (encodeToFit P inputPath outputPath options region fs) = Ok best ->
    writtenWithin P inputPath region options W H best.
Proof.
  intros P i o options region fs md best Hmd W H HW HH HM Hbest.
  rewrite (encodeToFit_search P i o options region fs md Hmd) in Hbest.
  cbv zeta in Hbest. fold W H in Hbest.
  set (path := finalOutputPathOf o (preferFormat options)) in *.
  set (s0 := initialScale (maxLongEdge options) W H) in *.
  set (fs0 := fsOf (ensureDir P (path_dirname P o) fs)) in *.
  destruct (searchToFit_log (maxBytes options)
              (qualityPhaseBody P i path region W H (preferFormat options))
              (scalePhaseBody P i path region W H (preferFormat options)) s0
              ltac:(intros; apply silent_qualityPhaseBody)
              ltac:(intros; apply silent_scalePhaseBody) fs0)
    as [l [Ht [Ho [_ [_ [_ [Hall _]]]]]]].
  destruct (searchToFit_spec (maxBytes options)
              (qualityPhaseBody P i path region W H (preferFormat options))
              (scalePhaseBody P i path region W H (preferFormat options)) s0
              ltac:(intros; apply silent_qualityPhaseBody)
              ltac:(intros; apply silent_scalePhaseBody) fs0)
    as [l' [Ht' [_ [_ [Hdesc _]]]]].
  cbv zeta in Ht, Ho, Ht'.
  assert (l' = l).
  { rewrite <- (attemptsOf_map l), <- (attemptsOf_map l'). congruence. }
  subst l'.
  rewrite Hbest in Ho.
  destruct (lastSuccess l) as [img |] eqn:Hlast; [| discriminate].
  inversion Ho; subst img. clear Ho.
  apply lastSuccessFrom_in in Hlast. destruct Hlast as [Hlast | [a [Hin Hres]]];
    [discriminate |].
  apply descending_le in Hdesc. rewrite Forall_forall in Hdesc, Hall.
  specialize (Hdesc a Hin). destruct (Hall a Hin) as [fs1 Hbody].
  rewrite Hres in Hbody.
  pose proof (scaled_side_within (maxLongEdge options) W H W (a_scale a) HM
                ltac:(lia) Hdesc) as HsW.
  pose proof (scaled_side_within (maxLongEdge options) W H H (a_scale a) HM
                ltac:(lia) Hdesc) as HsH.
  destruct (source_fields i region) as [Hi [He Hr]].
  destruct Hbody as [Hbody | [Hbody Hladder]].
  - unfold qualityPhaseBody in Hbody.
    match type of Hbody with
    | _ = outcomeOf (writeAndMeasure _ ?p _ _ _ _ _) => set (pipe := p) in *
    end.
    destruct (writeAndMeasure P pipe path (preferFormat options) (a_quality a) (a_scale a) fs1)
      as [[r fs'] t] eqn:Hrun.
    cbn in Hbody. subst r.
    destruct (writeAndMeasure_written _ _ _ _ _ _ _ _ _ _ Hrun) as [Hp [Hq [fs2 Hw]]].
    exists pipe, fs1, fs2. rewrite Hp, Hq.
    split; [exact Hw |]. unfold pipe, targetWithin.
    destruct (Qltb (a_scale a) 1) eqn:Hlt; cbn [toFormat resize p_input p_extract p_output p_resize].
    + repeat split; auto.
      * destruct HsW as [HsW | [Hge _]]; [apply js_round_le; exact HsW |].
        unfold Qltb in Hlt. apply negb_true_iff in Hlt.
        apply Qle_bool_iff in Hge. congruence.
      * destruct HsH as [HsH | [Hge _]]; [apply js_round_le; exact HsH |].
        unfold Qltb in Hlt. apply negb_true_iff in Hlt.
        apply Qle_bool_iff in Hge. congruence.
    + rewrite Hr. repeat split; auto.
      * destruct HsW as [HsW | [_ Hmax]]; [| lia].
        apply (Z_le_of_scaled W _ (a_scale a)); auto.
        unfold Qltb in Hlt. apply negb_false_iff in Hlt. apply Qle_bool_iff. exact Hlt.
      * destruct HsH as [HsH | [_ Hmax]]; [| lia].
        apply (Z_le_of_scaled H _ (a_scale a)); auto.
        unfold Qltb in Hlt. apply negb_false_iff in Hlt. apply Qle_bool_iff. exact Hlt.
  - unfold scalePhaseBody in Hbody.
    match type of Hbody with
    | _ = outcomeOf (writeAndMeasure _ ?p _ _ _ _ _) => set (pipe := p) in *
    end.
    destruct (writeAndMeasure P pipe path (preferFormat options) (a_quality a) (a_scale a) fs1)
      as [[r fs'] t] eqn:Hrun.
    cbn in Hbody. subst r.
    destruct (writeAndMeasure_written _ _ _ _ _ _ _ _ _ _ Hrun) as [Hp [Hq [fs2 Hw]]].
    exists pipe, fs1, fs2. rewrite Hp, Hq.
    split; [exact Hw |]. unfold pipe, targetWithin.
    cbn [toFormat resize p_input p_extract p_output p_resize].
    assert (Hlt : (a_scale a < 1)%Q).
    { apply (scaleLadder_below scaleFactors) with (s0 := s0); [| exact Hladder].
      repeat constructor. }
    repeat split; auto.
    + destruct HsW as [HsW | [Hge _]]; [apply js_round_le; exact HsW |].
      exfalso. apply (Qlt_not_le _ _ Hlt Hge).
    + destruct HsH as [HsH | [Hge _]]; [apply js_round_le; exact HsH |].
      exfalso. apply (Qlt_not_le _ _ Hlt Hge).
Qed.

Lemma encodeToFit_honours_maxLongEdge_witness :
  exists best,
    outcomeOf ReportScenario.tile_1_0 = Ok best /\
    writtenWithin Scenario.steady "source.png"
      (Some {| r_left := 0; r_top := 624; r_width := 1536; r_height := 720 |})
      {| maxBytes := 4000000; maxLongEdge := 1536; preferFormat := webp |}
      3840 2160 best.
Proof.
  eexists. split; [vm_compute; reflexivity |].
  apply (encodeToFit_honours_maxLongEdge Scenario.steady "source.png"
           "out/tiles/tile_1_0.webp"
           {| maxBytes := 4000000; maxLongEdge := 1536; preferFormat := webp |}
           (Some {| r_left := 0; r_top := 624; r_width := 1536; r_height := 720 |})
           Scenario.disk EdgeScenario.header).
  - vm_compute. reflexivity.
  - cbn. lia.
  - cbn. lia.
  - cbn. lia.
  - vm_compute. reflexivity.
Defined.

(** ** The method of tiles.js against the method of encode.js *)

Section Agreement.

Variable maxBytes : Z.

(** A property of the file system that the attempts keep. *)
Variable Inv : FS -> Prop.

Lemma tryAttempt_eq s q (body : M EncodedImage) fs :
  tryAttempt s q body fs =
    (Ok (outcomeOf (body fs)), fsOf (body fs),
     traceOf (body fs)
     ++ [EvAttempt {| a_scale := s; a_quality := q; a_result := outcomeOf (body fs) |}]).
Proof.
  unfold tryAttempt, bind, try_, emit, ret.
  destruct (body fs) as [[r fs1] t1]. reflexivity.
Qed.

Lemma qualityLoop_agree (body1 body2 : Z -> M EncodedImage) s :
  (forall q fs, Inv fs -> body1 q fs = body2 q fs) ->
  (forall q fs, Inv fs -> Inv (fsOf (body1 q fs))) ->
  forall levels best fs,
    Inv fs ->
    qualityLoop maxBytes body1 s levels best fs = qualityLoop maxBytes body2 s levels best fs /\
    Inv (fsOf (qualityLoop maxBytes body1 s levels best fs)).
Proof.
  intros Hsame Hkeep. induction levels as [| q levels IH]; intros best fs Hfs.
  - cbn. auto.
  - cbn [qualityLoop].
    rewrite !(bind_ok _ _ _ _ _ _ (tryAttempt_eq s q _ fs)).
    rewrite <- (Hsame q fs Hfs). specialize (Hkeep q fs Hfs).
    destruct (body1 q fs) as [[[img | e] fs1] t1]; cbn in Hkeep;
      cbn [outcomeOf fsOf traceOf fst snd].
    + destruct (e_bytes img <=? maxBytes).
      * auto.
      * destruct (IH (Some img) fs1 Hkeep) as [Heq Hinv]. rewrite <- Heq.
        auto.
    + auto.
Qed.

Lemma scaleLoop_agree (body1 body2 : Q -> Z -> M EncodedImage) :
  (forall s q fs, Qltb s 1 = true -> Inv fs -> body1 s q fs = body2 s q fs) ->
  (forall s q fs, Inv fs -> Inv (fsOf (body1 s q fs))) ->
  forall candidates s best fs,
    Forall (fun c => Qltb c 1 = true) candidates ->
    Inv fs ->
    scaleLoop maxBytes body1 candidates s best fs =
    scaleLoop maxBytes body2 candidates s best fs.
Proof.
  intros Hsame Hkeep. induction candidates as [| c candidates IH];
    intros s best fs Hc Hfs; [reflexivity |].
  inversion Hc as [| c' cs' Hc1 Hcs]; subst.
  cbn [scaleLoop].
  assert (Hlt : Qltb (Qmin s c) 1 = true).
  { unfold Qltb in *. apply negb_true_iff in Hc1. apply negb_true_iff.
    destruct (Qle_bool 1 (Qmin s c)) eqn:Hle; [| reflexivity].
    apply Qle_bool_iff in Hle.
    assert (H1c : (1 <= c)%Q) by (eapply Qle_trans; [exact Hle | apply Q.le_min_r]).
    apply Qle_bool_iff in H1c. congruence. }
  destruct (qualityLoop_agree (body1 (Qmin s c)) (body2 (Qmin s c)) (Qmin s c)
              (fun q fs' => Hsame (Qmin s c) q fs' Hlt)
              (fun q fs' => Hkeep (Qmin s c) q fs') qualityLevels best fs Hfs)
    as [Heq Hinv].
  unfold bind. rewrite <- Heq.
  destruct (qualityLoop maxBytes (body1 (Qmin s c)) (Qmin s c) qualityLevels best fs)
    as [[[r | e] fs1] t1]; [| reflexivity].
  cbn in Hinv.
  destruct (withinBudget maxBytes r); [reflexivity |].
  rewrite (IH (Qmin s c) r fs1 Hcs Hinv). reflexivity.
Qed.

Lemma searchToFit_agree (qualityBody scaleBody attempt : Q -> Z -> M EncodedImage) s0 fs :
  (forall s q fs, Inv fs -> qualityBody s q fs = attempt s q fs) ->
  (forall s q fs, Qltb s 1 = true -> Inv fs -> scaleBody s q fs = attempt s q fs) ->
  (forall s q fs, Inv fs -> Inv (fsOf (qualityBody s q fs))) ->
  (forall s q fs, Inv fs -> Inv (fsOf (scaleBody s q fs))) ->
  Inv fs ->
  searchToFit maxBytes qualityBody scaleBody s0 fs = searchToFit maxBytes attempt attempt s0 fs.
Proof.
  intros Hq Hs Hkq Hks Hfs. unfold searchToFit.
  destruct (qualityLoop_agree (qualityBody s0) (attempt s0) s0
              (fun q fs' => Hq s0 q fs') (fun q fs' => Hkq s0 q fs')
              qualityLevels None fs Hfs) as [Heq Hinv].
  unfold bind at 1 3. rewrite <- Heq.
  destruct (qualityLoop maxBytes (qualityBody s0) s0 qualityLevels None fs)
    as [[[r | e] fs1] t1]; [| reflexivity].
  cbn in Hinv.
  unfold bind.
  destruct (stillTooBig maxBytes r); [| reflexivity].
  rewrite (scaleLoop_agree scaleBody attempt Hs Hks scaleFactors s0 r fs1); [reflexivity | | exact Hinv].
  repeat constructor.
Qed.

End Agreement.

(** The file system an attempt leaves: the one it found, or the one
    [toFile] left. *)
Lemma writeAndMeasure_fs P p path format quality s fs :
  fsOf (writeAndMeasure P p path format quality s fs) = fs \/
  fsOf (writeAndMeasure P p path format quality s fs) = snd (sharp_toFile P p path fs).
Proof.
  unfold writeAndMeasure, bind, metadata, toFile, statSync_size, reading, acting, ret.
  destruct (sharp_metadata P p fs) as [info | e]; [| left; reflexivity].
  destruct (sharp_toFile P p path fs) as [[[] | e] fs1]; cbn; [| right; reflexivity].
  destruct (files fs1 path); right; reflexivity.
Qed.

(** With the header of the input as first read, an attempt of the base
    method is the attempt of the override. *)
Lemma tryEncode_is_qualityPhaseBody P i path md format maxBytes s q fs :
  sharp_metadata P (sharp i) fs = Ok md ->
  qualityPhaseBody P i path None (or0 (m_width md)) (or0 (m_height md)) format s q fs =
  tryEncode P i path s q format maxBytes fs.
Proof.
  intros Hmd. unfold qualityPhaseBody, tryEncode, source.
  assert (Hread : metadata P (sharp i) fs = (Ok md, fs, []))
    by (unfold metadata, reading; rewrite Hmd; reflexivity).
  destruct (Qltb s 1).
  - rewrite (bind_ok _ _ fs
               (resize (js_round (inject_Z (or0 (m_width md)) * s))
                       (js_round (inject_Z (or0 (m_height md)) * s)) (sharp i)) fs []).
    + cbn [app]. rewrite <- run_eta. reflexivity.
    + rewrite (bind_ok _ _ _ _ _ _ Hread). reflexivity.
  - rewrite bind_ret_l. reflexivity.
Qed.

Lemma tryEncode_is_scalePhaseBody P i path md format maxBytes s q fs :
  Qltb s 1 = true ->
  sharp_metadata P (sharp i) fs = Ok md ->
  scalePhaseBody P i path None (or0 (m_width md)) (or0 (m_height md)) format s q fs =
  tryEncode P i path s q format maxBytes fs.
Proof.
  intros Hlt Hmd.
  rewrite <- (tryEncode_is_qualityPhaseBody P i path md format maxBytes s q fs Hmd).
  unfold scalePhaseBody, qualityPhaseBody. rewrite Hlt. reflexivity.
Qed.

(** X5.  Called without a region, the [encodeToFit] that tiles.js installs
    on the prototype behaves as the method of encode.js it replaces: same
    outcome, same files, same attempts, provided that writing the output
    file leaves what [metadata()] answers for the input untouched (the
    method of encode.js reads the dimensions again at every attempt below
    scale 1, the one of tiles.js reads them once). *)
Theorem encodeToFit_without_region_is_base_method :
  forall P inputPath outputPath options fs,
    (forall p fs1,
       sharp_metadata P (sharp inputPath)
         (snd (sharp_toFile P p (finalOutputPathOf outputPath (preferFormat options)) fs1))
       = sharp_metadata P (sharp inputPath) fs1) ->
    encodeToFit P inputPath outputPath options None fs =
    base_encodeToFit P inputPath outputPath options fs.
Proof.
  intros P i o options fs Hstable.
  unfold encodeToFit, base_encodeToFit. cbn [source].
  apply bind_ext. intros [] fs0.
  destruct (sharp_metadata P (sharp i) fs0) as [md | e] eqn:Hmd.
  2: { assert (Hread : metadata P (sharp i) fs0 = (Throw e, fs0, []))
         by (unfold metadata, reading; rewrite Hmd; reflexivity).
       rewrite !(bind_throw _ _ _ _ _ _ Hread). reflexivity. }
  assert (Hread : metadata P (sharp i) fs0 = (Ok md, fs0, []))
    by (unfold metadata, reading; rewrite Hmd; reflexivity).
  rewrite !(bind_ok _ _ _ _ _ _ Hread).
  set (path := finalOutputPathOf o (preferFormat options)) in *.
  rewrite (searchToFit_agree (maxBytes options)
             (fun fs1 => sharp_metadata P (sharp i) fs1 = Ok md)
             (qualityPhaseBody P i path None (or0 (m_width md)) (or0 (m_height md))
                (preferFormat options))
             (scalePhaseBody P i path None (or0 (m_width md)) (or0 (m_height md))
                (preferFormat options))
             (fun s q => tryEncode P i path s q (preferFormat options) (maxBytes options))).
  - reflexivity.
  - intros s q fs1 H1. apply tryEncode_is_qualityPhaseBody. exact H1.
  - intros s q fs1 Hlt H1. apply tryEncode_is_scalePhaseBody; assumption.
  - intros s q fs1 H1. unfold qualityPhaseBody.
    destruct (writeAndMeasure_fs P
                (toFormat (preferFormat options) q
                   (if Qltb s 1
                    then resize (js_round (inject_Z (or0 (m_width md)) * s))
                           (js_round (inject_Z (or0 (m_height md)) * s)) (source i None)
                    else source i None))
                path (preferFormat options) q s fs1) as [-> | ->];
      [exact H1 | rewrite Hstable; exact H1].
  - intros s q fs1 H1. unfold scalePhaseBody.
    destruct (writeAndMeasure_fs P
                (toFormat (preferFormat options) q
                   (resize (js_round (inject_Z (or0 (m_width md)) * s))
                      (js_round (inject_Z (or0 (m_height md)) * s)) (source i None)))
                path (preferFormat options) q s fs1) as [-> | ->];
      [exact H1 | rewrite Hstable; exact H1].
  - exact Hmd.
Qed.

Lemma encodeToFit_without_region_is_base_method_witness :
  encodeToFit Scenario.steady "source.png" "out/source_overview.webp"
    (Scenario.budget 1500000) None Scenario.disk =
  base_encodeToFit Scenario.steady "source.png" "out/source_overview.webp"
    (Scenario.budget 1500000) Scenario.disk.
Proof.
  apply encodeToFit_without_region_is_base_method.
  intros p fs1. cbn [Scenario.steady Demo.platform sharp_metadata sharp_toFile].
  unfold Demo.toFile, Demo.metadata. cbn [sharp p_input].
  destruct (files fs1 (p_input p)) as [input |]; [| reflexivity].
  destruct (Demo.outputSize p input) as [w h].
  destruct (Demo.acceptsAll p); [reflexivity |].
  destruct ((w <=? 0) || (h <=? 0))%bool; reflexivity.
Defined.

(** ** The loop of [generateCrops] *)

Lemma warningsOf_app t1 t2 : warningsOf (t1 ++ t2) = warningsOf t1 ++ warningsOf t2.
Proof.
  induction t1 as [| [a | msg] t1 IH]; cbn; [reflexivity | exact IH |].
  rewrite IH. reflexivity.
Qed.

Lemma warningsOf_attempts (l : list Attempt) : warningsOf (map EvAttempt l) = [].
Proof. induction l; cbn; auto. Qed.

Lemma encodeToFit_no_warning P i o options region fs :
  warningsOf (traceOf (encodeToFit P i o options region fs)) = [].
Proof.
  destruct (encodeToFit_summary P i o options region fs) as [l [[Ht _] _]].
  rewrite Ht. apply warningsOf_attempts.
Qed.

(** The loop over the regions: every region adds a crop or a warning. *)
Lemma cropLoop_accounts P enc i o options :
  (forall i' o' options' region fs1,
     warningsOf (traceOf (enc i' o' options' region fs1)) = []) ->
  forall regions crops cropIndex fs st fs' t,
    forEach regions (cropStep P enc i o options) (crops, cropIndex) fs = (Ok st, fs', t) ->
    exists kept,
      map regionOfCrop (fst st) = map regionOfCrop crops ++ kept /\
      Subseq kept regions /\
      (List.length kept + List.length (warningsOf t) = List.length regions)%nat.
Proof.
  intros Hquiet. induction regions as [| region regions IH];
    intros crops cropIndex fs st fs' t Hrun.
  - cbn in Hrun. inversion Hrun; subst. exists []. cbn. rewrite app_nil_r.
    repeat split; constructor.
  - cbn [forEach] in Hrun. apply bind_inv_ok in Hrun.
    destruct Hrun as [st1 [fs1 [t1 [t2 [Hstep [Hrest ->]]]]]].
    pose proof (Hquiet i (path_join P o (cropFileName cropIndex (cr_name region)
                                            (co_preferFormat options)))
                  {| maxBytes := co_maxBytes options;
                     maxLongEdge := co_maxLongEdge options;
                     preferFormat := co_preferFormat options |}
                  (Some {| r_left := cr_x region; r_top := cr_y region;
                           r_width := cr_w region; r_height := cr_h region |}) fs) as Hq.
    fold (encodeCrop P enc i o options region cropIndex) in Hq.
    destruct (encodeCrop P enc i o options region cropIndex fs) as [[[img | e] fsa] ta] eqn:Henc;
      cbn in Hq.
    + rewrite (cropStep_ok _ _ _ _ _ _ _ _ _ _ _ _ Henc) in Hstep.
      inversion Hstep; subst. clear Hstep.
      destruct (IH _ _ _ _ _ _ Hrest) as [kept [Hmap [Hsub Hlen]]].
      exists (region :: kept). rewrite Hmap, map_app, <- app_assoc. cbn [map app].
      split; [destruct region; reflexivity |].
      split; [constructor; exact Hsub |].
      rewrite warningsOf_app, Hq. cbn. lia.
    + rewrite (cropStep_throw _ _ _ _ _ _ _ _ _ _ _ _ Henc) in Hstep.
      inversion Hstep; subst. clear Hstep.
      destruct (IH _ _ _ _ _ _ Hrest) as [kept [Hmap [Hsub Hlen]]].
      exists kept. split; [exact Hmap |].
      split; [constructor; exact Hsub |].
      rewrite !warningsOf_app, Hq. cbn. lia.
Qed.

(** X14.  For an encoder that writes no warning of its own, every region
    of [generateCropRegions] ends up as a crop or as a warning: the crops
    returned by [generateCrops] carry the names and rectangles of regions of
    the list, in the order of the list, and the number of crops plus the
    number of warnings on the console is the number of regions. *)
Theorem generateCrops_accounts_for_every_region :
  forall P enc inputPath outputDir options fs W H fs0 t0 crops fs' t,
    (forall i o options' region fs1,
       warningsOf (traceOf (enc i o options' region fs1)) = []) ->
    readDimensions P inputPath outputDir fs = (Ok (W, H), fs0, t0) ->
    generateCrops P enc inputPath outputDir options fs = (Ok crops, fs', t) ->
    let regions := generateCropRegions W H (minCropSize options) in
    Subseq (map regionOfCrop crops) regions /\
    (List.length crops + List.length (warningsOf t) = List.length regions)%nat.
Proof.
  intros P enc i o options fs W H fs0 t0 crops fs' t Hquiet Hdims Hrun regions.
  pose proof (silent_readDimensions P i o fs) as Hsil. rewrite Hdims in Hsil. cbn in Hsil.
  subst t0.
  unfold generateCrops in Hrun.
  rewrite (bind_ok _ _ _ _ _ _ Hdims) in Hrun. cbn iota in Hrun. cbn [app] in Hrun.
  rewrite <- run_eta in Hrun.
  apply bind_inv_ok in Hrun. destruct Hrun as [st [fs1 [t1 [t2 [Hloop [Hret ->]]]]]].
  unfold ret in Hret. inversion Hret; subst. clear Hret. rewrite app_nil_r.
  destruct (cropLoop_accounts P enc i o options Hquiet _ _ _ _ _ _ _ Hloop)
    as [kept [Hmap [Hsub Hlen]]].
  cbn [map app] in Hmap. fold regions in Hsub, Hlen.
  rewrite Hmap. split; [exact Hsub |].
  rewrite <- Hlen. rewrite <- Hmap, length_map. reflexivity.
Qed.

Lemma generateCrops_accounts_for_every_region_witness :
  exists crops,
    outcomeOf CropScenario.sixCrops = Ok crops /\
    List.length crops = 6%nat /\
    List.length (generateCropRegions 3840 2160 768) = 8%nat /\
    Subseq (map regionOfCrop crops) (generateCropRegions 3840 2160 768) /\
    (List.length crops + List.length (warningsOf (traceOf CropScenario.sixCrops))
     = List.length (generateCropRegions 3840 2160 768))%nat.
Proof.
  eexists. split; [vm_compute; reflexivity |]. split; [reflexivity |].
  split; [reflexivity |].
  eapply (generateCrops_accounts_for_every_region CropScenario.lenient
            (encodeToFit CropScenario.lenient) "source.png" "out/crops"
            CropScenario.defaults Scenario.disk 3840 2160).
  - intros. apply encodeToFit_no_warning.
  - apply run_is. vm_compute. reflexivity.
  - apply run_is. vm_compute. reflexivity.
Defined.

(** X15.  Whatever the encoder does, [generateCrops] throws exactly when
    making the output directory or reading the dimensions of the image
    throws, and then with that error: no failure to encode a crop makes the
    call fail. *)
Theorem generateCrops_throws_only_on_dimensions :
  forall P enc inputPath outputDir options fs e,
    outcomeOf (generateCrops P enc inputPath outputDir options fs) = Throw e <->
    outcomeOf (readDimensions P inputPath outputDir fs) = Throw e.
Proof.
  intros P enc i o options fs e. unfold generateCrops.
  destruct (readDimensions P i o fs) as [[[[W H] | e'] fs0] t0] eqn:Hdims.
  - rewrite (bind_ok _ _ _ _ _ _ Hdims). cbn iota.
    destruct (cropLoop_returns P enc i o options
                (generateCropRegions W H (minCropSize options)) ([], 0%nat) fs0)
      as [st [fs1 [t1 Hloop]]].
    rewrite (bind_ok _ _ _ _ _ _ Hloop). cbn. split; discriminate.
  - rewrite (bind_throw _ _ _ _ _ _ Hdims). cbn.
    split; intros Heq; inversion Heq; reflexivity.
Qed.

(** X11.  When the header of the image gives no width or no height, or
    gives 0 for one of them, [generateTiles] and [generateCrops] both throw
    "Invalid image dimensions" once the output directory is there: the
    encoder is not called, nothing is reported, and the file system is as
    the making of the directory left it. *)
Theorem invalid_dimensions_are_rejected_before_encoding :
  forall P tileEncoder cropEncoder inputPath outputDir tiling cropping fs md,
    let fs0 := fsOf (ensureDir P outputDir fs) in
    outcomeOf (ensureDir P outputDir fs) = Ok tt ->
    sharp_metadata P (sharp inputPath) fs0 = Ok md ->
    or0 (m_width md) = 0 \/ or0 (m_height md) = 0 ->
    generateTiles P tileEncoder inputPath outputDir tiling fs
      = (Throw "Invalid image dimensions"%string, fs0, []) /\
    generateCrops P cropEncoder inputPath outputDir cropping fs
      = (Throw "Invalid image dimensions"%string, fs0, []).
Proof.
  intros P tenc cenc i o tiling cropping fs md fs0 Hdir Hmd Hzero.
  assert (Hdims : readDimensions P i o fs
                  = (Throw "Invalid image dimensions"%string, fs0, [])).
  { unfold readDimensions.
    pose proof (silent_ensureDir P o fs) as Hsil.
    apply run_is in Hdir. rewrite Hsil in Hdir. fold fs0 in Hdir.
    rewrite (bind_ok _ _ _ _ _ _ Hdir). cbn [app]. rewrite <- run_eta.
    rewrite (bind_ok _ _ fs0 md fs0 []) by (unfold metadata, reading; rewrite Hmd; reflexivity).
    cbn [app]. rewrite <- run_eta.
    assert (Hz : ((or0 (m_width md) =? 0) || (or0 (m_height md) =? 0))%bool = true).
    { apply orb_true_iff. rewrite !Z.eqb_eq. exact Hzero. }
    rewrite Hz. reflexivity. }
  unfold generateTiles, generateCrops.
  rewrite !(bind_throw _ _ _ _ _ _ Hdims). split; reflexivity.
Qed.

Lemma invalid_dimensions_are_rejected_before_encoding_witness :
  outcomeOf (generateTiles Scenario.steady (encodeToFit Scenario.steady)
               "source.png" "out/tiles" TileScenario.defaults EdgeScenario.flat)
    = Throw "Invalid image dimensions"%string /\
  outcomeOf (generateCrops Scenario.steady (encodeToFit Scenario.steady)
               "source.png" "out/crops" CropScenario.defaults EdgeScenario.flat)
    = Throw "Invalid image dimensions"%string.
Proof.
  split.
  - rewrite (proj1 (invalid_dimensions_are_rejected_before_encoding Scenario.steady
               (encodeToFit Scenario.steady) (encodeToFit Scenario.steady)
               "source.png" "out/tiles" TileScenario.defaults CropScenario.defaults
               EdgeScenario.flat {| m_width := Some 0; m_height := Some 2160 |}
               ltac:(vm_compute; reflexivity) ltac:(vm_compute; reflexivity)
               ltac:(left; reflexivity))).
    reflexivity.
  - rewrite (proj2 (invalid_dimensions_are_rejected_before_encoding Scenario.steady
               (encodeToFit Scenario.steady) (encodeToFit Scenario.steady)
               "source.png" "out/crops" TileScenario.defaults CropScenario.defaults
               EdgeScenario.flat {| m_width := Some 0; m_height := Some 2160 |}
               ltac:(vm_compute; reflexivity) ltac:(vm_compute; reflexivity)
               ltac:(left; reflexivity))).
    reflexivity.
Defined.

(** ** The path of the overview *)

Lemma stripSuffix_some suffix s stem :
  stripSuffix suffix s = Some stem -> s = (stem ++ suffix)%string.
Proof.
  revert stem. induction s as [| c s IH]; intros stem; cbn [stripSuffix].
  - destruct (String.eqb_spec EmptyString suffix) as [<- | Hne]; [| discriminate].
    intros H. inversion H. reflexivity.
  - destruct (String.eqb_spec (String c s) suffix) as [<- | Hne].
    + intros H. inversion H. reflexivity.
    + destruct (stripSuffix suffix s) as [stem' |]; [| discriminate].
      cbn. intros H. inversion H; subst. cbn. rewrite <- (IH stem' eq_refl). reflexivity.
Qed.

Lemma string_length_app (a b : string) :
  String.length (a ++ b) = (String.length a + String.length b)%nat.
Proof. induction a; cbn; congruence. Qed.

Lemma stripSuffix_app stem suffix : stripSuffix suffix (stem ++ suffix) = Some stem.
Proof.
  induction stem as [| c stem IH]; cbn [append stripSuffix].
  - destruct suffix; cbn [stripSuffix]; rewrite String.eqb_refl; reflexivity.
  - destruct (String.eqb_spec (String c (stem ++ suffix)) suffix) as [Heq | Hne].
    + apply (f_equal String.length) in Heq. cbn in Heq. rewrite string_length_app in Heq. lia.
    + rewrite IH. reflexivity.
Qed.

Lemma stripSuffix_endsWith suffix s :
  endsWith s suffix = true <-> exists stem, stripSuffix suffix s = Some stem.
Proof.
  induction s as [| c s IH]; cbn [endsWith stripSuffix].
  - destruct (String.eqb EmptyString suffix); split; eauto; try discriminate.
    intros [stem H]. discriminate.
  - destruct (String.eqb (String c s) suffix); [split; eauto |].
    rewrite IH. split; intros [stem H].
    + rewrite H. cbn. eauto.
    + destruct (stripSuffix suffix s); [eauto | discriminate].
Qed.

Lemma string_app_inv_head (a x y : string) : (a ++ x = a ++ y)%string -> x = y.
Proof. induction a; cbn; intros H; [exact H | inversion H; auto]. Qed.

Lemma app_eq_suffix (a b x y : string) :
  (a ++ x = b ++ y)%string -> endsWith x y = true \/ endsWith y x = true.
Proof.
  revert b. induction a as [| c a IH]; intros b Heq.
  - cbn in Heq. subst x. left. apply endsWith_app.
  - destruct b as [| d b].
    + cbn in Heq. subst y. right. apply (endsWith_app (String c a) x).
    + cbn in Heq. inversion Heq; subst. eapply IH; eauto.
Qed.

Lemma stripSuffix_none stem tail suffix :
  endsWith tail suffix = false -> endsWith suffix tail = false ->
  stripSuffix suffix (stem ++ tail) = None.
Proof.
  intros H1 H2. destruct (stripSuffix suffix (stem ++ tail)) as [p |] eqn:Hs; [| reflexivity].
  apply stripSuffix_some in Hs. apply app_eq_suffix in Hs. destruct Hs; congruence.
Qed.

Lemma endsWith_false_stem stem tail suffix :
  endsWith tail suffix = false -> endsWith suffix tail = false ->
  endsWith (stem ++ tail) suffix = false.
Proof.
  intros H1 H2. destruct (endsWith (stem ++ tail) suffix) eqn:He; [| reflexivity].
  apply stripSuffix_endsWith in He. destruct He as [p Hp].
  rewrite (stripSuffix_none stem tail suffix H1 H2) in Hp. discriminate.
Qed.

Lemma overviewFile_of_stem stem prefer_format :
  finalOutputPathOf (stem ++ "_overview." ++ formatName prefer_format) prefer_format =
  (stem ++ overviewSuffix prefer_format)%string.
Proof.
  unfold finalOutputPathOf. destruct prefer_format; cbn [formatName extensionOf overviewSuffix].
  - change ("_overview." ++ "webp")%string with ("_overview" ++ ".webp")%string.
    rewrite <- string_app_assoc.
    change ("." ++ "webp")%string with ".webp"%string.
    rewrite endsWith_app. rewrite string_app_assoc. reflexivity.
  - rewrite (endsWith_false_stem stem) by reflexivity.
    rewrite string_app_assoc. reflexivity.
Qed.

Lemma string_app_neq_self (s t : string) : t <> EmptyString -> (s ++ t)%string <> s.
Proof.
  intros Ht Heq. apply (f_equal String.length) in Heq. rewrite string_length_app in Heq.
  destruct t; [contradiction | cbn in Heq; lia].
Qed.

(** X18.  The overview never goes to the file of the source: for every
    source path and format, the file [encodeToFit] writes for the
    [overviewPath] of server.js differs from the source path.  For a source
    [<stem>.png] (or .jpg, .jpeg, .webp) it is [<stem>_overview.webp] when
    the format is webp, and [<stem>_overview.jpeg.jpg] when it is jpeg: the
    server names the path with the format "jpeg", the encoder completes it
    with the extension "jpg". *)
Theorem overview_is_written_beside_the_source :
  forall sourceForProcessing prefer_format,
    overviewFileOf sourceForProcessing prefer_format <> sourceForProcessing /\
    (forall stem extension,
       In extension ["png"; "jpg"; "jpeg"; "webp"]%string ->
       sourceForProcessing = (stem ++ "." ++ extension)%string ->
       overviewFileOf sourceForProcessing prefer_format =
       (stem ++ overviewSuffix prefer_format)%string).
Proof.
  intros source fmt. unfold overviewFileOf, overviewPathOf, replaceImageExtension. split.
  - assert (Hstem : forall stem extension,
              In extension [".png"; ".jpg"; ".jpeg"; ".webp"]%string ->
              stripSuffix extension source = Some stem ->
              finalOutputPathOf (stem ++ "_overview." ++ formatName fmt) fmt <> source).
    { intros stem extension Hin Hs. apply stripSuffix_some in Hs. subst source.
      rewrite overviewFile_of_stem. intros Heq. apply string_app_inv_head in Heq.
      cbn in Hin. destruct fmt;
        repeat (destruct Hin as [<- | Hin]; [discriminate Heq |]); destruct Hin. }
    destruct (stripSuffix ".png" source) as [stem |] eqn:H1;
      [apply (Hstem stem ".png"%string); cbn; auto |].
    destruct (stripSuffix ".jpg" source) as [stem |] eqn:H2;
      [apply (Hstem stem ".jpg"%string); cbn; auto |].
    destruct (stripSuffix ".jpeg" source) as [stem |] eqn:H3;
      [apply (Hstem stem ".jpeg"%string); cbn; auto |].
    destruct (stripSuffix ".webp" source) as [stem |] eqn:H4;
      [apply (Hstem stem ".webp"%string); cbn; auto 6 |].
    unfold finalOutputPathOf.
    destruct (endsWith source ("." ++ extensionOf fmt)) eqn:He.
    + apply stripSuffix_endsWith in He. destruct He as [stem Hs].
      destruct fmt; cbn in Hs; congruence.
    + apply string_app_neq_self. destruct fmt; discriminate.
  - intros stem extension Hin ->.
    cbn in Hin. destruct Hin as [<- | [<- | [<- | [<- | []]]]].
    + change ("." ++ "png")%string with ".png"%string.
      rewrite stripSuffix_app. apply overviewFile_of_stem.
    + change ("." ++ "jpg")%string with ".jpg"%string.
      rewrite (stripSuffix_none stem ".jpg" ".png") by reflexivity.
      rewrite stripSuffix_app. apply overviewFile_of_stem.
    + change ("." ++ "jpeg")%string with ".jpeg"%string.
      rewrite (stripSuffix_none stem ".jpeg" ".png") by reflexivity.
      rewrite (stripSuffix_none stem ".jpeg" ".jpg") by reflexivity.
      rewrite stripSuffix_app. apply overviewFile_of_stem.
    + change ("." ++ "webp")%string with ".webp"%string.
      rewrite (stripSuffix_none stem ".webp" ".png") by reflexivity.
      rewrite (stripSuffix_none stem ".webp" ".jpg") by reflexivity.
      rewrite (stripSuffix_none stem ".webp" ".jpeg") by reflexivity.
      rewrite stripSuffix_app. apply overviewFile_of_stem.
Qed.

Lemma overview_is_written_beside_the_source_witness :
  overviewFileOf "out/source.png" webp = "out/source_overview.webp"%string /\
  overviewFileOf "out/source.png" jpeg = "out/source_overview.jpeg.jpg"%string /\
  overviewFileOf "out/source" webp = "out/source.webp"%string.
Proof.
  pose proof (overview_is_written_beside_the_source "out/source.png" webp) as [_ Hwebp].
  pose proof (overview_is_written_beside_the_source "out/source.png" jpeg) as [_ Hjpeg].
  split; [| split].
  - apply (Hwebp "out/source" "png")%string; [left; reflexivity | reflexivity].
  - apply (Hjpeg "out/source" "png")%string; [left; reflexivity | reflexivity].
  - reflexivity.
Defined.
